(** * Zoro: request scheduling and tiered caching

    A shallow embedding of the request/caching core of [src/main.js]:
    [RequestQueue], [Api.createCacheKey], [Api.fetchZoroData] and the cache
    methods of [ZoroPlugin] ([getFromCache], [setToCache],
    [clearCacheForMedia], [clearListCaches], [saveCacheToStorage],
    [loadCacheFromStorage]); and of the code around it: [pruneCache],
    [clearSingleEntryCache], [Api.updateMediaListEntry],
    [Api.checkIfMediaInList], [Api.getZoroUrl], [validateSettings], the
    parsers of [Processor] ([parseCodeBlockConfig],
    [parseSearchCodeBlockConfig], [parseInlineLink]), [Export.csvEscape]
    and, of [Theme], [extractCSSRules] and the scoping of a selector.

    The file has two parts.  Part I holds the definitions: the fragment of
    the JavaScript runtime the code relies on (values, numbers, objects,
    [Map], [JSON.stringify], [JSON.parse], [parseInt]), then the program.
    Part II holds the lemmas and the theorems about the program.

    Modelling conventions.
    - A JS string is a [string]: a sequence of code units below 256.
    - A JS number is its exact decimal value; binary rounding, overflow and
      the exponent notation of very large or very small numbers are not
      modelled.  [-0] and [0] are one number, as they are for [===].
    - An object is the list of its own properties in enumeration order; a
      [Map] is the list of its entries in insertion order, with string
      keys.
    - [Date.now()] is read once per synchronous call and passed as [now].
    - A function that only reads a few settings, or [window.innerWidth],
      takes them as arguments.
    - Code that runs to completion is a function on the state it touches;
      what the event loop interleaves (calls, settlements of awaited
      promises, timers) is a list of events, each with its time.  A timer
      is taken never to fire before its deadline. *)

From Stdlib Require Import String Ascii List ZArith NArith Bool Arith Lia.
From Stdlib Require Import Permutation Sorted.
Import ListNotations.

Set Warnings "-register-all".

Local Open Scope string_scope.
Local Open Scope list_scope.
Local Open Scope Z_scope.

Infix "+++" := String.append (at level 60, right associativity).

(* ===================================================================== *)
(** * Part I.  Definitions *)
(* ===================================================================== *)

(** ** Characters and decimal digits *)

Definition code (c : ascii) : N := N_of_ascii c.

Definition dquote : ascii := ascii_of_N 34.
Definition backslash : ascii := ascii_of_N 92.

Definition is_digit (c : ascii) : bool :=
  ((48 <=? code c) && (code c <=? 57))%N.

Definition digit_val (c : ascii) : N := (code c - 48)%N.

Definition digit_char (d : N) : ascii := ascii_of_N (48 + d).

(** Most significant digit first; [fuel] bounds the number of digits. *)
Fixpoint digits_aux (fuel : nat) (n : N) (acc : list N) : list N :=
  match fuel with
  | O => acc
  | S f =>
      let acc' := (n mod 10)%N :: acc in
      if (n / 10 =? 0)%N then acc' else digits_aux f (n / 10)%N acc'
  end.

Definition digits (n : N) : list N :=
  digits_aux (S (N.to_nat (N.log2 n))) n [].

Definition digits_val (ds : list N) : N :=
  fold_left (fun a d => (10 * a + d)%N) ds 0%N.

Fixpoint string_of_digits (ds : list N) : string :=
  match ds with
  | [] => EmptyString
  | d :: r => String (digit_char d) (string_of_digits r)
  end.

(** The longest prefix of decimal digits, as digit values, and the rest. *)
Fixpoint read_digits (s : string) : list N * string :=
  match s with
  | EmptyString => ([], EmptyString)
  | String c r =>
      if is_digit c
      then let (ds, r') := read_digits r in (digit_val c :: ds, r')
      else ([], s)
  end.

(** ** Numbers *)

(** [Fin m k] is the number [m / 10^k]; it is canonical when [k = 0] or
    [m] is not a multiple of ten. *)
Inductive number : Type :=
| NaN
| PosInf
| NegInf
| Fin (m : Z) (k : nat).

Definition Int (z : Z) : number := Fin z 0.

Fixpoint norm (m : Z) (k : nat) : number :=
  match k with
  | O => Fin m 0
  | S k' => if m mod 10 =? 0 then norm (m / 10) k' else Fin m k
  end.

Definition canonical (n : number) : Prop :=
  match n with
  | Fin m k => k = O \/ m mod 10 <> 0
  | _ => True
  end.

Definition pow10 (k : nat) : Z := 10 ^ Z.of_nat k.

Definition num_neg (a : number) : number :=
  match a with
  | NaN => NaN
  | PosInf => NegInf
  | NegInf => PosInf
  | Fin m k => Fin (- m) k
  end.

(** [a - b] *)
Definition num_sub (a b : number) : number :=
  match a, b with
  | NaN, _ | _, NaN => NaN
  | PosInf, PosInf | NegInf, NegInf => NaN
  | PosInf, _ | _, NegInf => PosInf
  | NegInf, _ | _, PosInf => NegInf
  | Fin x i, Fin y j =>
      norm (x * pow10 (Nat.max i j - i) - y * pow10 (Nat.max i j - j))
           (Nat.max i j)
  end.

(** [a < b]; every comparison with [NaN] is false. *)
Definition num_ltb (a b : number) : bool :=
  match a, b with
  | NaN, _ | _, NaN => false
  | _, NegInf | PosInf, _ => false
  | NegInf, _ | _, PosInf => true
  | Fin x i, Fin y j => x * pow10 j <? y * pow10 i
  end.

(** [a > b] *)
Definition num_gtb (a b : number) : bool := num_ltb b a.

(** [a === b] on numbers: [NaN] differs from itself. *)
Definition num_eqb (a b : number) : bool :=
  match a, b with
  | PosInf, PosInf | NegInf, NegInf => true
  | Fin x i, Fin y j => x * pow10 j =? y * pow10 i
  | _, _ => false
  end.

Definition num_is_zero (a : number) : bool :=
  match a with Fin m _ => m =? 0 | _ => false end.

(** The decimal expansion of [m / 10^k], [m >= 0]: the digits of [m], padded
    with zeros on the left to at least [k + 1] digits, with a point before
    the last [k]. *)
Definition pad_digits (k : nat) (ds : list N) : list N :=
  repeat 0%N (S k - length ds) ++ ds.

Definition decimal_string (m : N) (k : nat) : string :=
  match k with
  | O => string_of_digits (digits m)
  | S _ =>
      let ds := pad_digits k (digits m) in
      string_of_digits (firstn (length ds - k) ds)
        +++ "." +++ string_of_digits (skipn (length ds - k) ds)
  end.

(** [Number::toString] on the modelled range. *)
Definition number_to_string (n : number) : string :=
  match n with
  | NaN => "NaN"
  | PosInf => "Infinity"
  | NegInf => "-Infinity"
  | Fin m k =>
      if m <? 0 then "-" +++ decimal_string (Z.abs_N m) k
      else decimal_string (Z.abs_N m) k
  end.

(** ** Values *)

Inductive value : Type :=
| VUndefined
| VNull
| VBool (b : bool)
| VNum (n : number)
| VStr (s : string)
| VArr (elems : list value)
| VObj (props : list (string * value)).

Definition VInt (z : Z) : value := VNum (Int z).

(** [ToBoolean] *)
Definition truthy (v : value) : bool :=
  match v with
  | VUndefined | VNull => false
  | VBool b => b
  | VNum NaN => false
  | VNum n => negb (num_is_zero n)
  | VStr s => negb (String.eqb s "")
  | VArr _ | VObj _ => true
  end.

(** [a === b] where one side is a number: objects and arrays are never
    strictly equal to a number. *)
Definition strict_eq_num (v : value) (n : number) : bool :=
  match v with
  | VNum m => num_eqb m n
  | _ => false
  end.

(** [v === s] for a string [s] *)
Definition strict_eq_str (v : value) (s : string) : bool :=
  match v with
  | VStr t => String.eqb t s
  | _ => false
  end.

(** ** Objects

    An object is the list of its own properties in enumeration order:
    property names that are array indices come first, in ascending numeric
    order, then the other names in the order of their creation. *)

Definition object : Type := list (string * value).

Definition max_array_index : N := 4294967294.

(** [Some n] when [k] is the canonical decimal spelling of an array index. *)
Definition array_index (k : string) : option N :=
  match read_digits k with
  | ([], _) => None
  | (ds, EmptyString) =>
      let n := digits_val ds in
      if (String.eqb (string_of_digits (digits n)) k
          && (n <=? max_array_index)%N)%bool
      then Some n else None
  | (_, String _ _) => None
  end.

Fixpoint obj_find (o : object) (k : string) : option value :=
  match o with
  | [] => None
  | (k', v) :: r => if String.eqb k' k then Some v else obj_find r k
  end.

(** [o[k]] or [o.k] on an object without inherited properties of that name. *)
Definition obj_get (o : object) (k : string) : value :=
  match obj_find o k with
  | Some v => v
  | None => VUndefined
  end.

Definition obj_has (o : object) (k : string) : bool :=
  match obj_find o k with Some _ => true | None => false end.

Fixpoint obj_update (o : object) (k : string) (v : value) : object :=
  match o with
  | [] => []
  | (k', v') :: r =>
      if String.eqb k' k then (k', v) :: r else (k', v') :: obj_update r k v
  end.

(** Insert a new property whose name is the array index [n]. *)
Fixpoint obj_insert_index (n : N) (k : string) (v : value) (o : object)
  : object :=
  match o with
  | [] => [(k, v)]
  | (k', v') :: r =>
      match array_index k' with
      | Some n' =>
          if (n' <? n)%N then (k', v') :: obj_insert_index n k v r
          else (k, v) :: o
      | None => (k, v) :: o
      end
  end.

(** [o[k] = v] on a plain object (the name [__proto__] apart). *)
Definition obj_set (o : object) (k : string) (v : value) : object :=
  if obj_has o k then obj_update o k v
  else match array_index k with
       | Some n => obj_insert_index n k v o
       | None => o ++ [(k, v)]
       end.

(** [Object.keys(o)] *)
Definition obj_keys (o : object) : list string := map fst o.

(** The object a list of assignments builds, starting from [{}]. *)
Definition obj_of_list (l : list (string * value)) : object :=
  fold_left (fun o kv => obj_set o (fst kv) (snd kv)) l [].

(** [v.k] for a value [v]: [None] when the access throws a [TypeError]
    ([v] is [undefined] or [null]).  Strings, numbers, booleans and arrays
    have no own property with the names the program reads, [length] apart. *)
Definition get_prop (v : value) (k : string) : option value :=
  match v with
  | VUndefined | VNull => None
  | VObj o => Some (obj_get o k)
  | VArr l =>
      if String.eqb k "length" then Some (VInt (Z.of_nat (length l)))
      else Some VUndefined
  | VStr s =>
      if String.eqb k "length" then Some (VInt (Z.of_nat (String.length s)))
      else Some VUndefined
  | _ => Some VUndefined
  end.

(** ** [Array.prototype.sort] on strings

    The default comparison orders strings by their code units. *)

Definition str_leb (a b : string) : bool := String.leb a b.

Fixpoint sort_insert (x : string) (l : list string) : list string :=
  match l with
  | [] => [x]
  | y :: r => if str_leb x y then x :: l else y :: sort_insert x r
  end.

Fixpoint sort_strings (l : list string) : list string :=
  match l with
  | [] => []
  | x :: r => sort_insert x (sort_strings r)
  end.

(** ** [JSON.stringify] *)

Definition hex_char (d : N) : ascii :=
  if (d <? 10)%N then ascii_of_N (48 + d) else ascii_of_N (87 + d).

(** The escape of one code unit inside a JSON string. *)
Definition escape_char (c : ascii) : string :=
  let n := code c in
  if (n =? 34)%N then String backslash (String dquote EmptyString)
  else if (n =? 92)%N then String backslash (String backslash EmptyString)
  else if (n =? 8)%N then String backslash "b"
  else if (n =? 12)%N then String backslash "f"
  else if (n =? 10)%N then String backslash "n"
  else if (n =? 13)%N then String backslash "r"
  else if (n =? 9)%N then String backslash "t"
  else if (n <? 32)%N then
    String backslash
      ("u00" +++ String (hex_char (n / 16)) (String (hex_char (n mod 16))
                                                EmptyString))
  else String c EmptyString.

Fixpoint escape_string (s : string) : string :=
  match s with
  | EmptyString => EmptyString
  | String c r => escape_char c +++ escape_string r
  end.

Definition quote (s : string) : string :=
  String dquote (escape_string s +++ String dquote EmptyString).

Fixpoint join (sep : string) (l : list string) : string :=
  match l with
  | [] => EmptyString
  | [x] => x
  | x :: r => x +++ sep +++ join sep r
  end.

Definition is_finite (n : number) : bool :=
  match n with Fin _ _ => true | _ => false end.

(** [SerializeJSONProperty]: [None] is [undefined] (the property is left
    out of an object, and is [null] in an array). *)
Fixpoint serialize (v : value) : option string :=
  match v with
  | VUndefined => None
  | VNull => Some "null"
  | VBool true => Some "true"
  | VBool false => Some "false"
  | VNum n => Some (if is_finite n then number_to_string n else "null")
  | VStr s => Some (quote s)
  | VArr l =>
      Some ("[" +++ join ","
                  (map (fun x => match serialize x with
                                 | Some t => t
                                 | None => "null"
                                 end) l)
            +++ "]")
  | VObj o =>
      Some ("{" +++ join ","
                  (flat_map (fun kv => match serialize (snd kv) with
                                       | Some t => [quote (fst kv) +++ ":" +++ t]
                                       | None => []
                                       end) o)
            +++ "}")
  end.

Definition JSON_stringify (v : value) : option string := serialize v.

(** ** [JSON.parse] *)

Definition is_ws (c : ascii) : bool :=
  let n := code c in
  ((n =? 32) || (n =? 9) || (n =? 10) || (n =? 13))%N.

Fixpoint skip_ws (s : string) : string :=
  match s with
  | EmptyString => EmptyString
  | String c r => if is_ws c then skip_ws r else s
  end.

Definition hex_val (c : ascii) : option N :=
  let n := code c in
  if ((48 <=? n) && (n <=? 57))%N then Some (n - 48)%N
  else if ((97 <=? n) && (n <=? 102))%N then Some (n - 87)%N
  else if ((65 <=? n) && (n <=? 70))%N then Some (n - 55)%N
  else None.

Definition hex4 (a b c d : ascii) : option N :=
  match hex_val a, hex_val b, hex_val c, hex_val d with
  | Some x, Some y, Some z, Some w =>
      Some (((x * 16 + y) * 16 + z) * 16 + w)%N
  | _, _, _, _ => None
  end.

(** The code unit an escape letter stands for. *)
Definition unescape (e : ascii) : option ascii :=
  let n := code e in
  if (n =? 34)%N then Some dquote
  else if (n =? 92)%N then Some backslash
  else if (n =? 47)%N then Some (ascii_of_N 47)
  else if (n =? 98)%N then Some (ascii_of_N 8)
  else if (n =? 102)%N then Some (ascii_of_N 12)
  else if (n =? 110)%N then Some (ascii_of_N 10)
  else if (n =? 114)%N then Some (ascii_of_N 13)
  else if (n =? 116)%N then Some (ascii_of_N 9)
  else None.

Definition cons_char (c : ascii) (r : option (string * string))
  : option (string * string) :=
  match r with
  | Some (s, rest) => Some (String c s, rest)
  | None => None
  end.

(** The characters of a string literal after its opening quote, up to the
    closing quote, and what follows.  An escape [\uXXXX] of a code unit
    above 255 is outside the modelled strings and is refused. *)
Fixpoint parse_chars (s : string) : option (string * string) :=
  match s with
  | EmptyString => None
  | String c r =>
      if (code c =? 34)%N then Some (EmptyString, r)
      else if (code c =? 92)%N then
        match r with
        | EmptyString => None
        | String e r' =>
            if (code e =? 117)%N then
              match r' with
              | String h1 (String h2 (String h3 (String h4 r''))) =>
                  match hex4 h1 h2 h3 h4 with
                  | Some n =>
                      if (n <? 256)%N
                      then cons_char (ascii_of_N n) (parse_chars r'')
                      else None
                  | None => None
                  end
              | _ => None
              end
            else
              match unescape e with
              | Some x => cons_char x (parse_chars r')
              | None => None
              end
        end
      else if (code c <? 32)%N then None
      else cons_char c (parse_chars r)
  end.

(** The number a literal denotes: [mant * 10^(exp - fraclen)]. *)
Definition make_number (neg : bool) (mant : N) (fraclen : nat) (exp : Z)
  : number :=
  let e := exp - Z.of_nat fraclen in
  let n := if 0 <=? e then Fin (Z.of_N mant * 10 ^ e) 0
           else norm (Z.of_N mant) (Z.to_nat (- e)) in
  if neg then num_neg n else n.

Definition parse_frac (s : string) : option (list N * string) :=
  match s with
  | String c r =>
      if (code c =? 46)%N then
        match read_digits r with
        | ([], _) => None
        | (fp, r') => Some (fp, r')
        end
      else Some ([], s)
  | EmptyString => Some ([], s)
  end.

Definition parse_exp_digits (neg : bool) (s : string) : option (Z * string) :=
  match read_digits s with
  | ([], _) => None
  | (ep, r) =>
      let e := Z.of_N (digits_val ep) in
      Some (if neg then - e else e, r)
  end.

Definition parse_exp (s : string) : option (Z * string) :=
  match s with
  | String c r =>
      if ((code c =? 101) || (code c =? 69))%N then
        match r with
        | String sg r' =>
            if (code sg =? 43)%N then parse_exp_digits false r'
            else if (code sg =? 45)%N then parse_exp_digits true r'
            else parse_exp_digits false r
        | EmptyString => None
        end
      else Some (0, s)
  | EmptyString => Some (0, s)
  end.

(** A number literal read after its optional minus sign. *)
Definition parse_unsigned (neg : bool) (s : string) : option (number * string) :=
  match read_digits s with
  | ([], _) => None
  | (d :: ds, s2) =>
      if ((d =? 0)%N && negb (Nat.eqb (length ds) 0))%bool then None
      else
        match parse_frac s2 with
        | None => None
        | Some (fp, s3) =>
            match parse_exp s3 with
            | None => None
            | Some (e, s4) =>
                Some (make_number neg (digits_val ((d :: ds) ++ fp))
                                  (length fp) e, s4)
            end
        end
  end.

Definition parse_number (s : string) : option (number * string) :=
  match s with
  | String c r =>
      if (code c =? 45)%N then parse_unsigned true r
      else parse_unsigned false s
  | EmptyString => None
  end.

(** [Some r] when [s] is [lit] followed by [r]. *)
Fixpoint strip_prefix (lit s : string) : option string :=
  match lit, s with
  | EmptyString, _ => Some s
  | String a l, String b r =>
      if Ascii.eqb a b then strip_prefix l r else None
  | String _ _, EmptyString => None
  end.

Section Loops.

(** The parser of one value, applied to the elements of an array and to
    the members of an object. *)
Variable pv : string -> option (value * string).

(** The elements of a non-empty array and what follows its bracket;
    [n] bounds their number. *)
Fixpoint parse_elems (n : nat) (s : string) : option (list value * string) :=
  match n with
  | O => None
  | S n' =>
      match pv s with
      | None => None
      | Some (v, r) =>
          match skip_ws r with
          | EmptyString => None
          | String c r' =>
              if (code c =? 44)%N then
                match parse_elems n' r' with
                | Some (vs, r'') => Some (v :: vs, r'')
                | None => None
                end
              else if (code c =? 93)%N then Some ([v], r')
              else None
          end
      end
  end.

(** The members of a non-empty object, in the order of the text. *)
Fixpoint parse_members (n : nat) (s : string)
  : option (list (string * value) * string) :=
  match n with
  | O => None
  | S n' =>
      match skip_ws s with
      | EmptyString => None
      | String q r0 =>
          if (code q =? 34)%N then
            match parse_chars r0 with
            | None => None
            | Some (k, r1) =>
                match skip_ws r1 with
                | EmptyString => None
                | String c r2 =>
                    if (code c =? 58)%N then
                      match pv r2 with
                      | None => None
                      | Some (v, r3) =>
                          match skip_ws r3 with
                          | EmptyString => None
                          | String d r4 =>
                              if (code d =? 44)%N then
                                match parse_members n' r4 with
                                | Some (ms, r5) => Some ((k, v) :: ms, r5)
                                | None => None
                                end
                              else if (code d =? 125)%N
                                   then Some ([(k, v)], r4)
                                   else None
                          end
                      end
                    else None
                end
            end
          else None
      end
  end.

End Loops.

Definition parse_literal (c : ascii) (s : string) : option (value * string) :=
  if (code c =? 116)%N then
    match strip_prefix "true" s with
    | Some r => Some (VBool true, r)
    | None => None
    end
  else if (code c =? 102)%N then
    match strip_prefix "false" s with
    | Some r => Some (VBool false, r)
    | None => None
    end
  else if (code c =? 110)%N then
    match strip_prefix "null" s with
    | Some r => Some (VNull, r)
    | None => None
    end
  else
    match parse_number s with
    | Some (n, r) => Some (VNum n, r)
    | None => None
    end.

(** One JSON value and what follows it; [fuel] bounds the nesting depth,
    and the length of the text bounds the number of elements of an array
    or members of an object.  The members of an object are assigned in
    the order of the text, so a repeated name keeps its first position
    and its last value. *)
Fixpoint parse_value (fuel : nat) (s : string) : option (value * string) :=
  match fuel with
  | O => None
  | S f =>
      match skip_ws s with
      | EmptyString => None
      | String c r =>
          if (code c =? 91)%N then
            match skip_ws r with
            | EmptyString => None
            | String c' r' =>
                if (code c' =? 93)%N then Some (VArr [], r')
                else
                  match parse_elems (parse_value f) (S (String.length r)) r with
                  | Some (vs, r'') => Some (VArr vs, r'')
                  | None => None
                  end
            end
          else if (code c =? 123)%N then
            match skip_ws r with
            | EmptyString => None
            | String c' r' =>
                if (code c' =? 125)%N then Some (VObj [], r')
                else
                  match parse_members (parse_value f) (S (String.length r)) r with
                  | Some (ms, r'') => Some (VObj (obj_of_list ms), r'')
                  | None => None
                  end
            end
          else if (code c =? 34)%N then
            match parse_chars r with
            | Some (t, r') => Some (VStr t, r')
            | None => None
            end
          else parse_literal c (String c r)
      end
  end.

(** [JSON.parse(s)]: [None] is a [SyntaxError].  A text is never nested
    deeper than it is long. *)
Definition JSON_parse (s : string) : option value :=
  match parse_value (S (String.length s)) s with
  | Some (v, r) =>
      match skip_ws r with
      | EmptyString => Some v
      | String _ _ => None
      end
  | None => None
  end.


(** ** [ToString], [parseInt] and [String.prototype.includes] *)

(** [ToString]; an element of an array that is [null] or [undefined] is
    the empty string in the joined text. *)
Fixpoint to_string (v : value) : string :=
  match v with
  | VUndefined => "undefined"
  | VNull => "null"
  | VBool true => "true"
  | VBool false => "false"
  | VNum n => number_to_string n
  | VStr s => s
  | VArr l =>
      join "," (map (fun x => match x with
                              | VUndefined | VNull => EmptyString
                              | _ => to_string x
                              end) l)
  | VObj _ => "[object Object]"
  end.

(** White space [parseInt] skips, among the code units below 256. *)
Definition is_str_ws (c : ascii) : bool :=
  let n := code c in
  (((9 <=? n) && (n <=? 13)) || (n =? 32) || (n =? 160))%N.

Fixpoint skip_str_ws (s : string) : string :=
  match s with
  | EmptyString => EmptyString
  | String c r => if is_str_ws c then skip_str_ws r else s
  end.

(** [parseInt(v, 10)]: the integer spelled by the longest prefix of decimal
    digits of [ToString(v)], after white space and a sign. *)
Definition parseInt (v : value) : number :=
  let s := skip_str_ws (to_string v) in
  let (neg, s1) :=
    match s with
    | String c r =>
        if (code c =? 45)%N then (true, r)
        else if (code c =? 43)%N then (false, r)
        else (false, s)
    | EmptyString => (false, s)
    end in
  match read_digits s1 with
  | ([], _) => NaN
  | (ds, _) =>
      let z := Z.of_N (digits_val ds) in
      Int (if neg then - z else z)
  end.

(** [s.includes(t)] *)
Fixpoint includes (s t : string) : bool :=
  if String.prefix t s then true
  else match s with
       | EmptyString => false
       | String _ r => includes r t
       end.

(** ** Exceptions and results *)

Inductive exn : Type :=
| Error (message : string)
| TypeError
| SyntaxError
| Reason (r : value).

Inductive level : Type := LOG | WARN | ERROR.

(** * The program *)

(** ** [RequestQueue]

    The queue is driven by three kinds of events: a caller calls [add], the
    operation a suspended [process] awaits settles, and a timer set by
    [process] fires.  Tasks are named by the rank of their submission. *)

Module RequestQueue.

Inductive outcome : Type :=
| Resolved (result : value)
| Rejected (err : exn).

(** An entry [{ requestFn, resolve, reject }] of [this.queue].  [throws]
    is the exception [requestFn()] raises at once, if any; otherwise it
    returns a value or a promise that [process] awaits. *)
Record task : Type := mkTask {
  task_id : nat;
  throws : option exn
}.

Inductive obs : Type :=
| Started (id : nat) (t : Z)
| Settled (id : nat) (o : outcome) (t : Z).

Record t : Type := mk {
  queue : list task;
  delay : Z;
  isProcessing : bool;
  (** [this.plugin.settings.showLoadingIcon] *)
  showLoadingIcon : bool;
  (** [style.display] of the element [zoro-global-loader], taken to
      exist, is ['block'] *)
  loader : bool;
  (** tasks whose [process] is suspended at [await requestFn()] *)
  awaiting : list nat;
  (** deadlines of the timers set and not fired yet *)
  timers : list Z;
  (** the promises [add] returned that are settled, latest first *)
  settled : list (nat * outcome);
  (** the number of calls to [add] *)
  submitted : nat;
  clock : Z;
  (** what happened, latest first *)
  history : list obs
}.

(** [new RequestQueue(plugin)] at time [t0] *)
Definition constructor (icon : bool) (t0 : Z) : t :=
  {| queue := []; delay := 700; isProcessing := false;
     showLoadingIcon := icon; loader := false;
     awaiting := []; timers := []; settled := []; submitted := 0;
     clock := t0; history := [] |}.

Definition showGlobalLoader (s : t) : t :=
  if negb (showLoadingIcon s) then s
  else mk (queue s) (delay s) (isProcessing s) (showLoadingIcon s) true
          (awaiting s) (timers s) (settled s) (submitted s) (clock s)
          (history s).

Definition hideGlobalLoader (s : t) : t :=
  mk (queue s) (delay s) (isProcessing s) (showLoadingIcon s) false
     (awaiting s) (timers s) (settled s) (submitted s) (clock s)
     (history s).

(** The end of [process] for task [id]: [resolve(result)] or
    [reject(err)], then the [finally] block sets the timer. *)
Definition finish (id : nat) (o : outcome) (s : t) : t :=
  mk (queue s) (delay s) (isProcessing s) (showLoadingIcon s) (loader s)
     (awaiting s) ((clock s + delay s) :: timers s)
     ((id, o) :: settled s) (submitted s) (clock s)
     (Settled id o (clock s) :: history s).

(** [process()] up to its [await], and beyond it when [requestFn()]
    throws. *)
Definition process (s : t) : t :=
  if (isProcessing s || Nat.eqb (length (queue s)) 0)%bool then
    if Nat.eqb (length (queue s)) 0 then hideGlobalLoader s else s
  else
    let s1 := mk (queue s) (delay s) true (showLoadingIcon s) (loader s)
                 (awaiting s) (timers s) (settled s) (submitted s)
                 (clock s) (history s) in
    let s2 := if Nat.eqb (length (queue s1)) 1 then showGlobalLoader s1
              else s1 in
    match queue s2 with
    | [] => s2
    | tk :: rest =>
        let s3 := mk rest (delay s2) (isProcessing s2) (showLoadingIcon s2)
                     (loader s2) (awaiting s2) (timers s2) (settled s2)
                     (submitted s2) (clock s2)
                     (Started (task_id tk) (clock s2) :: history s2) in
        match throws tk with
        | Some err => finish (task_id tk) (Rejected err) s3
        | None =>
            mk (queue s3) (delay s3) (isProcessing s3) (showLoadingIcon s3)
               (loader s3) (task_id tk :: awaiting s3) (timers s3)
               (settled s3) (submitted s3) (clock s3) (history s3)
        end
    end.

(** [add(requestFn)]: the task is pushed and [process] is called. *)
Definition add (thr : option exn) (s : t) : t :=
  process
    (mk (queue s ++ [mkTask (submitted s) thr]) (delay s) (isProcessing s)
        (showLoadingIcon s) (loader s) (awaiting s) (timers s) (settled s)
        (S (submitted s)) (clock s) (history s)).

(** The callback of [setTimeout]. *)
Definition on_timeout (s : t) : t :=
  process
    (mk (queue s) (delay s) false (showLoadingIcon s) (loader s)
        (awaiting s) (timers s) (settled s) (submitted s) (clock s)
        (history s)).

Definition tick (now : Z) (s : t) : t :=
  mk (queue s) (delay s) (isProcessing s) (showLoadingIcon s) (loader s)
     (awaiting s) (timers s) (settled s) (submitted s) now (history s).

Fixpoint remove_nat (x : nat) (l : list nat) : list nat :=
  match l with
  | [] => []
  | y :: r => if Nat.eqb x y then r else y :: remove_nat x r
  end.

Fixpoint remove_Z (x : Z) (l : list Z) : list Z :=
  match l with
  | [] => []
  | y :: r => if Z.eqb x y then r else y :: remove_Z x r
  end.

Definition mem_nat (x : nat) (l : list nat) : bool :=
  existsb (Nat.eqb x) l.

Definition mem_Z (x : Z) (l : list Z) : bool :=
  existsb (Z.eqb x) l.

Inductive event : Type :=
| Add (thr : option exn) (now : Z)
| Settle (id : nat) (o : outcome) (now : Z)
| Timeout (deadline : Z) (now : Z).

Definition event_time (e : event) : Z :=
  match e with
  | Add _ now | Settle _ _ now | Timeout _ now => now
  end.

(** One turn of the event loop; [None] when the event cannot happen in
    [s]: time does not run backwards, only an awaited operation settles,
    and a timer fires no earlier than its deadline. *)
Definition step (s : t) (e : event) : option t :=
  if event_time e <? clock s then None
  else
    match e with
    | Add thr now => Some (add thr (tick now s))
    | Settle id o now =>
        if mem_nat id (awaiting s) then
          let s1 := tick now s in
          Some (finish id o
                  (mk (queue s1) (delay s1) (isProcessing s1)
                      (showLoadingIcon s1) (loader s1)
                      (remove_nat id (awaiting s1)) (timers s1)
                      (settled s1) (submitted s1) (clock s1) (history s1)))
        else None
    | Timeout d now =>
        if (mem_Z d (timers s) && (d <=? now))%bool then
          let s1 := tick now s in
          Some (on_timeout
                  (mk (queue s1) (delay s1) (isProcessing s1)
                      (showLoadingIcon s1) (loader s1) (awaiting s1)
                      (remove_Z d (timers s1)) (settled s1) (submitted s1)
                      (clock s1) (history s1)))
        else None
    end.

Fixpoint run (s : t) (evs : list event) : option t :=
  match evs with
  | [] => Some s
  | e :: r =>
      match step s e with
      | Some s' => run s' r
      | None => None
      end
  end.

(** The history in the order of time. *)
Definition chronicle (s : t) : list obs := rev (history s).

Definition is_start (e : obs) : bool :=
  match e with Started _ _ => true | Settled _ _ _ => false end.

Definition obs_id (e : obs) : nat :=
  match e with Started id _ | Settled id _ _ => id end.

(** The ranks of the tasks started, in the order of their start. *)
Definition started_ids (s : t) : list nat :=
  map obs_id (filter is_start (chronicle s)).

Definition obs_time (e : obs) : Z :=
  match e with Started _ t | Settled _ _ t => t end.

(** [this.delay = d] *)
Definition configure (d : Z) (s : t) : t :=
  mk (queue s) d (isProcessing s) (showLoadingIcon s) (loader s)
     (awaiting s) (timers s) (settled s) (submitted s) (clock s)
     (history s).

(** *** What is claimed of a chronicle *)

(** Between the starts of two operations, the one started first has
    settled. *)
Definition settles_between (h : list obs) : Prop :=
  forall h1 i ti h2 j tj h3,
    h = h1 ++ Started i ti :: h2 ++ Started j tj :: h3 ->
    exists o t, In (Settled i o t) h2.

(** An operation that starts after another has settled starts at least
    [d] later. *)
Definition spaced (d : Z) (h : list obs) : Prop :=
  forall h1 i o t h2 j tj h3,
    h = h1 ++ Settled i o t :: h2 ++ Started j tj :: h3 ->
    t + d <= tj.

(** The exceptions given to [add], call after call. *)
Fixpoint submissions (evs : list event) : list (option exn) :=
  match evs with
  | [] => []
  | Add thr _ :: r => thr :: submissions r
  | _ :: r => submissions r
  end.

(** [o] is an outcome of the operation of task [id] itself: the one its
    awaited promise settled with, or the exception its [requestFn]
    threw. *)
Definition own_outcome (evs : list event) (id : nat) (o : outcome) : Prop :=
  (exists t, In (Settle id o t) evs)
  \/ (exists e, nth_error (submissions evs) id = Some (Some e)
                /\ o = Rejected e).

(** The outcome of task [id] when its operation, if it does not throw at
    once, settles with [choice id]. *)
Definition pending_outcome (evs : list event) (choice : nat -> outcome)
    (id : nat) : outcome :=
  match nth_error (submissions evs) id with
  | Some (Some e) => Rejected e
  | _ => choice id
  end.

(** *** The invariant of the queue *)

(** [hist d b n h]: [h], latest first, is the history of tasks [0]
    to [n - 1] started and settled one after the other, followed by the
    start of task [n] when [b] holds. *)
Inductive hist (d : Z) : bool -> nat -> list obs -> Prop :=
| hist_nil : hist d false 0 []
| hist_start n h ts :
    hist d false n h ->
    (forall e, In e h -> obs_time e <= ts) ->
    (forall i o t, In (Settled i o t) h -> t + d <= ts) ->
    hist d true n (Started n ts :: h)
| hist_settle n h o te :
    hist d true n h ->
    (forall e, In e h -> obs_time e <= te) ->
    hist d false (S n) (Settled n o te :: h).

Definition settled_of (h : list obs) : list (nat * outcome) :=
  flat_map (fun e => match e with
                     | Settled i o _ => [(i, o)]
                     | Started _ _ => []
                     end) h.

(** The state as [process] finds it when it may start a task. *)
Record ready (d : Z) (n : nat) (s : t) : Prop := mkReady {
  r_delay : delay s = d;
  r_processing : isProcessing s = false;
  r_awaiting : awaiting s = [];
  r_timers : timers s = [];
  r_hist : hist d false n (history s);
  r_queue : map task_id (queue s) = seq n (submitted s - n);
  r_le : (n <= submitted s)%nat;
  r_times : forall e, In e (history s) -> obs_time e <= clock s;
  r_gap : forall i o t, In (Settled i o t) (history s) -> t + d <= clock s;
  r_settled : settled s = settled_of (history s)
}.

(** Task [n] is in flight. *)
Record running (d : Z) (n : nat) (s : t) : Prop := mkRunning {
  u_delay : delay s = d;
  u_processing : isProcessing s = true;
  u_awaiting : awaiting s = [n];
  u_timers : timers s = [];
  u_hist : hist d true n (history s);
  u_queue : map task_id (queue s) = seq (S n) (submitted s - S n);
  u_le : (S n <= submitted s)%nat;
  u_times : forall e, In e (history s) -> obs_time e <= clock s;
  u_settled : settled s = settled_of (history s)
}.

(** Task [n] has settled at [te] and the timer is set. *)
Record waiting (d : Z) (n : nat) (s : t) : Prop := mkWaiting {
  w_delay : delay s = d;
  w_processing : isProcessing s = true;
  w_awaiting : awaiting s = [];
  w_hist : hist d false (S n) (history s);
  w_timer : exists o te h, history s = Settled n o te :: h
                           /\ timers s = [te + d];
  w_queue : map task_id (queue s) = seq (S n) (submitted s - S n);
  w_le : (S n <= submitted s)%nat;
  w_times : forall e, In e (history s) -> obs_time e <= clock s;
  w_settled : settled s = settled_of (history s)
}.

Inductive inv (d : Z) (s : t) : Prop :=
| inv_idle n : ready d n s -> queue s = [] -> inv d s
| inv_running n : running d n s -> inv d s
| inv_waiting n : waiting d n s -> inv d s.

(** How a state reached by the events [evs] keeps track of them. *)
Record linked (evs : list event) (s : t) : Prop := mkLinked {
  l_count : length (submissions evs) = submitted s;
  l_queue : forall tk, In tk (queue s) ->
              nth_error (submissions evs) (task_id tk) = Some (throws tk);
  l_awaiting : forall id, In id (awaiting s) ->
                 nth_error (submissions evs) id = Some None;
  l_settled : forall id o, In (id, o) (settled s) -> own_outcome evs id o;
  l_delivered : forall id o t, In (Settle id o t) evs ->
                  In (id, o) (settled s)
}.

(** The outcome of a queued task whose operation, if it does not throw
    at once, settles with [choice]. *)
Definition task_outcome (choice : nat -> outcome) (tk : task) : outcome :=
  match throws tk with
  | Some e => Rejected e
  | None => choice (task_id tk)
  end.

End RequestQueue.

(** ** [Map] with string keys

    The entries in the order of insertion: [set] on a present key keeps its
    place, [set] on a new key appends. *)

Module JsMap.

Definition t (V : Type) : Type := list (string * V).

Section Ops.
Context {V : Type}.

Fixpoint get (m : t V) (k : string) : option V :=
  match m with
  | [] => None
  | (k', v) :: r => if String.eqb k' k then Some v else get r k
  end.

Definition has (m : t V) (k : string) : bool :=
  match get m k with Some _ => true | None => false end.

Fixpoint update (m : t V) (k : string) (v : V) : t V :=
  match m with
  | [] => []
  | (k', v') :: r =>
      if String.eqb k' k then (k', v) :: r else (k', v') :: update r k v
  end.

Definition set (m : t V) (k : string) (v : V) : t V :=
  if has m k then update m k v else m ++ [(k, v)].

Fixpoint delete (m : t V) (k : string) : t V :=
  match m with
  | [] => []
  | (k', v') :: r =>
      if String.eqb k' k then r else (k', v') :: delete r k
  end.

Definition keys (m : t V) : list string := map fst m.

Definition size (m : t V) : nat := length m.

Definition clear (m : t V) : t V := [].

(** No key occurs twice: what every map built with [set] satisfies. *)
Definition wf (m : t V) : Prop := NoDup (keys m).

End Ops.

End JsMap.

(** ** [Api.createCacheKey] *)

Definition createCacheKey (config : object) : string :=
  let sortedConfig :=
    fold_left (fun acc key => obj_set acc key (obj_get config key))
              (sort_strings (obj_keys config)) [] in
  match JSON_stringify (VObj sortedConfig) with
  | Some s => s
  | None => EmptyString (* never: an object has a JSON text *)
  end.

(** ** The plugin: caches, storage and console *)

Record entry : Type := mkEntry {
  entry_value : value;
  entry_timestamp : number
}.

Inductive category : Type := UserData | MediaData | SearchResults.

Record Cache : Type := mkCache {
  userData : JsMap.t entry;
  mediaData : JsMap.t entry;
  searchResults : JsMap.t entry
}.

Definition cache_map (c : Cache) (cat : category) : JsMap.t entry :=
  match cat with
  | UserData => userData c
  | MediaData => mediaData c
  | SearchResults => searchResults c
  end.

Definition with_map (c : Cache) (cat : category) (m : JsMap.t entry) : Cache :=
  match cat with
  | UserData => mkCache m (mediaData c) (searchResults c)
  | MediaData => mkCache (userData c) m (searchResults c)
  | SearchResults => mkCache (userData c) (mediaData c) m
  end.

Definition empty_cache : Cache := mkCache [] [] [].

Definition category_name (cat : category) : string :=
  match cat with
  | UserData => "userData"
  | MediaData => "mediaData"
  | SearchResults => "searchResults"
  end.

(** What [this.cache[type]] is: one of the three maps, a member inherited
    from [Object.prototype] (truthy, and not a map), or [undefined]. *)
Inductive slot : Type := Own (cat : category) | Inherited | Missing.

Definition object_prototype_names : list string :=
  [ "constructor"; "__proto__"; "hasOwnProperty"; "isPrototypeOf";
    "propertyIsEnumerable"; "toLocaleString"; "toString"; "valueOf";
    "__defineGetter__"; "__defineSetter__"; "__lookupGetter__";
    "__lookupSetter__" ].

Definition cache_slot (type : string) : slot :=
  if String.eqb type "userData" then Own UserData
  else if String.eqb type "mediaData" then Own MediaData
  else if String.eqb type "searchResults" then Own SearchResults
  else if existsb (String.eqb type) object_prototype_names then Inherited
  else Missing.

(** [ttlMap[type]] for the three categories, in milliseconds *)
Definition ttlMap (cat : category) : number :=
  match cat with
  | UserData => Int (30 * 60 * 1000)
  | MediaData => Int (10 * 60 * 1000)
  | SearchResults => Int (2 * 60 * 1000)
  end.

Record plugin : Type := mkPlugin {
  cache : Cache;
  cacheTimeout : number;
  (** [settings.accessToken] *)
  accessToken : string;
  (** the item ['zoro-cache'] of [localStorage] *)
  storage : option string;
  (** the lines written to the console, latest first *)
  console : list (level * string)
}.

(** The plugin as its constructor leaves it. *)
Definition new_plugin (token : string) (stored : option string) : plugin :=
  mkPlugin empty_cache (Int (4 * 60 * 1000)) token stored [].

(** *** Computations on the plugin that may throw *)

Inductive result (A : Type) : Type :=
| Ret (a : A)
| Throw (e : exn).

Arguments Ret {A} a.
Arguments Throw {A} e.

Definition M (A : Type) : Type := plugin -> result A * plugin.

Definition ret {A} (a : A) : M A := fun p => (Ret a, p).

Definition throw {A} (e : exn) : M A := fun p => (Throw e, p).

Definition bind {A B} (c : M A) (f : A -> M B) : M B :=
  fun p =>
    match c p with
    | (Ret a, p') => f a p'
    | (Throw e, p') => (Throw e, p')
    end.

Definition try_catch {A} (c : M A) (handler : exn -> M A) : M A :=
  fun p =>
    match c p with
    | (Ret a, p') => (Ret a, p')
    | (Throw e, p') => handler e p'
    end.

Notation "x <- c1 ;; c2" := (bind c1 (fun x => c2))
  (at level 61, c1 at next level, right associativity).
Notation "c1 ;;; c2" := (bind c1 (fun _ => c2))
  (at level 61, right associativity).

Definition get_cache : M Cache := fun p => (Ret (cache p), p).

Definition put_cache (c : Cache) : M unit :=
  fun p => (Ret tt, mkPlugin c (cacheTimeout p) (accessToken p) (storage p)
                             (console p)).

Definition put_storage (s : option string) : M unit :=
  fun p => (Ret tt, mkPlugin (cache p) (cacheTimeout p) (accessToken p) s
                             (console p)).

Definition write (l : level) (msg : string) : M unit :=
  fun p => (Ret tt, mkPlugin (cache p) (cacheTimeout p) (accessToken p)
                             (storage p) ((l, msg) :: console p)).

Definition nat_to_string (n : nat) : string :=
  string_of_digits (digits (N.of_nat n)).

Definition exn_text (e : exn) : string :=
  match e with
  | Error m => "Error: " +++ m
  | TypeError => "TypeError"
  | SyntaxError => "SyntaxError"
  | Reason r => to_string r
  end.

(** ** [ZoroPlugin.getFromCache] *)

Definition getFromCache (type key : string) (customTtl : option number)
    (now : Z) : M value :=
  match cache_slot type with
  | Missing =>
      write WARN ("[Zoro] Invalid cache type: " +++ type) ;;;
      ret VNull
  | Inherited => throw TypeError
  | Own cat =>
      c <- get_cache ;;
      match JsMap.get (cache_map c cat) key with
      | None => ret VNull
      | Some entry =>
          fun p =>
            let ttl := match customTtl with
                       | Some x => x
                       | None => cacheTimeout p
                       end in
            let age := num_sub (Int now) (entry_timestamp entry) in
            if num_gtb age ttl then
              (put_cache (with_map c cat (JsMap.delete (cache_map c cat) key)) ;;;
               write LOG ("[Zoro] Expired cache entry removed from " +++ type
                          +++ ": age=" +++ number_to_string age
                          +++ "ms, ttl=" +++ number_to_string ttl +++ "ms") ;;;
               ret VNull) p
            else ret (entry_value entry) p
      end
  end.

(** ** [ZoroPlugin.setToCache] *)

Definition setToCache (type key : string) (v : value) (now : Z) : M unit :=
  match cache_slot type with
  | Missing => write WARN ("[Zoro] Invalid cache type: " +++ type)
  | Inherited => throw TypeError
  | Own cat =>
      c <- get_cache ;;
      let m := JsMap.set (cache_map c cat) key (mkEntry v (Int now)) in
      put_cache (with_map c cat m) ;;;
      write LOG ("[Zoro] Cached data in " +++ type +++ ": "
                 +++ nat_to_string (JsMap.size m) +++ " total entries")
  end.

(** ** [ZoroPlugin.clearListCaches] *)

Definition clearListCaches : M unit :=
  c <- get_cache ;;
  let beforeCount := JsMap.size (userData c) in
  put_cache (with_map c UserData (JsMap.clear (userData c))) ;;;
  write LOG ("[Zoro] Cleared " +++ nat_to_string beforeCount
             +++ " user data cache entries").

(** ** [ZoroPlugin.clearCacheForMedia] *)

(** The body of the [try] in [prune] for one key: [Some true] when the key
    is to be deleted, [None] when [JSON.parse] or the access to a property
    of [null] throws. *)
Definition key_matches (exactKeys : list string) (id : number) (key : string)
  : option bool :=
  match JSON_parse key with
  | None => None
  | Some parsed =>
      match parsed with
      | VNull => match exactKeys with [] => Some false | _ :: _ => None end
      | _ =>
          Some (existsb (fun k => match get_prop parsed k with
                                  | Some x => strict_eq_num x id
                                  | None => false
                                  end) exactKeys)
      end
  end.

(** [prune(map, cacheType, exactKeys)]: the map left, the number of keys
    cleared and the lines logged, latest first.  The keys are visited in
    the order they had when the loop began. *)
Fixpoint prune_keys (exactKeys : list string) (id : number)
    (cacheType : string) (ks : list string) (m : JsMap.t entry)
  : JsMap.t entry * nat * list (level * string) :=
  match ks with
  | [] => (m, O, [])
  | key :: r =>
      match key_matches exactKeys id key with
      | Some true =>
          let '(m', n, logs) :=
            prune_keys exactKeys id cacheType r (JsMap.delete m key) in
          (m', S n,
           logs ++ [(LOG, "[Zoro] Cleared " +++ cacheType +++ " cache key: "
                          +++ String.substring 0 80 key +++ "...")])
      | _ => prune_keys exactKeys id cacheType r m
      end
  end.

Definition prune (cat : category) (exactKeys : list string) (id : number)
  : M nat :=
  c <- get_cache ;;
  let '(m, cleared, logs) :=
    prune_keys exactKeys id (category_name cat)
               (JsMap.keys (cache_map c cat)) (cache_map c cat) in
  put_cache (with_map c cat m) ;;;
  (fun p => (Ret cleared,
             mkPlugin (cache p) (cacheTimeout p) (accessToken p) (storage p)
                      (logs ++ console p))).

Definition clearCacheForMedia (mediaId : value) : M unit :=
  let id := parseInt mediaId in
  if negb (truthy (VNum id)) then
    write WARN ("[Zoro] Invalid mediaId for cache clearing: "
                +++ to_string mediaId)
  else
    n1 <- prune MediaData ["mediaId"] id ;;
    n2 <- prune UserData ["mediaId"] id ;;
    n3 <- prune SearchResults ["mediaId"] id ;;
    write LOG ("[Zoro] Cleared " +++ nat_to_string (n1 + n2 + n3)
               +++ " cache entries for media " +++ number_to_string id) ;;;
    clearListCaches.

(** ** [ZoroPlugin.saveCacheToStorage] *)

Definition entry_to_value (e : entry) : value :=
  VObj [("value", entry_value e); ("timestamp", VNum (entry_timestamp e))].

(** [Array.from(map.entries())] *)
Definition entries_to_value (m : JsMap.t entry) : value :=
  VArr (map (fun kv => VArr [VStr (fst kv); entry_to_value (snd kv)]) m).

Definition categories : list category := [UserData; MediaData; SearchResults].

(** The object [cacheData] the loop over [Object.entries(this.cache)]
    builds. *)
Definition cacheData_of (c : Cache) : object :=
  fold_left (fun acc cat =>
               obj_set acc (category_name cat)
                       (entries_to_value (cache_map c cat)))
            categories [].

(** [localStorage.setItem] is taken to succeed. *)
Definition saveCacheToStorage : M unit :=
  try_catch
    (c <- get_cache ;;
     let cacheData := cacheData_of c in
     let totalEntries :=
       fold_left (fun n cat => (n + JsMap.size (cache_map c cat))%nat)
                 categories O in
     put_storage (JSON_stringify (VObj cacheData)) ;;;
     write LOG ("[Zoro] Saved " +++ nat_to_string totalEntries
                +++ " cache entries to storage"))
    (fun e =>
       write WARN ("[Zoro] Failed to save cache to storage: " +++ exn_text e)).

(** ** [ZoroPlugin.loadCacheFromStorage] *)

(** The pattern [[key, value]] applied to an element of [entries]: [None]
    when the element is not iterable. *)
Definition destructure_pair (e : value) : option (value * value) :=
  match e with
  | VArr l => Some (nth 0 l VUndefined, nth 1 l VUndefined)
  | VStr s =>
      let at_ i := match String.get i s with
                   | Some c => VStr (String c EmptyString)
                   | None => VUndefined
                   end in
      Some (at_ O, at_ 1%nat)
  | _ => None
  end.

(** The callback of [entries.forEach]; the state is the pair of
    [loadedCount] and [expiredCount].  An entry whose key is not a string is
    left out: the maps of the model hold the keys the program itself
    writes, which are strings.  Of the object stored, the model keeps the
    two properties the program reads, [value] and [timestamp]. *)
Definition load_entry (sl : slot) (now : Z) (counts : nat * nat) (e : value)
  : M (nat * nat) :=
  match destructure_pair e with
  | None => throw TypeError
  | Some (key, v) =>
      if truthy v then
        match get_prop v "timestamp" with
        | Some (VNum ts) =>
            let age := num_sub (Int now) ts in
            match sl with
            | Own cat =>
                if num_ltb age (ttlMap cat) then
                  match key with
                  | VStr k =>
                      c <- get_cache ;;
                      put_cache
                        (with_map c cat
                           (JsMap.set (cache_map c cat) k
                              (mkEntry (match get_prop v "value" with
                                        | Some x => x
                                        | None => VUndefined
                                        end) ts))) ;;;
                      ret (S (fst counts), snd counts)
                  | _ => ret (S (fst counts), snd counts)
                  end
                else ret (fst counts, S (snd counts))
            | _ => ret (fst counts, S (snd counts))
            end
        | _ => ret counts
        end
      else ret counts
  end.

Fixpoint forEach {A S : Type} (f : S -> A -> M S) (l : list A) (s : S) : M S :=
  match l with
  | [] => ret s
  | x :: r => s' <- f s x ;; forEach f r s'
  end.

(** The body of the loop over [Object.entries(cacheData)] for one pair. *)
Definition load_category (now : Z) (counts : nat * nat)
    (kv : string * value) : M (nat * nat) :=
  match cache_slot (fst kv), snd kv with
  | Missing, _ => ret counts
  | sl, VArr entries => forEach (load_entry sl now) entries counts
  | _, _ => ret counts
  end.

(** [Object.entries(cacheData)]: [null] throws; an array, a string, a
    number or a boolean has no property named after a cache. *)
Definition load_all (now : Z) (cacheData : value) : M (nat * nat) :=
  match cacheData with
  | VNull | VUndefined => throw TypeError
  | VObj o => forEach (load_category now) o (O, O)
  | _ => ret (O, O)
  end.

Definition loadCacheFromStorage (now : Z) : M unit :=
  try_catch
    (fun p =>
       match storage p with
       | None | Some EmptyString =>
           write LOG "[Zoro] No cached data found in storage" p
       | Some saved =>
           match JSON_parse saved with
           | None => throw SyntaxError p
           | Some cacheData =>
               (counts <- load_all now cacheData ;;
                write LOG ("[Zoro] Loaded " +++ nat_to_string (fst counts)
                           +++ " cached items from storage ("
                           +++ nat_to_string (snd counts) +++ " expired)")) p
           end
       end)
    (fun e =>
       write WARN ("[Zoro] Failed to load cache from storage: " +++ exn_text e) ;;;
       put_storage None).

(** ** [Api.fetchZoroData] *)

Fixpoint trim_end (s : string) : string :=
  match s with
  | EmptyString => EmptyString
  | String c r =>
      match trim_end r with
      | EmptyString => if is_str_ws c then EmptyString
                       else String c EmptyString
      | r' => String c r'
      end
  end.

(** A fraction part whose digits may be missing, as in [5.]. *)
Definition parse_frac_opt (s : string) : option (list N * string) :=
  match s with
  | String c r =>
      if (code c =? 46)%N then Some (read_digits r) else Some ([], s)
  | EmptyString => Some ([], s)
  end.

(** [StringToNumber] for decimal literals; the hexadecimal, octal and binary
    spellings are not modelled and read as [NaN]. *)
Definition string_to_number (s : string) : number :=
  let s0 := trim_end (skip_str_ws s) in
  match s0 with
  | EmptyString => Int 0
  | String c r =>
      let (neg, s1) :=
        if (code c =? 45)%N then (true, r)
        else if (code c =? 43)%N then (false, r)
        else (false, s0) in
      if String.eqb s1 "Infinity" then (if neg then NegInf else PosInf)
      else
        let (ip, s2) := read_digits s1 in
        match parse_frac_opt s2 with
        | None => NaN
        | Some (fp, s3) =>
            if (Nat.eqb (length ip) 0 && Nat.eqb (length fp) 0)%bool then NaN
            else
              match parse_exp s3 with
              | Some (e, EmptyString) =>
                  make_number neg (digits_val (ip ++ fp)) (length fp) e
              | _ => NaN
              end
        end
  end.

(** [ToNumber] *)
Definition to_number (v : value) : number :=
  match v with
  | VUndefined => NaN
  | VNull => Int 0
  | VBool true => Int 1
  | VBool false => Int 0
  | VNum n => n
  | VStr s => string_to_number s
  | VArr _ | VObj _ => string_to_number (to_string v)
  end.

(** [a || b] *)
Definition js_or (a b : value) : value := if truthy a then a else b.

(** [a || b] on numbers *)
Definition num_or (a b : number) : number := if truthy (VNum a) then a else b.

(** [v[0]] *)
Definition get_first (v : value) : option value :=
  match v with
  | VUndefined | VNull => None
  | VArr l => Some (nth 0 l VUndefined)
  | VStr s =>
      match s with
      | String c _ => Some (VStr (String c EmptyString))
      | EmptyString => Some VUndefined
      end
  | VObj o => Some (obj_get o "0")
  | _ => Some VUndefined
  end.

(** [m?.includes(t)] as a condition: [None] when the call throws because
    [m] has no method [includes]. *)
Definition opt_includes (m : value) (t : string) : option bool :=
  match m with
  | VUndefined | VNull => Some false
  | VStr s => Some (includes s t)
  | VArr l => Some (existsb (fun x => strict_eq_str x t) l)
  | _ => None
  end.

(** What the awaited [requestQueue.add(...)] gives back. *)
Inductive reply : Type :=
| Rejects (e : exn)
| Responds (response : value).

(** The category a configuration is cached in. *)
Definition cacheType_of (config : object) : category :=
  if strict_eq_str (obj_get config "type") "stats" then UserData
  else if strict_eq_str (obj_get config "type") "single" then MediaData
  else if strict_eq_str (obj_get config "type") "search" then SearchResults
  else UserData.

(** The [if (result.errors && result.errors.length > 0)] block, which always
    throws.  The pictographs of the messages are left out. *)
Definition throw_first_error {A} (errors : value) : M A :=
  fun p =>
    match get_first errors with
    | None => throw TypeError p
    | Some firstError =>
        match get_prop firstError "message" with
        | None => throw TypeError p
        | Some message =>
            match opt_includes message "Private" with
            | None => throw TypeError p
            | Some a =>
                match (if a then Some true
                       else opt_includes message "permission") with
                | None => throw TypeError p
                | Some true =>
                    if truthy (VStr (accessToken p))
                    then throw (Error "List is private and this token has no permission.") p
                    else throw (Error "List is private. Please authenticate to access it.") p
                | Some false =>
                    throw (Error (to_string
                                    (js_or message
                                       (VStr "AniList returned an unknown error.")))) p
                end
            end
        end
    end.

(** The part of the [try] block after the awaited request. *)
Definition handle_response (cat : category) (cacheKey : string)
    (response : value) (now : Z) : M value :=
  match get_prop response "json" with
  | None => throw TypeError
  | Some result =>
      if negb (truthy result) then throw (Error "Empty response from AniList.")
      else
        match get_prop result "errors" with
        | None => throw TypeError
        | Some errors =>
            if (truthy errors
                && match get_prop errors "length" with
                   | Some len => num_gtb (to_number len) (Int 0)
                   | None => false
                   end)%bool
            then throw_first_error errors
            else
              match get_prop result "data" with
              | None => throw TypeError
              | Some data =>
                  if negb (truthy data)
                  then throw (Error "AniList returned no data.")
                  else
                    setToCache (category_name cat) cacheKey data now ;;;
                    write LOG ("[Zoro] Cached data for " +++ category_name cat
                               +++ ": " +++ String.substring 0 50 cacheKey
                               +++ "...") ;;;
                    ret data
              end
        end
  end.

(** [fetchZoroData(config)]: the cache is probed at [now]; on a miss the
    request is queued, and [net] is what its promise settles with, at
    [later]; nothing else touches the plugin in between.  The query text and the request headers only shape the
    request sent and are not modelled; [ensureValidToken] is called when
    [settings.accessToken] is truthy, which is the condition under which
    it returns. *)
Definition fetchZoroData (config : object) (now : Z) (net : reply) (later : Z)
  : M value :=
  let cacheKey := createCacheKey config in
  let cat := cacheType_of config in
  let cacheType := category_name cat in
  fun p =>
    let cacheTtl := num_or (ttlMap cat) (cacheTimeout p) in
    (cached <-
       (if negb (truthy (obj_get config "nocache"))
        then getFromCache cacheType cacheKey (Some cacheTtl) now
        else ret (VBool false)) ;;
     if truthy cached then
       write LOG ("[Zoro] Cache HIT for " +++ cacheType +++ ": "
                  +++ String.substring 0 50 cacheKey +++ "...") ;;;
       ret cached
     else
       write LOG ("[Zoro] Cache MISS for " +++ cacheType +++ ": "
                  +++ String.substring 0 50 cacheKey +++ "...") ;;;
       try_catch
         (match net with
          | Rejects e => throw e
          | Responds response => handle_response cat cacheKey response later
          end)
         (fun error =>
            write ERROR ("[Zoro] fetchZoroData() failed: " +++ exn_text error) ;;;
            throw error)) p.

(** ** Properties the theorems speak of *)

(** Every map of the cache has distinct keys. *)
Definition cache_wf (c : Cache) : Prop :=
  forall cat, JsMap.wf (cache_map c cat).

(** The values [JSON.parse] returns and [JSON.stringify] writes back
    unchanged: no [undefined], no [NaN] or infinity, numbers in canonical
    form, and objects that list their properties the way an object built
    by assignments does. *)
Inductive json_value : value -> Prop :=
| JNull : json_value VNull
| JBool b : json_value (VBool b)
| JNum m k : canonical (Fin m k) -> json_value (VNum (Fin m k))
| JStr s : json_value (VStr s)
| JArr l : Forall json_value l -> json_value (VArr l)
| JObj o :
    Forall (fun kv => json_value (snd kv)) o ->
    obj_of_list o = o ->
    json_value (VObj o).

(** The configuration [parseInlineLink] builds for the link
    [zoro:alice/anime/42#nocache], and a response for it. *)
Definition config_nocache : object :=
  [ ("username", VStr "alice"); ("layout", VStr "card");
    ("type", VStr "single"); ("mediaType", VStr "ANIME");
    ("mediaId", VInt 42); ("nocache", VBool true) ].

Definition data_42 : value :=
  VObj [("MediaList", VObj [("id", VInt 7); ("progress", VInt 3)])].

Definition response_42 : value :=
  VObj [("status", VInt 200); ("json", VObj [("data", data_42)])].

(** [prune] deletes [key]: its JSON text has a property of [exactKeys]
    strictly equal to [id]. *)
Definition key_cleared (exactKeys : list string) (id : number) (key : string)
  : bool :=
  match key_matches exactKeys id key with
  | Some true => true
  | _ => false
  end.

(** The entries [prune] leaves in a map. *)
Definition pruned (id : number) (m : JsMap.t entry) : JsMap.t entry :=
  filter (fun kv => negb (key_cleared ["mediaId"] id (fst kv))) m.

(** The configuration of the single-media view of item [id] for user
    [alice], as [parseInlineLink] and the edit flow number it. *)
Definition config_single (id : Z) : object :=
  [ ("type", VStr "single"); ("username", VStr "alice");
    ("mediaId", VInt id); ("mediaType", VStr "ANIME") ].

(** The same view asked for by a code block, where [parseCodeBlockConfig]
    keeps every field as the text it read. *)
Definition config_single_block : object :=
  [ ("type", VStr "single"); ("mediaId", VStr "42");
    ("username", VStr "alice"); ("listType", VStr "CURRENT");
    ("layout", VStr "card"); ("mediaType", VStr "ANIME") ].

(** A run of the queue: three submissions, the last of which throws as
    soon as it is called; the first request is rejected, the second
    resolves. *)
Definition demo_events : list RequestQueue.event :=
  [ RequestQueue.Add None 0;
    RequestQueue.Add None 10;
    RequestQueue.Add (Some (Error "bad request")) 20;
    RequestQueue.Settle 0 (RequestQueue.Rejected (Error "network")) 300;
    RequestQueue.Timeout 1000 1000;
    RequestQueue.Settle 1 (RequestQueue.Resolved (VInt 1)) 1200;
    RequestQueue.Timeout 1900 1950 ].

Definition demo_state : RequestQueue.t :=
  Eval vm_compute in
    match RequestQueue.run (RequestQueue.constructor true 0) demo_events with
    | Some s => s
    | None => RequestQueue.constructor true 0
    end.

(** The order of [Array.prototype.sort] on strings. *)
Definition leS (a b : string) : Prop := str_leb a b = true.

(** The JSON text of a value; [null] for a value that has none. *)
Definition text_of (v : value) : string :=
  match serialize v with
  | Some t => t
  | None => "null"
  end.

(** The nesting depth of arrays and objects in a value. *)
Fixpoint depth (v : value) : nat :=
  match v with
  | VArr l => S (list_max (map depth l))
  | VObj o => S (list_max (map (fun kv => depth (snd kv)) o))
  | _ => O
  end.

(** Induction on values, with the hypothesis for every element of an array
    and every property of an object. *)
Fixpoint value_ind2 (P : value -> Prop)
    (Hundef : P VUndefined) (Hnull : P VNull)
    (Hbool : forall b, P (VBool b)) (Hnum : forall n, P (VNum n))
    (Hstr : forall s, P (VStr s))
    (Harr : forall l, Forall P l -> P (VArr l))
    (Hobj : forall o, Forall (fun kv => P (snd kv)) o -> P (VObj o))
    (v : value) {struct v} : P v :=
  match v with
  | VUndefined => Hundef
  | VNull => Hnull
  | VBool b => Hbool b
  | VNum n => Hnum n
  | VStr s => Hstr s
  | VArr l =>
      Harr l ((fix go (l : list value) : Forall P l :=
                 match l with
                 | [] => Forall_nil P
                 | x :: r =>
                     Forall_cons x
                       (value_ind2 P Hundef Hnull Hbool Hnum Hstr Harr Hobj x)
                       (go r)
                 end) l)
  | VObj o =>
      Hobj o ((fix go (o : list (string * value))
                 : Forall (fun kv => P (snd kv)) o :=
                 match o with
                 | [] => Forall_nil _
                 | kv :: r =>
                     Forall_cons kv
                       (value_ind2 P Hundef Hnull Hbool Hnum Hstr Harr Hobj
                                   (snd kv))
                       (go r)
                 end) o)
  end.

(** What follows a value inside a JSON text: nothing, a comma, or a
    closing bracket or brace. *)
Definition follow (rest : string) : Prop :=
  match rest with
  | EmptyString => True
  | String c _ => code c = 44%N \/ code c = 93%N \/ code c = 125%N
  end.

(** A decimal digit. *)
Definition is_dec (d : N) : Prop := (d < 10)%N.

(** What may follow a number: nothing, or a character that is not part of
    a number literal. *)
Definition number_follow (rest : string) : Prop :=
  match rest with
  | EmptyString => True
  | String c _ =>
      is_digit c = false /\ code c <> 46%N /\ code c <> 101%N /\ code c <> 69%N
  end.

(** The first character of a JSON text tells what the value is. *)
Inductive starts : value -> ascii -> Prop :=
| starts_null : starts VNull "n"
| starts_true : starts (VBool true) "t"
| starts_false : starts (VBool false) "f"
| starts_minus m k : starts (VNum (Fin m k)) "-"
| starts_digit m k c : is_digit c = true -> starts (VNum (Fin m k)) c
| starts_str s : starts (VStr s) dquote
| starts_arr l : starts (VArr l) "["
| starts_obj o : starts (VObj o) "{".


(** [pv] reads back the text of [x], whatever follows. *)
Definition reads (pv : string -> option (value * string)) (x : value) : Prop :=
  forall rest, follow rest -> pv (text_of x +++ rest) = Some (x, rest).

(** The text of a member of an object. *)
Definition member_text (kv : string * value) : string :=
  quote (fst kv) +++ ":" +++ text_of (snd kv).

(** The entry is younger than the time-to-live of its category at [now]:
    the test [age < ttl] of [loadCacheFromStorage]. *)
Definition fresh (now : Z) (cat : category) (e : entry) : bool :=
  num_ltb (num_sub (Int now) (entry_timestamp e)) (ttlMap cat).

(** The entry is older than the time-to-live of its category at [now]:
    the test [age > ttl] of [getFromCache]. *)
Definition expired (now : Z) (cat : category) (e : entry) : bool :=
  num_gtb (num_sub (Int now) (entry_timestamp e)) (ttlMap cat).

(** The cache holds results and timestamps that have a JSON text. *)
Definition cache_json (c : Cache) : Prop :=
  forall cat k e,
    In (k, e) (cache_map c cat) ->
    json_value (entry_value e) /\ json_value (VNum (entry_timestamp e)).

(** Every entry of the cache is fresh at [now]. *)
Definition all_fresh (now : Z) (c : Cache) : Prop :=
  forall cat k e, In (k, e) (cache_map c cat) -> fresh now cat e = true.

(** The pair [[key, entry]] of [Array.from(map.entries())]. *)
Definition entry_pair (kv : string * entry) : value :=
  VArr [VStr (fst kv); entry_to_value (snd kv)].

(** A cache with one entry of [mediaData] stored at [1000] and one stored
    at [900000]. *)
Definition cache_two : Cache :=
  mkCache []
          [ ("old", mkEntry (VStr "stale") (Int 1000));
            ("new", mkEntry (VStr "fresh") (Int 900000)) ]
          [].

Definition category_eq_dec (a b : category) : {a = b} + {a <> b}.
Proof. decide equality. Defined.

(** ** The code around the cache and the queue *)

(** ** [ZoroPlugin.pruneCache] *)

(** The loop over [map.entries()]: deleting the entry just visited leaves
    the rest of the visit as it was. *)
Fixpoint prune_expired (now : Z) (ttl : number) (es : list (string * entry))
    (m : JsMap.t entry) : JsMap.t entry * nat :=
  match es with
  | [] => (m, O)
  | (key, e) :: r =>
      if num_gtb (num_sub (Int now) (entry_timestamp e)) ttl
      then let (m', pruned) := prune_expired now ttl r (JsMap.delete m key) in
           (m', S pruned)
      else prune_expired now ttl r m
  end.

(** The body of the loop over [Object.entries(this.cache)]. *)
Definition prune_category (now : Z) (totalPruned : nat) (cat : category)
  : M nat :=
  c <- get_cache ;;
  fun p =>
    let ttl := num_or (ttlMap cat) (cacheTimeout p) in
    let (m, pruned) :=
      prune_expired now ttl (cache_map c cat) (cache_map c cat) in
    (put_cache (with_map c cat m) ;;;
     if (0 <? pruned)%nat then
       write LOG ("[Zoro] Pruned " +++ nat_to_string pruned
                  +++ " expired entries from " +++ category_name cat
                  +++ " cache") ;;;
       ret (totalPruned + pruned)%nat
     else ret totalPruned) p.

Definition pruneCache (now : Z) : M unit :=
  totalPruned <- forEach (prune_category now) categories O ;;
  if (0 <? totalPruned)%nat then
    write LOG ("[Zoro] Total cache entries pruned: "
               +++ nat_to_string totalPruned)
  else ret tt.

(** The entries of a map that are not older than the time-to-live of its
    category at [now]. *)
Definition unexpired (now : Z) (cat : category) (m : JsMap.t entry)
  : JsMap.t entry :=
  filter (fun kv => negb (expired now cat (snd kv))) m.

(** A plugin whose [mediaData] holds one entry stored at [1000] and one
    stored at [900000]. *)
Definition plugin_two : plugin :=
  mkPlugin cache_two (Int (4 * 60 * 1000)) "" None [].

(** ** [ZoroPlugin.clearSingleEntryCache] *)

(** [JSON.stringify(o)] for an object [o], which always has a text. *)
Definition stringify_object (o : object) : string :=
  match JSON_stringify (VObj o) with
  | Some s => s
  | None => EmptyString
  end.

(** The object literal of [listKey]; its names are written in this order. *)
Definition listKey_object (username mediaType : value) : object :=
  [ ("username", username); ("type", VStr "list");
    ("listType", VStr "CURRENT"); ("mediaType", mediaType) ].

(** The object literal of [singleKey]. *)
Definition singleKey_object (username : value) (id : number)
    (mediaType : value) : object :=
  [ ("username", username); ("type", VStr "single");
    ("mediaId", VNum id); ("mediaType", mediaType) ].

Definition clearSingleEntryCache (mediaId username mediaType : value)
  : M unit :=
  let mediaType := match mediaType with
                   | VUndefined => VStr "ANIME"
                   | _ => mediaType
                   end in
  let id := parseInt mediaId in
  if (negb (truthy (VNum id)) || negb (truthy username))%bool then ret tt
  else
    let listKey := stringify_object (listKey_object username mediaType) in
    c <- get_cache ;;
    put_cache (with_map c UserData (JsMap.delete (userData c) listKey)) ;;;
    let singleKey :=
      stringify_object (singleKey_object username id mediaType) in
    c <- get_cache ;;
    put_cache (with_map c MediaData (JsMap.delete (mediaData c) singleKey)) ;;;
    write LOG ("[Zoro] Invalidated cache for media " +++ number_to_string id
               +++ " (user: " +++ to_string username +++ ")").

(** A plugin that holds, in [mediaData], the result of the single-media
    view of item 42 under the key [fetchZoroData] gives it. *)
Definition plugin_42 : plugin :=
  mkPlugin (mkCache [] [(createCacheKey (config_single 42),
                         mkEntry data_42 (Int 1000))] [])
           (Int (4 * 60 * 1000)) "" None [].

(** The time-to-live of a category in milliseconds, as an integer. *)
Definition ttl_millis (cat : category) : Z :=
  match ttlMap cat with
  | Fin m _ => m
  | _ => 0
  end.

(** [q] differs from [p] at most by the entry under [key] in the map of
    [cat] and by what was written to the console. *)
Definition touches_only (cat : category) (key : string) (p q : plugin)
  : Prop :=
  (forall cat' k, cat' <> cat \/ k <> key ->
                  JsMap.get (cache_map (cache q) cat') k
                  = JsMap.get (cache_map (cache p) cat') k)
  /\ storage q = storage p
  /\ accessToken q = accessToken p
  /\ cacheTimeout q = cacheTimeout p.

(** The loader is displayed exactly while the queue is at work, when the
    setting [showLoadingIcon], left at [icon], asks for it. *)
Definition loader_tracks (icon : bool) (s : RequestQueue.t) : Prop :=
  RequestQueue.showLoadingIcon s = icon
  /\ RequestQueue.loader s = (icon && RequestQueue.isProcessing s)%bool.

(** ** [Api.updateMediaListEntry] *)

(** [error.message] for what a [catch] block caught: [None] when the read
    itself throws, which it does when a promise was rejected with [null]
    or [undefined].  [engineText] is the message the engine gave to the
    [TypeError] or [SyntaxError] it raised. *)
Definition error_message (engineText : string) (e : exn) : option value :=
  match e with
  | Error m => Some (VStr m)
  | TypeError | SyntaxError => Some (VStr engineText)
  | Reason r => get_prop r "message"
  end.

(** [v?.k] *)
Definition opt_prop (v : value) (k : string) : value :=
  match get_prop v k with
  | Some x => x
  | None => VUndefined
  end.

(** [v?.[0]] *)
Definition opt_first (v : value) : value :=
  match get_first v with
  | Some x => x
  | None => VUndefined
  end.

(** The test [!result || result.errors?.length > 0]. *)
Definition update_refused (result : value) : bool :=
  (negb (truthy result)
   || match opt_prop result "errors" with
      | VUndefined | VNull => false
      | errors => num_gtb (to_number (opt_prop errors "length")) (Int 0)
      end)%bool.

(** The [try] block after the awaited request.  The mutation text and the
    variables only shape the request and are not modelled, except that
    reading [updates.status] throws when [updates] is [null] or
    [undefined]; the pictographs of the messages are left out. *)
Definition update_response (mediaId : value) (response : value) : M value :=
  match get_prop response "json" with
  | None => throw TypeError
  | Some result =>
      if update_refused result then
        match get_prop result "errors" with
        | None => throw TypeError
        | Some errors =>
            let message :=
              js_or (opt_prop (opt_first errors) "message")
                    (VStr "Unknown mutation error") in
            throw (Error ("AniList update error: " +++ to_string message))
        end
      else
        clearCacheForMedia mediaId ;;;
        match get_prop result "data" with
        | None => throw TypeError
        | Some data =>
            match get_prop data "SaveMediaListEntry" with
            | None => throw TypeError
            | Some saved => ret saved
            end
        end
  end.

(** [updateMediaListEntry(mediaId, updates)]; [net] is what the awaited
    [requestQueue.add(...)] settles with.  [ensureValidToken] is reached
    only when [settings.accessToken] is truthy, and then returns [true]. *)
Definition updateMediaListEntry (mediaId updates : value)
    (engineText : string) (net : reply) : M value :=
  try_catch
    (fun p =>
       if negb (truthy (VStr (accessToken p))) then
         throw (Error "Authentication required to update entries.") p
       else
         match get_prop updates "status" with
         | None => throw TypeError p
         | Some _ =>
             match net with
             | Rejects e => throw e p
             | Responds response => update_response mediaId response p
             end
         end)
    (fun error =>
       write ERROR ("[Zoro] updateMediaListEntry failed: " +++ exn_text error) ;;;
       match error_message engineText error with
       | None => throw TypeError
       | Some m => throw (Error ("Failed to update entry: " +++ to_string m))
       end).

(** [plugin_42] with an access token, and the response to an update. *)
Definition plugin_42_token : plugin :=
  mkPlugin (cache plugin_42) (cacheTimeout plugin_42) "token" None [].

Definition response_saved : value :=
  VObj [("json",
         VObj [("data",
                VObj [("SaveMediaListEntry",
                       VObj [("id", VInt 7); ("progress", VInt 4)])])])].

(** ** Letter case

    [toUpperCase] and [toLowerCase] on code units below 256.  The capital
    of the sharp s is [SS]; the capitals of the micro sign (181) and of
    the y with diaeresis (255) are not among the code units modelled, and
    these two letters are left as they are. *)

Definition upper_char (c : ascii) : string :=
  let n := code c in
  if ((97 <=? n) && (n <=? 122))%N then String (ascii_of_N (n - 32)) EmptyString
  else if (n =? 223)%N then "SS"
  else if ((224 <=? n) && (n <=? 254) && negb (n =? 247))%N
  then String (ascii_of_N (n - 32)) EmptyString
  else String c EmptyString.

Definition lower_char (c : ascii) : ascii :=
  let n := code c in
  if ((65 <=? n) && (n <=? 90))%N then ascii_of_N (n + 32)
  else if ((192 <=? n) && (n <=? 222) && negb (n =? 215))%N
  then ascii_of_N (n + 32)
  else c.

Fixpoint toUpperCase (s : string) : string :=
  match s with
  | EmptyString => EmptyString
  | String c r => upper_char c +++ toUpperCase r
  end.

Fixpoint toLowerCase (s : string) : string :=
  match s with
  | EmptyString => EmptyString
  | String c r => String (lower_char c) (toLowerCase r)
  end.

(** ** [Api.getZoroUrl] *)

(** [typeof v === 'number'] *)
Definition is_number (v : value) : bool :=
  match v with VNum _ => true | _ => false end.

Definition getZoroUrl (mediaId mediaType : value) : result string :=
  let mediaType := match mediaType with
                   | VUndefined => VStr "ANIME"
                   | _ => mediaType
                   end in
  if (negb (truthy mediaId) || negb (is_number mediaId))%bool then
    Throw (Error ("Invalid mediaId: " +++ to_string mediaId))
  else
    let type := toUpperCase (to_string mediaType) in
    let validTypes := ["ANIME"; "MANGA"] in
    let urlType := if existsb (String.eqb type) validTypes
                   then toLowerCase type else "anime" in
    Ret ("https://anilist.co/" +++ urlType +++ "/" +++ to_string mediaId).

(** ** [ZoroPlugin.validateSettings] *)

(** [typeof v === 'string'] and [typeof v === 'boolean'] *)
Definition is_string (v : value) : bool :=
  match v with VStr _ => true | _ => false end.

Definition is_boolean (v : value) : bool :=
  match v with VBool _ => true | _ => false end.

(** [Number.isInteger(v)] *)
Definition is_integer (v : value) : bool :=
  match v with
  | VNum (Fin m k) => m mod pow10 k =? 0
  | _ => false
  end.

(** [a >= b] *)
Definition num_geb (a b : number) : bool := (num_ltb b a || num_eqb a b)%bool.

(** [getDefaultGridColumns()], where [innerWidth] is [window.innerWidth]. *)
Definition getDefaultGridColumns (innerWidth : number) : value :=
  if num_geb innerWidth (Int 768) then VInt 4 else VInt 2.

Definition validateSettings (innerWidth : number) (settings : value)
  : object :=
  let get k := opt_prop settings k in
  let text k default := if is_string (get k) then get k else VStr default in
  [ ("defaultUsername", text "defaultUsername" "");
    ("defaultLayout",
     if existsb (strict_eq_str (get "defaultLayout")) ["card"; "list"]
     then get "defaultLayout" else VStr "card");
    ("gridColumns",
     if is_integer (get "gridColumns") then get "gridColumns"
     else getDefaultGridColumns innerWidth);
    ("theme", text "theme" "");
    ("showCoverImages", VBool (truthy (get "showCoverImages")));
    ("showRatings", VBool (truthy (get "showRatings")));
    ("showProgress", VBool (truthy (get "showProgress")));
    ("showGenres", VBool (truthy (get "showGenres")));
    ("showLoadingIcon",
     if is_boolean (get "showLoadingIcon") then get "showLoadingIcon"
     else VBool true);
    ("clientId", text "clientId" "");
    ("clientSecret", text "clientSecret" "");
    ("redirectUri", text "redirectUri" "https://anilist.co/api/v2/oauth/pin");
    ("accessToken", text "accessToken" "") ].

(** The names of the settings [validateSettings] keeps. *)
Definition setting_names : list string :=
  [ "defaultUsername"; "defaultLayout"; "gridColumns"; "theme";
    "showCoverImages"; "showRatings"; "showProgress"; "showGenres";
    "showLoadingIcon"; "clientId"; "clientSecret"; "redirectUri";
    "accessToken" ].

(** ** [Export.csvEscape] *)

Definition newline : ascii := ascii_of_N 10.

(** The [replace] of [csvEscape]: every double quote is written twice. *)
Fixpoint double_quotes (s : string) : string :=
  match s with
  | EmptyString => EmptyString
  | String c r =>
      if Ascii.eqb c dquote then String dquote (String dquote (double_quotes r))
      else String c (double_quotes r)
  end.

Definition csvEscape (str : value) : string :=
  let str := match str with
             | VUndefined => VStr ""
             | _ => str
             end in
  (* [String(str)] when [str] is not a string, [str] itself otherwise *)
  let s := to_string str in
  if (includes s "," || includes s (String dquote EmptyString)
      || includes s (String newline EmptyString))%bool
  then String dquote (double_quotes s +++ String dquote EmptyString)
  else s.

(** ** Strings in the parsers *)

(** [s.trim()], over the code units below 256 *)
Definition trim (s : string) : string := trim_end (skip_str_ws s).

(** [s.split(sep)] for a separator of one code unit: never empty. *)
Fixpoint split_on (sep : ascii) (s : string) : list string :=
  match s with
  | EmptyString => [EmptyString]
  | String c r =>
      if Ascii.eqb c sep then EmptyString :: split_on sep r
      else match split_on sep r with
           | x :: l => String c x :: l
           | [] => [String c EmptyString]
           end
  end.



Fixpoint read_hex (s : string) : list N * string :=
  match s with
  | EmptyString => ([], EmptyString)
  | String c r =>
      match hex_val c with
      | Some d => let (ds, rest) := read_hex r in (d :: ds, rest)
      | None => ([], s)
      end
  end.

Definition hex_digits_val (ds : list N) : N :=
  fold_left (fun acc d => (16 * acc + d)%N) ds 0%N.

(** The digits [parseInt] reads without a radix, and their base: sixteen
    after [0x] or [0X], ten otherwise. *)
Definition read_integer (s1 : string) : list N * N :=
  match s1 with
  | String z (String x r) =>
      if ((code z =? 48) && ((code x =? 120) || (code x =? 88)))%N
      then (fst (read_hex r), 16%N)
      else (fst (read_digits s1), 10%N)
  | _ => (fst (read_digits s1), 10%N)
  end.

Definition integer_of (neg : bool) (digits_read : list N * N) : number :=
  match digits_read with
  | ([], _) => NaN
  | (ds, radix) =>
      let z := Z.of_N (if (radix =? 16)%N then hex_digits_val ds
                       else digits_val ds) in
      Int (if neg then - z else z)
  end.

(** [parseInt(v)] without a radix: as [parseInt(v, 10)], except that
    after [0x] or [0X] the digits are read in base sixteen. *)
Definition parseInt_auto (v : value) : number :=
  let s := skip_str_ws (to_string v) in
  let (neg, s1) :=
    match s with
    | String c r =>
        if (code c =? 45)%N then (true, r)
        else if (code c =? 43)%N then (false, r)
        else (false, s)
    | EmptyString => (false, s)
    end in
  integer_of neg (read_integer s1).

(** ** [Processor.parseCodeBlockConfig] and [parseSearchCodeBlockConfig] *)

(** [config[key] = value] for a string [value].  The name [__proto__] is
    the accessor of [Object.prototype], which ignores a string. *)
Definition assign_text (config : object) (key value : string) : object :=
  if String.eqb key "__proto__" then config
  else obj_set config key (VStr value).

(** The body of the loop over the lines. *)
Definition read_line (config : object) (line : string) : object :=
  match map trim (split_on ":"%char line) with
  | key :: value :: _ =>
      if (truthy (VStr key) && truthy (VStr value))%bool
      then assign_text config key value
      else config
  | _ => config
  end.

Definition read_lines (config : object) (source : string) : object :=
  fold_left read_line
            (filter (fun line => truthy (VStr (trim line)))
                    (split_on newline source))
            config.

(** [parseCodeBlockConfig(source)]; the three values are
    [settings.defaultUsername], [settings.defaultLayout] and
    [settings.accessToken]. *)
Definition parseCodeBlockConfig (defaultUsername defaultLayout
    accessToken : value) (source : string) : result object :=
  let config := read_lines [] source in
  match
    (if negb (truthy (obj_get config "username")) then
       if truthy defaultUsername then
         Ret (obj_set config "username" defaultUsername)
       else if truthy accessToken then
         Ret (obj_set config "useAuthenticatedUser" (VBool true))
       else
         Throw (Error ("Username is required. Please set a default username "
                       +++ "in plugin settings, authenticate, or specify "
                       +++ "one in the code block."))
     else Ret config)
  with
  | Throw e => Throw e
  | Ret config =>
      let config :=
        obj_set config "listType"
                (js_or (obj_get config "listType") (VStr "CURRENT")) in
      let config :=
        obj_set config "layout"
                (js_or (obj_get config "layout") defaultLayout) in
      let config :=
        obj_set config "mediaType"
                (js_or (obj_get config "mediaType") (VStr "ANIME")) in
      Ret config
  end.

Definition parseSearchCodeBlockConfig (defaultLayout : value)
    (source : string) : object :=
  let config := read_lines [("type", VStr "search")] source in
  let config :=
    obj_set config "layout"
            (js_or (js_or (obj_get config "layout") defaultLayout)
                   (VStr "card")) in
  let config :=
    obj_set config "mediaType"
            (js_or (obj_get config "mediaType") (VStr "ANIME")) in
  let config :=
    obj_set config "layout"
            (js_or (obj_get config "layout") defaultLayout) in
  config.

(** ** [Processor.parseInlineLink] *)



(** Every field of the object holds a text that is not empty. *)
Definition all_text (o : object) : Prop :=
  Forall (fun kv => exists s, snd kv = VStr s /\ s <> EmptyString) o.

(** A code block that asks for the single-media view of item 42. *)
Definition source_single_42 : string :=
  "type: single" +++ String newline "mediaId: 42".


(** ** [Api.checkIfMediaInList] *)

(** The object literal of [checkIfMediaInList]. *)
Definition check_config (mediaId mediaType : value) : object :=
  obj_of_list [ ("type", VStr "single"); ("mediaType", mediaType);
                ("mediaId", VNum (parseInt_auto mediaId)) ].

(** [a !== null] *)
Definition is_not_null (v : value) : bool :=
  match v with VNull => false | _ => true end.

Definition checkIfMediaInList (mediaId mediaType : value) (now : Z)
    (net : reply) (later : Z) : M bool :=
  fun p =>
    if negb (truthy (VStr (accessToken p))) then ret false p
    else
      try_catch
        (response <- fetchZoroData (check_config mediaId mediaType)
                                   now net later ;;
         match get_prop response "MediaList" with
         | None => throw TypeError
         | Some mediaList => ret (is_not_null mediaList)
         end)
        (fun error =>
           write WARN ("Error checking media list status: "
                       +++ exn_text error) ;;;
           ret false) p.

(** ** [Theme.extractCSSRules] *)

Inductive css_rule : Type :=
| TextRule (content : string)
| AtRule (content : string) (atType : string)
| PlainRule (content : string).

Definition rule_content (r : css_rule) : string :=
  match r with
  | TextRule c | AtRule c _ | PlainRule c => c
  end.

(** A code unit the class [\w] matches *)
Definition is_word_char (c : ascii) : bool :=
  let n := code c in
  (((48 <=? n) && (n <=? 57)) || ((65 <=? n) && (n <=? 90))
   || ((97 <=? n) && (n <=? 122)) || (n =? 95))%N.

Fixpoint read_word (s : string) : string :=
  match s with
  | EmptyString => EmptyString
  | String c r => if is_word_char c then String c (read_word r)
                  else EmptyString
  end.

(** The name after the [@] that begins [suffix], as the pattern of
    [extractCSSRules] captures it; empty when there is none. *)
Definition at_rule_name (suffix : string) : string :=
  match suffix with
  | EmptyString => EmptyString
  | String _ r => read_word r
  end.

Record css_state : Type := mkCss {
  css_rules : list css_rule;
  css_current : string;
  css_depth : Z;
  css_inAtRule : bool;
  css_atRuleType : string
}.

(** One turn of the loop, on the code unit [c] at [pos]; [suffix] is
    [css.slice(pos)]. *)
Definition css_step (st : css_state) (c : ascii) (suffix : string)
  : css_state :=
  let st1 :=
    if (Ascii.eqb c "@" && (css_depth st =? 0))%bool then
      mkCss (if truthy (VStr (trim (css_current st)))
             then css_rules st ++ [TextRule (css_current st)]
             else css_rules st)
            (String c EmptyString) (css_depth st) true
            (at_rule_name suffix)
    else
      mkCss (css_rules st) (css_current st +++ String c EmptyString)
            (css_depth st) (css_inAtRule st) (css_atRuleType st) in
  if Ascii.eqb c "{" then
    mkCss (css_rules st1) (css_current st1) (css_depth st1 + 1)
          (css_inAtRule st1) (css_atRuleType st1)
  else if Ascii.eqb c "}" then
    let depth := css_depth st1 - 1 in
    if depth =? 0 then
      if css_inAtRule st1 then
        mkCss (css_rules st1
               ++ [AtRule (css_current st1) (css_atRuleType st1)])
              EmptyString depth false EmptyString
      else
        mkCss (css_rules st1 ++ [PlainRule (css_current st1)])
              EmptyString depth (css_inAtRule st1) (css_atRuleType st1)
    else
      mkCss (css_rules st1) (css_current st1) depth (css_inAtRule st1)
            (css_atRuleType st1)
  else st1.

Fixpoint css_loop (st : css_state) (css : string) : css_state :=
  match css with
  | EmptyString => st
  | String c r => css_loop (css_step st c css) r
  end.

Definition extractCSSRules (css : string) : list css_rule :=
  let st := css_loop (mkCss [] EmptyString 0 false EmptyString) css in
  if truthy (VStr (trim (css_current st)))
  then css_rules st ++ [TextRule (css_current st)]
  else css_rules st.

(** The text without its white space. *)
Fixpoint strip_ws (s : string) : string :=
  match s with
  | EmptyString => EmptyString
  | String c r => if is_str_ws c then strip_ws r else String c (strip_ws r)
  end.

(** The contents of the rules, one after the other. *)
Definition rules_text (rules : list css_rule) : string :=
  fold_right (fun r acc => rule_content r +++ acc) EmptyString rules.

Definition ends_with (c : ascii) (s : string) : Prop :=
  exists s', s = s' +++ String c EmptyString.

(** A rule as [extractCSSRules] cuts it: a block ends with its closing
    brace, an at-rule begins with [@], and a text is not blank. *)
Definition rule_cut (r : css_rule) : Prop :=
  match r with
  | TextRule c => trim c <> EmptyString
  | AtRule c _ => ends_with "}" c /\ exists s', c = String "@" s'
  | PlainRule c => ends_with "}" c
  end.

(** What the loop of [extractCSSRules] keeps true, [done] being the text
    read so far. *)
Definition css_inv (st : css_state) (done : string) : Prop :=
  strip_ws (rules_text (css_rules st) +++ css_current st) = strip_ws done
  /\ Forall rule_cut (css_rules st)
  /\ (css_inAtRule st = true -> exists s', css_current st = String "@" s').

(** ** The selectors of a theme: [Theme.isAlreadyPluginScoped],
    [shouldBePluginScoped], [addPluginScope] *)

Definition pluginScopes : list string :=
  [ ".zoro-container"; ".zoro-search-container"; ".zoro-dashboard-container";
    ".zoro-modal-overlay"; ".zoro-edit-modal"; ".zoro-auth-modal" ].

Definition isAlreadyPluginScoped (selector : string) : bool :=
  existsb (fun scope => includes selector scope) pluginScopes.

(** [selector.startsWith(prefix)] is [String.prefix prefix selector]. *)
Definition shouldBePluginScoped (selector : string) : bool :=
  let globalPrefixes := [":root"; "html"; "body"; "*"] in
  let pluginPrefixes := [".zoro-"; "#zoro-"] in
  let hasGlobalPrefix :=
    existsb (fun prefix => String.prefix prefix selector) globalPrefixes in
  let hasPluginPrefix :=
    existsb (fun prefix => includes selector prefix) pluginPrefixes in
  (negb hasGlobalPrefix
   && (hasPluginPrefix || negb (String.prefix "." selector)))%bool.

Definition addPluginScope (selector : string) : string :=
  let primaryScope := ".zoro-container" in
  if (includes selector ".zoro-modal" || includes selector ".zoro-overlay")%bool
  then selector
  else if String.prefix ":" selector then primaryScope +++ selector
  else primaryScope +++ " " +++ selector.

(** The body of the loop over the selectors in [handleRegularRule]. *)
Definition scope_selector (selector : string) : string :=
  if isAlreadyPluginScoped selector then selector
  else if shouldBePluginScoped selector then addPluginScope selector
  else selector.

(** The code unit [c] does not occur in [s]. *)
Fixpoint lacks (c : ascii) (s : string) : bool :=
  match s with
  | EmptyString => true
  | String x r => (negb (Ascii.eqb x c) && lacks c r)%bool
  end.


(* ===================================================================== *)
(** * Part II.  Lemmas and theorems *)
(* ===================================================================== *)

(** ** Numbers *)

Lemma pow10_0 : pow10 0 = 1.
Proof. reflexivity. Qed.

Lemma num_sub_Int (a b : Z) : num_sub (Int a) (Int b) = Int (a - b).
Proof.
  unfold num_sub, Int. cbn [Nat.max Nat.sub norm].
  rewrite pow10_0. f_equal. lia.
Qed.

Lemma num_ltb_Int (a b : Z) : num_ltb (Int a) (Int b) = (a <? b).
Proof. unfold num_ltb, Int. rewrite pow10_0. f_equal; lia. Qed.

Lemma num_gtb_Int (a b : Z) : num_gtb (Int a) (Int b) = (b <? a).
Proof. unfold num_gtb. apply num_ltb_Int. Qed.

(** ** Maps *)

Section JsMapFacts.
Context {V : Type}.
Implicit Types (m : JsMap.t V) (k : string) (v : V).

Lemma get_app m1 m2 k :
  JsMap.get (m1 ++ m2) k =
  match JsMap.get m1 k with Some v => Some v | None => JsMap.get m2 k end.
Proof.
  induction m1 as [|[k' v'] m1 IH]; cbn; [reflexivity|].
  destruct (String.eqb k' k); auto.
Qed.

Lemma get_update_same m k v :
  JsMap.has m k = true -> JsMap.get (JsMap.update m k v) k = Some v.
Proof.
  unfold JsMap.has.
  induction m as [|[k' v'] m IH]; cbn; [discriminate|].
  destruct (String.eqb k' k) eqn:E; cbn; rewrite E; auto.
Qed.

Lemma get_update_other m k k' v :
  k <> k' -> JsMap.get (JsMap.update m k v) k' = JsMap.get m k'.
Proof.
  intros N. induction m as [|[k0 v0] m IH]; cbn; [reflexivity|].
  destruct (String.eqb_spec k0 k) as [->|]; cbn.
  - destruct (String.eqb_spec k k'); [contradiction|reflexivity].
  - rewrite IH. reflexivity.
Qed.

Lemma get_set_same m k v : JsMap.get (JsMap.set m k v) k = Some v.
Proof.
  unfold JsMap.set. destruct (JsMap.has m k) eqn:H.
  - now apply get_update_same.
  - rewrite get_app. unfold JsMap.has in H.
    destruct (JsMap.get m k); [discriminate|].
    cbn. now rewrite String.eqb_refl.
Qed.

Lemma get_set_other m k k' v :
  k <> k' -> JsMap.get (JsMap.set m k v) k' = JsMap.get m k'.
Proof.
  intros N. unfold JsMap.set. destruct (JsMap.has m k).
  - now apply get_update_other.
  - rewrite get_app. destruct (JsMap.get m k'); [reflexivity|].
    cbn. destruct (String.eqb_spec k k'); [contradiction|reflexivity].
Qed.

Lemma get_None_not_in m k :
  JsMap.get m k = None <-> ~ In k (JsMap.keys m).
Proof.
  induction m as [|[k' v'] m IH]; cbn.
  - tauto.
  - destruct (String.eqb_spec k' k) as [->|N].
    + split; [discriminate|]. intros H. exfalso. apply H. now left.
    + rewrite IH. split; [intros H [E|I]; [congruence|auto] | tauto].
Qed.

Lemma get_Some_in m k v : JsMap.get m k = Some v -> In (k, v) m.
Proof.
  induction m as [|[k' v'] m IH]; cbn; [discriminate|].
  destruct (String.eqb_spec k' k) as [->|N].
  - intros [= ->]. now left.
  - intros H. right. auto.
Qed.

Lemma keys_update m k v : JsMap.keys (JsMap.update m k v) = JsMap.keys m.
Proof.
  unfold JsMap.keys.
  induction m as [|[k' v'] m IH]; cbn; [reflexivity|].
  destruct (String.eqb k' k); cbn; congruence.
Qed.

Lemma wf_set m k v : JsMap.wf m -> JsMap.wf (JsMap.set m k v).
Proof.
  unfold JsMap.wf, JsMap.set, JsMap.has. intros W.
  destruct (JsMap.get m k) eqn:G.
  - now rewrite keys_update.
  - unfold JsMap.keys. rewrite map_app. cbn.
    apply NoDup_app; [assumption| repeat constructor; auto |].
    intros x Hx [<-|[]]. now apply get_None_not_in in G.
Qed.

Lemma keys_delete_incl m k x :
  In x (JsMap.keys (JsMap.delete m k)) -> In x (JsMap.keys m).
Proof.
  induction m as [|[k' v'] m IH]; cbn; [tauto|].
  destruct (String.eqb k' k); cbn; tauto.
Qed.

Lemma wf_delete m k : JsMap.wf m -> JsMap.wf (JsMap.delete m k).
Proof.
  unfold JsMap.wf. induction m as [|[k' v'] m IH]; cbn; [auto|].
  intros W. inversion W as [|? ? Hn Hd]; subst.
  destruct (String.eqb k' k); cbn; [assumption|].
  constructor; [|now apply IH]. intros H. apply Hn.
  eapply keys_delete_incl; eauto.
Qed.

Lemma get_delete_same m k :
  JsMap.wf m -> JsMap.get (JsMap.delete m k) k = None.
Proof.
  unfold JsMap.wf. induction m as [|[k' v'] m IH]; cbn; [auto|].
  intros W. inversion W as [|? ? Hn Hd]; subst.
  destruct (String.eqb_spec k' k) as [->|N]; cbn.
  - now apply get_None_not_in.
  - destruct (String.eqb_spec k' k); [contradiction|]. now apply IH.
Qed.

Lemma get_delete_other m k k' :
  k <> k' -> JsMap.get (JsMap.delete m k) k' = JsMap.get m k'.
Proof.
  intros N. induction m as [|[k0 v0] m IH]; cbn; [reflexivity|].
  destruct (String.eqb_spec k0 k) as [->|N0]; cbn.
  - destruct (String.eqb_spec k k'); [contradiction|reflexivity].
  - now rewrite IH.
Qed.

End JsMapFacts.

(** ** The cache *)

Lemma cache_slot_name cat : cache_slot (category_name cat) = Own cat.
Proof. destruct cat; reflexivity. Qed.

Lemma cache_map_with_same c cat m : cache_map (with_map c cat m) cat = m.
Proof. destruct cat; reflexivity. Qed.

Lemma cache_map_with_other c cat cat' m :
  cat <> cat' -> cache_map (with_map c cat m) cat' = cache_map c cat'.
Proof. destruct cat, cat'; intros H; try reflexivity; congruence. Qed.

Lemma with_map_same c cat : with_map c cat (cache_map c cat) = c.
Proof. destruct c, cat; reflexivity. Qed.

Lemma cache_wf_with c cat m :
  cache_wf c -> JsMap.wf m -> cache_wf (with_map c cat m).
Proof.
  intros W Wm cat'.
  pose proof (W UserData). pose proof (W MediaData).
  pose proof (W SearchResults).
  destruct cat, cat'; cbn in *; auto.
Qed.

Lemma cache_wf_empty : cache_wf empty_cache.
Proof. intros []; constructor. Qed.

(** What [setToCache] does to a category of the cache. *)
Lemma setToCache_spec cat key v T p :
  exists p',
    setToCache (category_name cat) key v T p = (Ret tt, p') /\
    cache p' = with_map (cache p) cat
                 (JsMap.set (cache_map (cache p) cat) key (mkEntry v (Int T))) /\
    cacheTimeout p' = cacheTimeout p /\
    accessToken p' = accessToken p /\
    storage p' = storage p.
Proof.
  unfold setToCache. rewrite cache_slot_name. cbn.
  eexists. split; [reflexivity|]. cbn. auto.
Qed.

Lemma getFromCache_fresh cat key ttl now p e :
  JsMap.get (cache_map (cache p) cat) key = Some e ->
  num_gtb (num_sub (Int now) (entry_timestamp e)) ttl = false ->
  getFromCache (category_name cat) key (Some ttl) now p
  = (Ret (entry_value e), p).
Proof.
  intros G A. unfold getFromCache. rewrite cache_slot_name.
  unfold bind, get_cache. cbv beta iota. rewrite G. cbv beta iota zeta.
  rewrite A. reflexivity.
Qed.

Lemma getFromCache_expired cat key ttl now p e :
  JsMap.get (cache_map (cache p) cat) key = Some e ->
  num_gtb (num_sub (Int now) (entry_timestamp e)) ttl = true ->
  exists p',
    getFromCache (category_name cat) key (Some ttl) now p = (Ret VNull, p') /\
    cache p' = with_map (cache p) cat
                 (JsMap.delete (cache_map (cache p) cat) key).
Proof.
  intros G A. unfold getFromCache. rewrite cache_slot_name.
  unfold bind, get_cache. cbv beta iota. rewrite G. cbv beta iota zeta.
  rewrite A. cbn.
  eexists. split; reflexivity.
Qed.

Lemma getFromCache_absent cat key ttl now p :
  JsMap.get (cache_map (cache p) cat) key = None ->
  getFromCache (category_name cat) key ttl now p = (Ret VNull, p).
Proof.
  intros G. unfold getFromCache. rewrite cache_slot_name.
  unfold bind, get_cache. cbv beta iota. rewrite G. reflexivity.
Qed.

(** C4. An entry written by [setToCache] at time [T] in a category is
    returned by [getFromCache] called with a time-to-live [t] (the one of
    the category, when [fetchZoroData] calls) as long as [now - T < t],
    and the cache is left as it is; once [now - T > t] the call returns
    [null] and deletes that entry, leaving every other key as it was.
    Whatever wrote it, an entry older than the time-to-live is never
    returned. *)
Theorem C4_ttl_expiry (cat : category) (key : string) (v : value)
    (T t now : Z) (p : plugin) :
  cache_wf (cache p) ->
  let p1 := snd (setToCache (category_name cat) key v T p) in
  (now - T < t ->
   getFromCache (category_name cat) key (Some (Int t)) now p1 = (Ret v, p1))
  /\
  (now - T > t ->
   let r := getFromCache (category_name cat) key (Some (Int t)) now p1 in
   fst r = Ret VNull
   /\ JsMap.get (cache_map (cache (snd r)) cat) key = None
   /\ (forall k, k <> key ->
         JsMap.get (cache_map (cache (snd r)) cat) k
         = JsMap.get (cache_map (cache p1) cat) k)
   /\ (forall cat', cat' <> cat ->
         cache_map (cache (snd r)) cat' = cache_map (cache p1) cat'))
  /\
  (forall (q : plugin) (e : entry) (ttl : number),
     JsMap.get (cache_map (cache q) cat) key = Some e ->
     num_gtb (num_sub (Int now) (entry_timestamp e)) ttl = true ->
     fst (getFromCache (category_name cat) key (Some ttl) now q) = Ret VNull).
Proof.
  intros W p1.
  destruct (setToCache_spec cat key v T p) as (p' & E & C & _).
  assert (P1 : p1 = p') by (unfold p1; now rewrite E). clearbody p1. subst p1.
  assert (G : JsMap.get (cache_map (cache p') cat) key = Some (mkEntry v (Int T))).
  { rewrite C, cache_map_with_same. apply get_set_same. }
  assert (W' : JsMap.wf (cache_map (cache p') cat)).
  { rewrite C, cache_map_with_same. apply wf_set, W. }
  split; [|split].
  - intros L. rewrite (getFromCache_fresh _ _ _ _ _ _ G); [reflexivity|].
    cbn [entry_timestamp]. rewrite num_sub_Int, num_gtb_Int. lia.
  - intros L.
    destruct (getFromCache_expired cat key (Int t) now p' _ G) as (p2 & E2 & C2).
    { cbn [entry_timestamp]. rewrite num_sub_Int, num_gtb_Int. lia. }
    cbv zeta. rewrite E2. cbn [fst snd]. rewrite C2.
    split; [reflexivity|]. rewrite cache_map_with_same.
    split; [now apply get_delete_same|]. split.
    + intros k N. apply get_delete_other. congruence.
    + intros cat' N. apply cache_map_with_other. congruence.
  - intros q e ttl Gq A.
    destruct (getFromCache_expired cat key ttl now q e Gq A) as (q' & Eq & _).
    now rewrite Eq.
Qed.

Lemma C4_ttl_expiry_witness :
  let p := new_plugin "" None in
  let p1 := snd (setToCache "mediaData" "k" (VInt 7) 1000 p) in
  cache_wf (cache p)
  /\ getFromCache "mediaData" "k" (Some (ttlMap MediaData)) 2000 p1
     = (Ret (VInt 7), p1)
  /\ fst (getFromCache "mediaData" "k" (Some (ttlMap MediaData)) 700000 p1)
     = Ret VNull.
Proof.
  pose proof (C4_ttl_expiry MediaData "k" (VInt 7) 1000 600000 2000
                (new_plugin "" None) cache_wf_empty) as A.
  pose proof (C4_ttl_expiry MediaData "k" (VInt 7) 1000 600000 700000
                (new_plugin "" None) cache_wf_empty) as B.
  split; [exact cache_wf_empty|]. split.
  - apply (proj1 A). lia.
  - apply (proj1 (proj2 B)). lia.
Defined.

(** ** [fetchZoroData] *)

Ltac break_match :=
  match goal with
  | |- context [match ?x with _ => _ end] => destruct x eqn:?
  end.

Lemma throw_first_error_throws (errors : value) (p : plugin) :
  exists e, throw_first_error (A := value) errors p = (Throw e, p).
Proof.
  unfold throw_first_error, throw.
  repeat break_match; eexists; reflexivity.
Qed.

Lemma throw_first_error_token (errors : value) (p q : plugin) :
  accessToken p = accessToken q ->
  fst (throw_first_error (A := value) errors p)
  = fst (throw_first_error (A := value) errors q).
Proof.
  intros E. unfold throw_first_error, throw. rewrite E.
  repeat break_match; reflexivity.
Qed.

(** The part after the request either throws and leaves the cache as it
    is, or returns [result.data] after storing it. *)
Lemma handle_response_spec cat key response later p :
  (exists e, handle_response cat key response later p = (Throw e, p))
  \/ (exists result data p',
        handle_response cat key response later p = (Ret data, p')
        /\ get_prop response "json" = Some result
        /\ get_prop result "data" = Some data
        /\ truthy data = true
        /\ cache p' = with_map (cache p) cat
                        (JsMap.set (cache_map (cache p) cat) key
                                   (mkEntry data (Int later)))).
Proof.
  unfold handle_response.
  destruct (get_prop response "json") as [result|]; [|left; eexists; reflexivity].
  destruct (negb (truthy result)); [left; eexists; reflexivity|].
  destruct (get_prop result "errors") as [errors|]; [|left; eexists; reflexivity].
  match goal with |- context [if ?c then _ else _] => destruct c end.
  { left. apply throw_first_error_throws. }
  destruct (get_prop result "data") as [data|] eqn:D;
    [|left; eexists; reflexivity].
  destruct (negb (truthy data)) eqn:Td; [left; eexists; reflexivity|].
  right. destruct (setToCache_spec cat key data later p) as (p' & E & C & _).
  unfold bind. rewrite E. cbn.
  exists result, data. eexists. split; [reflexivity|].
  split; [reflexivity|]. split; [exact D|]. cbn [cache]. split.
  - apply negb_false_iff. exact Td.
  - exact C.
Qed.

Lemma handle_response_token cat key response later p q :
  accessToken p = accessToken q ->
  fst (handle_response cat key response later p)
  = fst (handle_response cat key response later q).
Proof.
  intros E. unfold handle_response.
  destruct (get_prop response "json") as [result|]; [|reflexivity].
  destruct (negb (truthy result)); [reflexivity|].
  destruct (get_prop result "errors") as [errors|]; [|reflexivity].
  match goal with |- context [if ?c then _ else _] => destruct c end.
  { now apply throw_first_error_token. }
  destruct (get_prop result "data") as [data|]; [|reflexivity].
  destruct (negb (truthy data)); [reflexivity|].
  destruct (setToCache_spec cat key data later p) as (p' & Ep & _).
  destruct (setToCache_spec cat key data later q) as (q' & Eq & _).
  unfold bind. rewrite Ep, Eq. reflexivity.
Qed.

(** With [nocache] set, [fetchZoroData] is the request followed by the
    handling of its response. *)
Lemma fetchZoroData_nocache config now net later p :
  truthy (obj_get config "nocache") = true ->
  exists p0,
    cache p0 = cache p /\ accessToken p0 = accessToken p /\
    fetchZoroData config now net later p =
    match net with
    | Rejects e =>
        (Throw e,
         mkPlugin (cache p0) (cacheTimeout p0) (accessToken p0) (storage p0)
           ((ERROR, "[Zoro] fetchZoroData() failed: " +++ exn_text e)
              :: console p0))
    | Responds response =>
        match handle_response (cacheType_of config) (createCacheKey config)
                              response later p0 with
        | (Ret a, p') => (Ret a, p')
        | (Throw e, p') =>
            (Throw e,
             mkPlugin (cache p') (cacheTimeout p') (accessToken p') (storage p')
               ((ERROR, "[Zoro] fetchZoroData() failed: " +++ exn_text e)
                  :: console p'))
        end
    end.
Proof.
  intros Hn. unfold fetchZoroData. rewrite Hn. cbn [negb].
  unfold bind at 1. unfold ret at 1. cbn [truthy].
  unfold bind at 1. unfold write at 1.
  eexists (mkPlugin _ _ _ _ _). split; [reflexivity|]. split; [reflexivity|].
  unfold try_catch. destruct net as [e|response].
  - reflexivity.
  - cbn [cache cacheTimeout accessToken storage console].
    match goal with |- context [handle_response ?a ?b ?c ?d ?e] =>
      destruct (handle_response a b c d e) as [[a'|e'] p'] end; reflexivity.
Qed.

(** C1, as stated, fails: with [nocache] set the call returns the fetched
    result, and it has written that result to the cache, which held
    nothing before. *)
Lemma C1_nocache_counterexample :
  let p := new_plugin "" None in
  let r := fetchZoroData config_nocache 1000 (Responds response_42) 1200 p in
  truthy (obj_get config_nocache "nocache") = true
  /\ fst r = Ret data_42
  /\ mediaData (cache p) = []
  /\ mediaData (cache (snd r))
     = [(createCacheKey config_nocache, mkEntry data_42 (Int 1200))]
  /\ cache (snd r) <> cache p.
Proof.
  cbv zeta. repeat split; try (vm_compute; reflexivity).
  vm_compute. discriminate.
Qed.

(** C1, amended. With [nocache] set, [fetchZoroData] does not read the
    cache: its result is the same whatever the cache holds, and no entry is
    looked up or expired.  When the request fails, or its response is
    refused, the cache is left as it is.  When the call returns, it returns
    the [data] of the response, and the cache is the one before the call
    with that result stored at the time of the response under the derived
    key, in the category of the configuration. *)
Theorem C1_nocache_skips_read (config : object) (now later : Z)
    (net : reply) (p : plugin) :
  truthy (obj_get config "nocache") = true ->
  let r := fetchZoroData config now net later p in
  (forall q, accessToken q = accessToken p ->
             fst (fetchZoroData config now net later q) = fst r)
  /\ (forall e, fst r = Throw e -> cache (snd r) = cache p)
  /\ (forall data, fst r = Ret data ->
        (exists response result,
            net = Responds response
            /\ get_prop response "json" = Some result
            /\ get_prop result "data" = Some data)
        /\ cache (snd r)
           = with_map (cache p) (cacheType_of config)
               (JsMap.set (cache_map (cache p) (cacheType_of config))
                          (createCacheKey config)
                          (mkEntry data (Int later)))).
Proof.
  intros Hn r.
  destruct (fetchZoroData_nocache config now net later p Hn)
    as (p0 & C0 & T0 & E).
  assert (R : r = fetchZoroData config now net later p) by reflexivity.
  clearbody r. rewrite E in R. clear E. split; [|split].
  - intros q Tq.
    destruct (fetchZoroData_nocache config now net later q Hn)
      as (q0 & _ & Tq0 & Eq).
    rewrite Eq, R. destruct net as [e|response]; [reflexivity|].
    pose proof (handle_response_token (cacheType_of config)
                  (createCacheKey config) response later q0 p0) as H.
    destruct (handle_response _ _ response later q0) as [[a|e] q1];
      destruct (handle_response _ _ response later p0) as [[a'|e'] p1];
      cbn in *; apply H; congruence.
  - intros e He. subst r. destruct net as [e0|response]; [now cbn|].
    destruct (handle_response_spec (cacheType_of config)
                (createCacheKey config) response later p0)
      as [(e1 & H)|(result & data & p' & H & _)]; rewrite H in *; cbn in *.
    + assumption.
    + discriminate.
  - intros data Hd. subst r. destruct net as [e0|response]; [discriminate|].
    destruct (handle_response_spec (cacheType_of config)
                (createCacheKey config) response later p0)
      as [(e1 & H)|(result & data' & p' & H & J & D & _ & C)];
      rewrite H in *; cbn in *; [discriminate|].
    injection Hd as ->. split.
    + exists response, result. auto.
    + now rewrite C, C0.
Qed.

Lemma C1_nocache_skips_read_witness :
  let p := new_plugin "" None in
  let r := fetchZoroData config_nocache 1000 (Responds response_42) 1200 p in
  truthy (obj_get config_nocache "nocache") = true
  /\ cache (snd r)
     = with_map (cache p) MediaData
         (JsMap.set [] (createCacheKey config_nocache)
                    (mkEntry data_42 (Int 1200))).
Proof.
  split; [reflexivity|].
  apply (proj2 (proj2 (C1_nocache_skips_read config_nocache 1000 1200
                         (Responds response_42) (new_plugin "" None)
                         eq_refl)) data_42).
  vm_compute. reflexivity.
Defined.

(** ** [clearCacheForMedia] *)

Lemma delete_app_fresh {V} (pre m : JsMap.t V) k v :
  (forall kv, In kv pre -> fst kv <> k) ->
  JsMap.delete (pre ++ (k, v) :: m) k = pre ++ m.
Proof.
  induction pre as [|[k0 v0] pre IH]; cbn; intros H.
  - now rewrite String.eqb_refl.
  - destruct (String.eqb_spec k0 k) as [->|N].
    + exfalso. apply (H (k, v0)); auto.
    + f_equal. apply IH. intros kv I. apply H. now right.
Qed.

Lemma prune_keys_filter E id ty (m pre : JsMap.t entry) :
  (forall kv, In kv pre -> key_cleared E id (fst kv) = false) ->
  fst (fst (prune_keys E id ty (JsMap.keys m) (pre ++ m)))
  = pre ++ filter (fun kv => negb (key_cleared E id (fst kv))) m.
Proof.
  unfold JsMap.keys.
  revert pre. induction m as [|[k v] m IH]; intros pre H; cbn.
  - reflexivity.
  - unfold key_cleared at 1.
    destruct (key_matches E id k) as [[|]|] eqn:K; cbn [negb].
    + rewrite delete_app_fresh.
      * specialize (IH pre H).
        destruct (prune_keys E id ty (map fst m) (pre ++ m)) as [[m' n] l].
        exact IH.
      * intros kv I N. specialize (H kv I). unfold key_cleared in H.
        rewrite N, K in H. discriminate.
    + change (pre ++ (k, v) :: m) with (pre ++ [(k, v)] ++ m).
      rewrite app_assoc, IH, <- app_assoc; [reflexivity|].
      intros kv [I| [<-|[]]]%in_app_or; [auto|].
      unfold key_cleared. cbn. now rewrite K.
    + change (pre ++ (k, v) :: m) with (pre ++ [(k, v)] ++ m).
      rewrite app_assoc, IH, <- app_assoc; [reflexivity|].
      intros kv [I| [<-|[]]]%in_app_or; [auto|].
      unfold key_cleared. cbn. now rewrite K.
Qed.

Lemma prune_spec cat id p :
  exists n p',
    prune cat ["mediaId"] id p = (Ret n, p')
    /\ cache p' = with_map (cache p) cat (pruned id (cache_map (cache p) cat))
    /\ cacheTimeout p' = cacheTimeout p
    /\ accessToken p' = accessToken p
    /\ storage p' = storage p.
Proof.
  unfold prune, bind, get_cache. cbv beta iota.
  pose proof (prune_keys_filter ["mediaId"] id (category_name cat)
                (cache_map (cache p) cat) [] (fun _ F => match F with end)) as H.
  cbn [app] in H.
  destruct (prune_keys ["mediaId"] id (category_name cat)
              (JsMap.keys (cache_map (cache p) cat)) (cache_map (cache p) cat))
    as [[m n] logs].
  cbn in H. subst m. cbn. do 2 eexists. split; [reflexivity|]. cbn. auto.
Qed.

(** What [clearCacheForMedia] leaves of the cache when it accepts the id. *)
Lemma clearCacheForMedia_spec mediaId p :
  truthy (VNum (parseInt mediaId)) = true ->
  exists p',
    clearCacheForMedia mediaId p = (Ret tt, p')
    /\ cache p' = mkCache []
                    (pruned (parseInt mediaId) (mediaData (cache p)))
                    (pruned (parseInt mediaId) (searchResults (cache p)))
    /\ cacheTimeout p' = cacheTimeout p.
Proof.
  intros T. unfold clearCacheForMedia. rewrite T. cbn [negb].
  destruct (prune_spec MediaData (parseInt mediaId) p)
    as (n1 & p1 & E1 & C1 & T1 & _).
  destruct (prune_spec UserData (parseInt mediaId) p1)
    as (n2 & p2 & E2 & C2 & T2 & _).
  destruct (prune_spec SearchResults (parseInt mediaId) p2)
    as (n3 & p3 & E3 & C3 & T3 & _).
  unfold bind at 1. rewrite E1. unfold bind at 1. rewrite E2.
  unfold bind at 1. rewrite E3.
  unfold bind, write, clearListCaches, bind, get_cache, put_cache, write.
  cbn. eexists. split; [reflexivity|]. cbn. split; [|congruence].
  rewrite C3, C2, C1. reflexivity.
Qed.

Lemma get_pruned_cleared id (m : JsMap.t entry) k :
  key_cleared ["mediaId"] id k = true -> JsMap.get (pruned id m) k = None.
Proof.
  intros K. unfold pruned. induction m as [|[k' v'] m IH]; cbn; [reflexivity|].
  destruct (key_cleared ["mediaId"] id k') eqn:K'; cbn; [assumption|].
  destruct (String.eqb_spec k' k) as [->|]; [congruence|assumption].
Qed.

Lemma get_pruned_kept id (m : JsMap.t entry) k :
  key_cleared ["mediaId"] id k = false ->
  JsMap.get (pruned id m) k = JsMap.get m k.
Proof.
  intros K. unfold pruned. induction m as [|[k' v'] m IH]; cbn; [reflexivity|].
  destruct (key_cleared ["mediaId"] id k') eqn:K'; cbn.
  - destruct (String.eqb_spec k' k) as [->|]; [congruence|assumption].
  - destruct (String.eqb k' k); [reflexivity|assumption].
Qed.

Lemma in_pruned id (m : JsMap.t entry) k e :
  In (k, e) (pruned id m) <->
  In (k, e) m /\ key_cleared ["mediaId"] id k = false.
Proof.
  unfold pruned. rewrite filter_In. cbn. now rewrite negb_true_iff.
Qed.

Lemma key_cleared_unparsed E id k :
  JSON_parse k = None -> key_cleared E id k = false.
Proof. intros H. unfold key_cleared, key_matches. now rewrite H. Qed.

(** A key that spells the id as text, the way a code block does, is not
    matched by [parsed[k] === id] and stays in the cache. *)
Remark clearCacheForMedia_keeps_text_id (p : plugin) :
  let key := createCacheKey config_single_block in
  JsMap.get (mediaData (cache (snd (clearCacheForMedia (VInt 42) p)))) key
  = JsMap.get (mediaData (cache p)) key.
Proof.
  intros key.
  destruct (clearCacheForMedia_spec (VInt 42) p eq_refl) as (q & E & C & _).
  rewrite E. cbn [snd]. rewrite C. cbn [mediaData].
  apply get_pruned_kept. vm_compute. reflexivity.
Qed.

(** C10. When [parseInt] makes a non-zero number of the id,
    [clearCacheForMedia] returns with the whole [userData] category empty,
    and with [searchResults] (and [mediaData]) holding, in their order, the
    entries whose key does not parse to an object with that [mediaId]: a
    key whose text has the id is deleted wherever it stands, and a key that
    is not JSON is kept and the sweep goes on past it. *)
Theorem C10_clear_is_coarse (mediaId : value) (p : plugin) :
  truthy (VNum (parseInt mediaId)) = true ->
  let id := parseInt mediaId in
  let p' := snd (clearCacheForMedia mediaId p) in
  fst (clearCacheForMedia mediaId p) = Ret tt
  /\ userData (cache p') = []
  /\ searchResults (cache p') = pruned id (searchResults (cache p))
  /\ mediaData (cache p') = pruned id (mediaData (cache p))
  /\ (forall k, key_cleared ["mediaId"] id k = true ->
        JsMap.get (searchResults (cache p')) k = None)
  /\ (forall k e, In (k, e) (searchResults (cache p)) ->
        JSON_parse k = None -> In (k, e) (searchResults (cache p')))
  /\ (forall k e, In (k, e) (searchResults (cache p)) ->
        key_cleared ["mediaId"] id k = false ->
        In (k, e) (searchResults (cache p'))).
Proof.
  intros T id p'.
  destruct (clearCacheForMedia_spec mediaId p T) as (q & E & C & _).
  assert (P : p' = q) by (unfold p'; now rewrite E). clearbody p'. subst q.
  fold id in C. rewrite E, C. cbn [fst userData searchResults mediaData].
  repeat split.
  - intros k K. now apply get_pruned_cleared.
  - intros k e I U. apply in_pruned. split; [assumption|].
    now apply key_cleared_unparsed.
  - intros k e I K. apply in_pruned. now split.
Qed.

Lemma C10_clear_is_coarse_witness :
  let p := mkPlugin
             (mkCache [("list-alice", mkEntry VNull (Int 5))]
                      []
                      [ ("not json", mkEntry VNull (Int 1));
                        (createCacheKey (config_single 42), mkEntry VNull (Int 2));
                        (createCacheKey (config_single 99), mkEntry VNull (Int 3)) ])
             (Int 240000) "" None [] in
  truthy (VNum (parseInt (VStr "42"))) = true
  /\ userData (cache (snd (clearCacheForMedia (VStr "42") p))) = []
  /\ searchResults (cache (snd (clearCacheForMedia (VStr "42") p)))
     = [ ("not json", mkEntry VNull (Int 1));
         (createCacheKey (config_single 99), mkEntry VNull (Int 3)) ].
Proof.
  cbv zeta. split; [reflexivity|].
  match goal with |- userData (cache (snd (clearCacheForMedia _ ?p))) = _ /\ _ =>
    pose proof (C10_clear_is_coarse (VStr "42") p eq_refl) as H end.
  cbv zeta in H. destruct H as (_ & U & S & _).
  split; [exact U|]. rewrite S. vm_compute. reflexivity.
Defined.

(** ** The request queue *)

Section QueueFacts.

Import RequestQueue.

Lemma seq_cons_inv (l : list nat) a n k :
  a :: l = seq n k -> a = n /\ exists k', k = S k' /\ l = seq (S n) k'.
Proof.
  destruct k as [|k']; cbn; [discriminate|]. intros [= -> ->]. eauto.
Qed.

Ltac fin :=
  cbn; auto;
  try solve [ constructor; auto; intros e [<-|I]; cbn; [lia|auto] ];
  try solve [ do 3 eexists; split; reflexivity ];
  try solve [ intros e [<-|[<-|I]]; cbn; [lia|lia|auto] ];
  try solve [ intros e [<-|I]; cbn; [lia|auto] ];
  try solve [ congruence ].

Lemma process_submitted s : submitted (process s) = submitted s.
Proof.
  destruct s as [q dl ip icon ld aw tm st sub ck h]. unfold process. cbn.
  destruct ip; cbn.
  - destruct q; reflexivity.
  - destruct q as [|[id [e|]] rest]; cbn; try reflexivity;
      destruct (length rest), icon; reflexivity.
Qed.

(** [process] on a state where it may start a task. *)
Lemma process_ready_cases d n s :
  ready d n s ->
  match queue s with
  | [] => ready d n (process s) /\ queue (process s) = []
          /\ settled (process s) = settled s
  | tk :: rest =>
      task_id tk = n /\ queue (process s) = rest /\
      match throws tk with
      | Some e => waiting d n (process s)
                  /\ settled (process s) = (n, Rejected e) :: settled s
      | None => running d n (process s)
                /\ settled (process s) = settled s
      end
  end.
Proof.
  intros R. destruct s as [q dl ip icon ld aw tm st sub ck h].
  destruct R as [Rd Rp Ra Rt Rh Rq Rl Rti Rg Rs]. cbn in *. subst.
  unfold process. cbn.
  destruct q as [|tk rest]; cbn.
  - split; [|auto]. unfold hideGlobalLoader. constructor; cbn; auto.
  - apply seq_cons_inv in Rq. destruct Rq as (Hid & k' & Hk & Hrest).
    assert (Hrest' : map task_id rest = seq (S n) (sub - S n)).
    { replace (sub - S n)%nat with k' by lia. exact Hrest. }
    assert (Hle : (S n <= sub)%nat) by lia.
    destruct tk as [id thr]. cbn in Hid. subst id.
    assert (HS : hist d true n (Started n ck :: h)).
    { constructor; auto. }
    split; [reflexivity|].
    destruct thr as [err|]; cbn.
    + destruct (length rest), icon; cbn;
        (split; [reflexivity|]); (split; [|reflexivity]); constructor; fin.
    + destruct (length rest), icon; cbn;
        (split; [reflexivity|]); (split; [|reflexivity]); constructor; fin.
Qed.

Lemma process_clock s : clock (process s) = clock s.
Proof.
  destruct s as [q dl ip icon ld aw tm st sub ck h]. unfold process. cbn.
  destruct ip; cbn.
  - destruct q; reflexivity.
  - destruct q as [|[id [e|]] rest]; cbn; try reflexivity;
      destruct (length rest), icon; reflexivity.
Qed.

Lemma process_ready d n s :
  ready d n s ->
  inv d (process s)
  /\ submitted (process s) = submitted s
  /\ clock (process s) = clock s.
Proof.
  intros R. split; [|split; [apply process_submitted|apply process_clock]].
  pose proof (process_ready_cases d n s R) as P.
  destruct (queue s) as [|tk rest].
  - destruct P as (R' & Q & _). now apply (inv_idle _ _ n).
  - destruct P as (_ & _ & P).
    destruct (throws tk); destruct P as [P _];
      [now apply (inv_waiting _ _ n)|now apply (inv_running _ _ n)].
Qed.

Ltac proj_simpl :=
  cbn [queue delay isProcessing showLoadingIcon loader awaiting timers
       settled submitted clock history task_id throws tick app map].

Lemma seq_snoc a k : seq a (S k) = seq a k ++ [(a + k)%nat].
Proof. rewrite seq_S. reflexivity. Qed.

Lemma hist_gap d b n h :
  hist d b n h ->
  forall i o t, In (Settled i o t) h ->
    (exists hd, h = Settled i o t :: hd)
    \/ (exists e, In e h /\ t + d <= obs_time e).
Proof.
  induction 1 as [|n h ts H IH Ht Hg|n h o te H IH Ht]; intros i o' t I.
  - destruct I.
  - destruct I as [E|I]; [discriminate|]. right.
    exists (Started n ts). split; [now left|]. cbn. eauto.
  - destruct I as [E|I].
    + injection E as -> -> ->. left. eauto.
    + right. destruct (IH _ _ _ I) as [(hd & ->)|(e & Ie & L)].
      * inversion H.
      * exists e. split; [now right|assumption].
Qed.

Lemma process_busy s :
  isProcessing s = true -> queue s <> [] -> process s = s.
Proof.
  intros P Q. unfold process. rewrite P. cbn.
  destruct (queue s); [contradiction|reflexivity].
Qed.

Lemma mem_nat_single id n : mem_nat id [n] = true -> id = n.
Proof.
  unfold mem_nat. cbn. rewrite orb_false_r. apply Nat.eqb_eq.
Qed.

Lemma mem_Z_single x y : mem_Z x [y] = true -> x = y.
Proof.
  unfold mem_Z. cbn. rewrite orb_false_r. apply Z.eqb_eq.
Qed.

Lemma step_inv d s e s' :
  inv d s -> step s e = Some s' ->
  inv d s' /\ clock s <= clock s'.
Proof.
  intros I. unfold step.
  destruct (event_time e <? clock s) eqn:Tm; [discriminate|].
  apply Z.ltb_ge in Tm.
  destruct e as [thr now|id o now|dl now]; cbn [event_time] in Tm.
  - (* add *)
    intros [= <-]. unfold add.
    destruct I as [n R Q|n R|n R].
    + destruct s as [q dl ip icon ld aw tm st sub ck h].
      destruct R as [Rd Rp Ra Rt Rh Rq Rl Rti Rg Rs]. cbn in *. subst.
      cbn in Rq. assert (sub = n).
      { destruct (sub - n)%nat eqn:E; [lia|discriminate]. }
      subst sub.
      match goal with |- inv _ (process ?x) /\ _ =>
        destruct (process_ready d n x) as (Hi & _ & Hc) end.
      { constructor; proj_simpl; auto.
        - replace (S n - n)%nat with 1%nat by lia. reflexivity.
        - intros e I. specialize (Rti e I). lia.
        - intros i o t I. specialize (Rg i o t I). lia. }
      split; [assumption|]. rewrite Hc. cbn. lia.
    + destruct s as [q dl ip icon ld aw tm st sub ck h].
      destruct R as [Rd Rp Ra Rt Rh Rq Rl Rti Rs]. cbn in *. subst.
      rewrite process_busy; cbn; [|reflexivity|now destruct q].
      split; [|lia]. apply (inv_running _ _ n). constructor; proj_simpl; auto.
      * rewrite map_app, Rq. cbn [map task_id].
        replace (S sub - S n)%nat with (S (sub - S n)) by lia.
        rewrite seq_snoc. do 2 f_equal. lia.
      * intros e I. specialize (Rti e I). lia.
    + destruct s as [q dl ip icon ld aw tm st sub ck h].
      destruct R as [Rd Rp Ra Rh Rt Rq Rl Rti Rs]. cbn in *. subst.
      rewrite process_busy; cbn; [|reflexivity|now destruct q].
      split; [|lia]. apply (inv_waiting _ _ n). constructor; proj_simpl; auto.
      * rewrite map_app, Rq. cbn [map task_id].
        replace (S sub - S n)%nat with (S (sub - S n)) by lia.
        rewrite seq_snoc. do 2 f_equal. lia.
      * intros e I. specialize (Rti e I). lia.
  - (* settle *)
    destruct (mem_nat id (awaiting s)) eqn:Mem; [|discriminate].
    intros [= <-].
    destruct I as [n R Q|n R|n R].
    + rewrite (r_awaiting _ _ _ R) in Mem. discriminate.
    + destruct s as [q dl ip icon ld aw tm st sub ck h].
      destruct R as [Rd Rp Ra Rt Rh Rq Rl Rti Rs]. cbn in *. subst.
      apply mem_nat_single in Mem. subst id.
      cbn. rewrite Nat.eqb_refl. split; [|cbn; lia].
      apply (inv_waiting _ _ n). unfold finish. constructor; proj_simpl; auto.
      * constructor; auto. intros e I. specialize (Rti e I). lia.
      * do 3 eexists. split; reflexivity.
      * intros e [<-|I]; cbn; [lia|]. specialize (Rti e I). lia.
    + rewrite (w_awaiting _ _ _ R) in Mem. discriminate.
  - (* timeout *)
    destruct (mem_Z dl (timers s) && (dl <=? now))%bool eqn:Mem; [|discriminate].
    apply andb_prop in Mem. destruct Mem as [Mem Due]. apply Z.leb_le in Due.
    intros [= <-].
    destruct I as [n R Q|n R|n R].
    + rewrite (r_timers _ _ _ R) in Mem. discriminate.
    + rewrite (u_timers _ _ _ R) in Mem. discriminate.
    + destruct s as [q dl0 ip icon ld aw tm st sub ck h].
      destruct R as [Rd Rp Ra Rh (o & te & h0 & Eh & Et) Rq Rl Rti Rs].
      cbn in *. subst.
      apply mem_Z_single in Mem. subst dl.
      unfold on_timeout. cbn. rewrite Z.eqb_refl.
      match goal with |- inv _ (process ?x) /\ _ =>
        destruct (process_ready d (S n) x) as (Hi & _ & Hc) end.
      { constructor; proj_simpl; auto.
        - intros e I. specialize (Rti e I). lia.
        - intros i o' t I.
          destruct (hist_gap _ _ _ _ Rh _ _ _ I) as [(hd & E)|(e & Ie & L)].
          + injection E as -> -> -> ->. lia.
          + specialize (Rti e Ie). lia. }
      split; [assumption|]. rewrite Hc. cbn. lia.
Qed.

Lemma init_inv d icon t0 : inv d (configure d (constructor icon t0)).
Proof.
  apply (inv_idle _ _ 0%nat); [|reflexivity].
  constructor; cbn; auto; try contradiction. constructor.
Qed.

Lemma run_app s evs e :
  run s (evs ++ [e]) =
  match run s evs with Some s1 => step s1 e | None => None end.
Proof.
  revert s. induction evs as [|x evs IH]; intros s; cbn.
  - destruct (step s e); reflexivity.
  - destruct (step s x); [apply IH|reflexivity].
Qed.

Lemma run_inv d s evs s' : inv d s -> run s evs = Some s' -> inv d s'.
Proof.
  revert s. induction evs as [|e evs IH]; intros s I; cbn.
  - now intros [= <-].
  - destruct (step s e) as [s1|] eqn:E; [|discriminate].
    apply IH. eapply step_inv; eauto.
Qed.

Lemma inv_hist d s :
  inv d s ->
  exists b n,
    hist d b n (history s)
    /\ ((if b then S n else n) <= submitted s)%nat
    /\ (length (awaiting s) <= 1)%nat
    /\ delay s = d.
Proof.
  intros [n R Q|n R|n R].
  - exists false, n. destruct R. rewrite r_awaiting0. cbn. auto.
  - exists true, n. destruct R. rewrite u_awaiting0. cbn. auto.
  - exists false, (S n). destruct R. rewrite w_awaiting0. cbn. auto.
Qed.

Lemma hist_ids d b n h :
  hist d b n h ->
  map obs_id (filter is_start h) = rev (seq 0 (if b then S n else n)).
Proof.
  induction 1 as [|n h ts H IH Ht Hg|n h o te H IH Ht].
  - reflexivity.
  - cbn [filter is_start map obs_id]. rewrite IH, seq_S, rev_app_distr.
    reflexivity.
  - cbn [filter is_start]. exact IH.
Qed.

Lemma hist_false_head d n h e :
  hist d false n (e :: h) -> exists i o t, e = Settled i o t.
Proof. inversion 1; eauto. Qed.

Lemma hist_true_head d n h i ti :
  hist d true n (Started i ti :: h) -> i = n.
Proof. inversion 1; auto. Qed.

(** In a history, what comes right after the start of a task is the
    moment it settles. *)
Lemma hist_adjacent d b n h :
  hist d b n h ->
  forall p i ti c, h = p ++ Started i ti :: c ->
    p = [] \/ exists o t p', p = p' ++ [Settled i o t].
Proof.
  induction 1 as [|n h ts H IH Ht Hg|n h o te H IH Ht]; intros p i ti c E.
  - destruct p; discriminate.
  - destruct p as [|x p]; [now left|]. right.
    cbn in E. injection E as <- E.
    destruct (IH _ _ _ _ E) as [->|(o & t & p' & ->)].
    + cbn in E. subst h.
      destruct (hist_false_head _ _ _ _ H) as (? & ? & ? & ?). discriminate.
    + exists o, t, (Started n ts :: p'). reflexivity.
  - destruct p as [|x p]; [discriminate|]. right.
    cbn in E. injection E as <- E.
    destruct (IH _ _ _ _ E) as [->|(o' & t & p' & ->)].
    + cbn in E. subst h. apply hist_true_head in H. subst i.
      exists o, te, []. reflexivity.
    + exists o', t, (Settled n o te :: p'). reflexivity.
Qed.

Lemma hist_spacing d b n h :
  hist d b n h ->
  forall a j tj r, h = a ++ Started j tj :: r ->
    forall i o t, In (Settled i o t) r -> t + d <= tj.
Proof.
  induction 1 as [|n h ts H IH Ht Hg|n h o te H IH Ht]; intros a j tj r E.
  - destruct a; discriminate.
  - destruct a as [|x a]; cbn in E.
    + injection E as <- <- <-. exact Hg.
    + injection E as <- E. eapply IH; eauto.
  - destruct a as [|x a]; cbn in E; [discriminate|].
    injection E as <- E. eapply IH; eauto.
Qed.

Lemma rev_eq_app {A} (l l1 l2 : list A) :
  rev l = l1 ++ l2 -> l = rev l2 ++ rev l1.
Proof.
  intros E. rewrite <- (rev_involutive l), E. apply rev_app_distr.
Qed.

Lemma hist_settles_between d b n h :
  hist d b n h -> settles_between (rev h).
Proof.
  intros H h1 i ti h2 j tj h3 E.
  apply rev_eq_app in E. cbn [rev] in E.
  rewrite rev_app_distr in E. cbn [rev] in E.
  repeat rewrite <- app_assoc in E. cbn [app] in E.
  change (rev h3 ++ Started j tj :: rev h2 ++ Started i ti :: rev h1)
    with (rev h3 ++ [Started j tj] ++ rev h2 ++ Started i ti :: rev h1) in E.
  rewrite 2 app_assoc in E.
  destruct (hist_adjacent _ _ _ _ H _ _ _ _ E) as [N|(o & t & p' & P)].
  - destruct (rev h3); destruct (rev h2); discriminate.
  - destruct h2 as [|x h2].
    + cbn [rev] in P. rewrite app_nil_r in P.
      apply app_inj_tail in P. destruct P as [_ P]. discriminate.
    + cbn [rev] in P. rewrite app_assoc in P.
      apply app_inj_tail in P. destruct P as [_ ->].
      exists o, t. now left.
Qed.

Lemma hist_spaced d b n h : hist d b n h -> spaced d (rev h).
Proof.
  intros H h1 i o t h2 j tj h3 E.
  apply rev_eq_app in E. cbn [rev] in E.
  rewrite rev_app_distr in E. cbn [rev] in E.
  repeat rewrite <- app_assoc in E. cbn [app] in E.
  eapply (hist_spacing _ _ _ _ H); [exact E|].
  apply in_or_app. right. now left.
Qed.

(** What [process] does to the queue, the operations in flight and the
    promises. *)
Lemma process_cases s :
  (queue (process s) = queue s /\ awaiting (process s) = awaiting s
   /\ settled (process s) = settled s)
  \/ (exists tk, queue s = tk :: queue (process s)
        /\ ((exists e, throws tk = Some e
                /\ awaiting (process s) = awaiting s
                /\ settled (process s) = (task_id tk, Rejected e) :: settled s)
            \/ (throws tk = None
                /\ awaiting (process s) = task_id tk :: awaiting s
                /\ settled (process s) = settled s))).
Proof.
  destruct s as [q dl ip icon ld aw tm st sub ck h]. unfold process. cbn.
  destruct ip; cbn.
  - left. destruct q; cbn; auto.
  - destruct q as [|[id thr] rest]; cbn; [left; auto|].
    right. exists (mkTask id thr).
    destruct thr as [e|]; destruct (length rest), icon; cbn;
      (split; [reflexivity|]); eauto 10.
Qed.

Lemma process_linked evs s : linked evs s -> linked evs (process s).
Proof.
  intros [Lc Lq La Ls Ld].
  destruct (process_cases s)
    as [(Q & A & S)|(tk & Q & [(e & T & A & S)|(T & A & S)])];
    constructor; rewrite ?process_submitted, ?A, ?S; auto.
  - intros tk I. apply Lq. now rewrite <- Q.
  - intros tk' I. apply Lq. rewrite Q. now right.
  - intros id o [[= <- <-]|I]; [|auto].
    right. exists e. split; [|reflexivity]. rewrite <- T. apply Lq.
    rewrite Q. now left.
  - intros id o t I. right. eauto.
  - intros tk' I. apply Lq. rewrite Q. now right.
  - intros id [<-|I]; [|auto]. rewrite <- T. apply Lq. rewrite Q. now left.
Qed.

Lemma submissions_app evs1 evs2 :
  submissions (evs1 ++ evs2) = submissions evs1 ++ submissions evs2.
Proof.
  induction evs1 as [|[thr t|id o t|dl t] evs1 IH]; cbn; congruence.
Qed.

Lemma nth_error_app_Some {A} (l1 l2 : list A) n x :
  nth_error l1 n = Some x -> nth_error (l1 ++ l2) n = Some x.
Proof.
  intros H. rewrite nth_error_app1; [assumption|].
  apply nth_error_Some. congruence.
Qed.

Lemma own_outcome_app evs1 evs2 id o :
  own_outcome evs1 id o -> own_outcome (evs1 ++ evs2) id o.
Proof.
  intros [(t & I)|(e & N & ->)].
  - left. exists t. apply in_or_app. now left.
  - right. exists e. split; [|reflexivity].
    rewrite submissions_app. now apply nth_error_app_Some.
Qed.

Lemma in_remove_nat x y l : In x (remove_nat y l) -> In x l.
Proof.
  induction l as [|z l IH]; cbn; [tauto|].
  destruct (Nat.eqb y z); cbn; tauto.
Qed.

Lemma step_linked evs s e s' :
  linked evs s -> step s e = Some s' -> linked (evs ++ [e]) s'.
Proof.
  intros [Lc Lq La Ls Ld]. unfold step.
  destruct (event_time e <? clock s); [discriminate|].
  destruct e as [thr now|id o now|dl now].
  - intros [= <-]. unfold add. apply process_linked.
    constructor; cbn;
      rewrite ?submissions_app; cbn [submissions].
    + rewrite length_app. cbn. lia.
    + intros tk [I|[<-|[]]]%in_app_or.
      * apply nth_error_app_Some. auto.
      * cbn. rewrite nth_error_app2, <- Lc, Nat.sub_diag; [reflexivity|lia].
    + intros id I. apply nth_error_app_Some. auto.
    + intros id o I. apply own_outcome_app. auto.
    + intros id o t [I|[E|[]]]%in_app_or; [eauto|discriminate].
  - destruct (mem_nat id (awaiting s)); [|discriminate]. intros [= <-].
    unfold finish. constructor; cbn;
      rewrite ?submissions_app; cbn [submissions]; rewrite ?app_nil_r; auto.
    + intros id' I. apply in_remove_nat in I. auto.
    + intros id' o' [[= <- <-]|I].
      * left. exists now. apply in_or_app. right. now left.
      * apply own_outcome_app. auto.
    + intros id' o' t [I|[E|[]]]%in_app_or.
      * right. eauto.
      * injection E as <- <- <-. now left.
  - destruct (mem_Z dl (timers s) && (dl <=? now))%bool; [|discriminate].
    intros [= <-]. unfold on_timeout. apply process_linked.
    constructor; cbn;
      rewrite ?submissions_app; cbn [submissions]; rewrite ?app_nil_r; auto.
    + intros id o I. apply own_outcome_app. auto.
    + intros id o t [I|[E|[]]]%in_app_or; [eauto|discriminate].
Qed.

Lemma init_linked d icon t0 : linked [] (configure d (constructor icon t0)).
Proof. constructor; cbn; try contradiction; auto. Qed.

Lemma run_invariants d icon t0 evs s :
  run (configure d (constructor icon t0)) evs = Some s ->
  inv d s /\ linked evs s.
Proof.
  revert s. induction evs as [|e evs IH] using rev_ind; intros s.
  - cbn. intros [= <-]. split; [apply init_inv|apply init_linked].
  - rewrite run_app.
    destruct (run (configure d (constructor icon t0)) evs) as [s1|];
      [|discriminate].
    intros E. destruct (IH s1 eq_refl) as [I L]. split.
    + eapply step_inv; eauto.
    + eapply step_linked; eauto.
Qed.

Lemma step_timeout_waiting d n s :
  waiting d n s ->
  exists dl now x,
    step s (Timeout dl now) = Some (process x)
    /\ ready d (S n) x /\ queue x = queue s /\ settled x = settled s
    /\ submitted x = submitted s.
Proof.
  intros R. destruct s as [q dl0 ip icon ld aw tm st sub ck h].
  destruct R as [Rd Rp Ra Rh (o & te & h0 & Eh & Et) Rq Rl Rti Rs].
  cbn in *. subst.
  exists (te + d), (Z.max ck (te + d)). eexists.
  unfold step. cbn [event_time clock].
  replace (Z.max ck (te + d) <? ck) with false by (symmetry; apply Z.ltb_ge; lia).
  unfold mem_Z. cbn [existsb timers]. rewrite Z.eqb_refl. cbn [orb andb].
  replace (te + d <=? Z.max ck (te + d)) with true by (symmetry; apply Z.leb_le; lia).
  unfold on_timeout. cbn. rewrite Z.eqb_refl.
  split; [reflexivity|]. split; [|cbn; auto].
  constructor; proj_simpl; auto.
  - intros e I. specialize (Rti e I). lia.
  - intros i o' t I.
    destruct (hist_gap _ _ _ _ Rh _ _ _ I) as [(hd & E)|(e & Ie & L)].
    + injection E as -> -> -> ->. lia.
    + specialize (Rti e Ie). lia.
Qed.

Lemma step_settle_running d n s o :
  running d n s ->
  exists s',
    step s (Settle n o (clock s)) = Some s'
    /\ waiting d n s' /\ queue s' = queue s
    /\ settled s' = (n, o) :: settled s
    /\ submitted s' = submitted s.
Proof.
  intros R. destruct s as [q dl ip icon ld aw tm st sub ck h].
  destruct R as [Rd Rp Ra Rt Rh Rq Rl Rti Rs]. cbn in *. subst.
  unfold step. cbn [event_time clock]. rewrite Z.ltb_irrefl.
  unfold mem_nat. cbn [existsb awaiting]. rewrite Nat.eqb_refl. cbn [orb].
  eexists. split; [reflexivity|]. cbn. rewrite Nat.eqb_refl.
  split; [|auto]. unfold finish. constructor; proj_simpl; auto.
  - constructor; auto.
  - do 3 eexists. split; reflexivity.
  - intros e [<-|I]; cbn; [lia|auto].
Qed.

(** From the wait that follows a task, the queue runs dry: every queued
    task is started in its turn and settles with its own outcome. *)
Lemma drain_waiting d (choice : nat -> outcome) :
  forall k s n,
    length (queue s) = k -> waiting d n s ->
    exists evs s' m,
      run s evs = Some s'
      /\ ready d m s' /\ queue s' = []
      /\ submitted s' = submitted s
      /\ (forall x, In x (settled s) -> In x (settled s'))
      /\ (forall tk, In tk (queue s) ->
            In (task_id tk, task_outcome choice tk) (settled s')).
Proof.
  induction k as [|k IH]; intros s n Len W.
  - destruct (step_timeout_waiting d n s W) as (dl & now & x & St & R & Q & Sx & Sub).
    pose proof (process_ready_cases d (S n) x R) as P.
    destruct (queue s) as [|? ?] eqn:Qs; [|discriminate]. rewrite Q in P.
    destruct P as (R' & Q' & S').
    exists [Timeout dl now], (process x), (S n). cbn. rewrite St.
    split; [reflexivity|]. split; [assumption|]. split; [assumption|].
    split; [now rewrite process_submitted|]. split.
    + intros y I. now rewrite S', Sx.
    + intros tk [].
  - destruct (step_timeout_waiting d n s W) as (dl & now & x & St & R & Q & Sx & Sub).
    pose proof (process_ready_cases d (S n) x R) as P.
    destruct (queue s) as [|tk rest] eqn:Qs; [discriminate|]. rewrite Q in P.
    injection Len as Len.
    destruct P as (Id & Q' & P). unfold task_outcome.
    destruct (throws tk) as [e|] eqn:T.
    + destruct P as (W1 & S1).
      destruct (IH (process x) (S n)) as (evs & s' & m & Run & R' & Qe & Sb & Inc & Out);
        [now rewrite Q'|assumption|].
      exists (Timeout dl now :: evs), s', m. cbn [run]. rewrite St.
      split; [assumption|]. split; [assumption|]. split; [assumption|].
      split; [now rewrite Sb, process_submitted|]. split.
      * intros y I. apply Inc. rewrite S1, Sx. now right.
      * intros tk' [<-|I].
        -- rewrite T, Id. apply Inc. rewrite S1. now left.
        -- apply Out. now rewrite Q'.
    + destruct P as (U1 & S1).
      destruct (step_settle_running d (S n) (process x) (choice (S n)) U1)
        as (s2 & St2 & W2 & Q2 & S2 & Sb2).
      destruct (IH s2 (S n)) as (evs & s' & m & Run & R' & Qe & Sb & Inc & Out);
        [now rewrite Q2, Q'|assumption|].
      exists (Timeout dl now :: Settle (S n) (choice (S n)) (clock (process x)) :: evs),
        s', m.
      cbn [run]. rewrite St, St2.
      split; [assumption|]. split; [assumption|]. split; [assumption|].
      split; [now rewrite Sb, Sb2, process_submitted|]. split.
      * intros y I. apply Inc. rewrite S2, S1, Sx. now right.
      * intros tk' [<-|I].
        -- rewrite T, Id. apply Inc. rewrite S2. now left.
        -- apply Out. now rewrite Q2, Q'.
Qed.

Lemma hist_settled_ids d b n h :
  hist d b n h -> map fst (settled_of h) = rev (seq 0 n).
Proof.
  induction 1 as [|n h ts H IH Ht Hg|n h o te H IH Ht].
  - reflexivity.
  - exact IH.
  - change (settled_of (Settled n o te :: h)) with ((n, o) :: settled_of h).
    cbn [map fst]. rewrite IH, seq_S, rev_app_distr. reflexivity.
Qed.

Lemma inv_settled_nodup d s : inv d s -> NoDup (map fst (settled s)).
Proof.
  intros I.
  assert (exists b n, hist d b n (history s) /\ settled s = settled_of (history s))
    as (b & n & H & E).
  { destruct I as [n R Q|n R|n R]; destruct R; eauto. }
  rewrite E, (hist_settled_ids _ _ _ _ H).
  apply NoDup_rev, seq_NoDup.
Qed.

(** Every task submitted has settled, is in flight, or is queued. *)
Lemma inv_partition d s id :
  inv d s -> (id < submitted s)%nat ->
  (exists o, In (id, o) (settled s))
  \/ In id (awaiting s)
  \/ (exists tk, In tk (queue s) /\ task_id tk = id).
Proof.
  intros I L.
  assert (Hs : forall b n h, hist d b n h -> (id < n)%nat ->
                 exists o, In (id, o) (settled_of h)).
  { intros b n h H Lt.
    assert (In id (map fst (settled_of h))) as [[i o] [E I']]%in_map_iff.
    { rewrite (hist_settled_ids _ _ _ _ H), <- in_rev. apply in_seq. lia. }
    cbn in E. subst i. eauto. }
  assert (Hq : forall a, map task_id (queue s) = seq a (submitted s - a) ->
                 (a <= id)%nat -> exists tk, In tk (queue s) /\ task_id tk = id).
  { intros a E Le.
    assert (In id (map task_id (queue s))) as [tk [E' I']]%in_map_iff.
    { rewrite E. apply in_seq. lia. }
    eauto. }
  destruct I as [n R Q|n R|n R]; destruct R.
  - destruct (Nat.lt_ge_cases id n) as [Lt|Ge].
    + left. rewrite r_settled0. eauto.
    + right. right. eauto.
  - destruct (Nat.lt_ge_cases id n) as [Lt|Ge].
    + left. rewrite u_settled0. eauto.
    + destruct (Nat.eq_dec id n) as [->|Ne].
      * right. left. rewrite u_awaiting0. now left.
      * right. right. apply (Hq (S n)); [assumption|lia].
  - destruct (Nat.lt_ge_cases id (S n)) as [Lt|Ge].
    + left. rewrite w_settled0. eauto.
    + right. right. eauto.
Qed.

(** From any state of the invariant the queue can run dry. *)
Lemma drain d (choice : nat -> outcome) s :
  inv d s ->
  exists evs s',
    run s evs = Some s'
    /\ inv d s' /\ queue s' = [] /\ awaiting s' = []
    /\ submitted s' = submitted s
    /\ (forall x, In x (settled s) -> In x (settled s'))
    /\ (forall tk, In tk (queue s) ->
          In (task_id tk, task_outcome choice tk) (settled s'))
    /\ (forall id, In id (awaiting s) -> In (id, choice id) (settled s')).
Proof.
  intros [n R Q|n R|n R].
  - exists [], s. cbn. split; [reflexivity|].
    split; [now apply (inv_idle _ _ n)|]. split; [assumption|].
    split; [apply (r_awaiting _ _ _ R)|]. split; [reflexivity|].
    split; [auto|]. rewrite Q, (r_awaiting _ _ _ R). split; intros ? [].
  - destruct (step_settle_running d n s (choice n) R)
      as (s1 & St & W & Q1 & S1 & Sb1).
    destruct (drain_waiting d choice _ s1 n eq_refl W)
      as (evs & s' & m & Run & R' & Qe & Sb & Inc & Out).
    exists (Settle n (choice n) (clock s) :: evs), s'. cbn [run]. rewrite St.
    split; [assumption|]. split; [now apply (inv_idle _ _ m)|].
    split; [assumption|]. split; [apply (r_awaiting _ _ _ R')|].
    split; [congruence|]. split; [|split].
    + intros x I. apply Inc. rewrite S1. now right.
    + intros tk I. apply Out. now rewrite Q1.
    + intros id I. rewrite (u_awaiting _ _ _ R) in I.
      destruct I as [<-|[]]. apply Inc. rewrite S1. now left.
  - destruct (drain_waiting d choice _ s n eq_refl R)
      as (evs & s' & m & Run & R' & Qe & Sb & Inc & Out).
    exists evs, s'.
    split; [assumption|]. split; [now apply (inv_idle _ _ m)|].
    split; [assumption|]. split; [apply (r_awaiting _ _ _ R')|].
    split; [assumption|]. split; [assumption|]. split; [assumption|].
    rewrite (w_awaiting _ _ _ R). intros ? [].
Qed.

(** C2. Whatever the calls to [add], the moments the operations settle and
    the moments the timers fire: the operations are started in the order
    of submission (the tasks started are the first ones submitted, in
    their order); at most one [process] is suspended on an operation; and
    between the starts of two operations the one started first has
    settled, resolved or rejected. *)
Theorem C2_starts_in_submission_order (d : Z) (icon : bool) (t0 : Z)
    (evs : list event) (s : t) :
  run (configure d (constructor icon t0)) evs = Some s ->
  started_ids s = seq 0 (length (started_ids s))
  /\ (length (started_ids s) <= submitted s)%nat
  /\ (length (awaiting s) <= 1)%nat
  /\ settles_between (chronicle s).
Proof.
  intros R. destruct (run_invariants _ _ _ _ _ R) as [I _].
  destruct (inv_hist _ _ I) as (b & n & H & Le & Aw & _).
  assert (E : started_ids s = seq 0 (if b then S n else n)).
  { unfold started_ids, chronicle.
    rewrite filter_rev, map_rev, (hist_ids _ _ _ _ H). apply rev_involutive. }
  rewrite E, length_seq. repeat split; try assumption.
  unfold chronicle. eapply hist_settles_between; eauto.
Qed.

Lemma C2_starts_in_submission_order_witness :
  run (configure 700 (constructor true 0)) demo_events = Some demo_state
  /\ started_ids demo_state = [0; 1; 2]%nat
  /\ settles_between (chronicle demo_state).
Proof.
  assert (R : run (configure 700 (constructor true 0)) demo_events
              = Some demo_state) by (vm_compute; reflexivity).
  split; [exact R|]. split; [vm_compute; reflexivity|].
  apply (C2_starts_in_submission_order 700 true 0 demo_events demo_state R).
Defined.

(** C3. The queue is built with a delay of 700 ms.  Whatever delay [d] it
    is configured with, an operation that starts after another has
    settled starts no earlier than [d] after the moment that one settled:
    the delay runs from the moment the task settles, whenever it had
    started. *)
Theorem C3_minimum_spacing (d : Z) (icon : bool) (t0 : Z)
    (evs : list event) (s : t) :
  run (configure d (constructor icon t0)) evs = Some s ->
  delay (constructor icon t0) = 700
  /\ delay s = d
  /\ spaced d (chronicle s).
Proof.
  intros R. destruct (run_invariants _ _ _ _ _ R) as [I _].
  destruct (inv_hist _ _ I) as (b & n & H & _ & _ & D).
  split; [reflexivity|]. split; [assumption|].
  unfold chronicle. eapply hist_spaced; eauto.
Qed.

Lemma C3_minimum_spacing_witness :
  run (constructor true 0) demo_events = Some demo_state
  /\ spaced 700 (chronicle demo_state).
Proof.
  assert (R : run (configure 700 (constructor true 0)) demo_events
              = Some demo_state) by (vm_compute; reflexivity).
  split; [exact R|].
  apply (C3_minimum_spacing 700 true 0 demo_events demo_state R).
Defined.

(** C9. In every state the queue can reach, whatever rejections came
    before: a promise returned by [add] is settled only with the outcome
    of its own operation (the one its awaited request settled with, or the
    exception its [requestFn] threw), every outcome delivered by a request
    reaches the promise of its task, and no promise is settled twice.  The
    queue is never stopped: from that state it can run until it is empty,
    every task not settled yet being started in its turn and settling with
    its own outcome, whatever that outcome is chosen to be, while the
    promises settled before keep their outcome and the spacing of C3
    holds. *)
Theorem C9_rejection_is_isolated (d : Z) (icon : bool) (t0 : Z)
    (evs : list event) (s : t) :
  run (configure d (constructor icon t0)) evs = Some s ->
  (forall id o, In (id, o) (settled s) -> own_outcome evs id o)
  /\ (forall id o t, In (Settle id o t) evs -> In (id, o) (settled s))
  /\ NoDup (map fst (settled s))
  /\ forall choice : nat -> outcome,
       exists evs' s',
         run s evs' = Some s'
         /\ queue s' = [] /\ awaiting s' = []
         /\ submitted s' = submitted s
         /\ (forall id o, In (id, o) (settled s) -> In (id, o) (settled s'))
         /\ (forall id, (id < submitted s)%nat ->
               (exists o, In (id, o) (settled s))
               \/ In (id, pending_outcome evs choice id) (settled s'))
         /\ NoDup (map fst (settled s'))
         /\ spaced d (chronicle s').
Proof.
  intros R. destruct (run_invariants _ _ _ _ _ R) as [I L].
  split; [apply (l_settled _ _ L)|]. split; [apply (l_delivered _ _ L)|].
  split; [eapply inv_settled_nodup; eauto|].
  intros choice.
  destruct (drain d choice s I)
    as (evs' & s' & Run & I' & Q & A & Sb & Inc & Out & Aw).
  exists evs', s'. repeat split; try assumption.
  - intros id o. apply Inc.
  - intros id Lt.
    destruct (inv_partition d s id I Lt) as [S|[W|(tk & Itk & <-)]].
    + now left.
    + right. unfold pending_outcome. rewrite (l_awaiting _ _ L _ W). auto.
    + right. unfold pending_outcome. rewrite (l_queue _ _ L _ Itk).
      specialize (Out tk Itk). unfold task_outcome in Out.
      destruct (throws tk); exact Out.
  - eapply inv_settled_nodup; eauto.
  - destruct (inv_hist _ _ I') as (b & n & H & _).
    unfold chronicle. eapply hist_spaced; eauto.
Qed.

Lemma C9_rejection_is_isolated_witness :
  run (configure 700 (constructor true 0)) demo_events = Some demo_state
  /\ In (0%nat, Rejected (Error "network")) (settled demo_state)
  /\ In (1%nat, Resolved (VInt 1)) (settled demo_state)
  /\ NoDup (map fst (settled demo_state)).
Proof.
  assert (R : run (configure 700 (constructor true 0)) demo_events
              = Some demo_state) by (vm_compute; reflexivity).
  pose proof (C9_rejection_is_isolated 700 true 0 demo_events demo_state R)
    as (_ & Del & Nd & _).
  split; [exact R|]. split; [|split; [|exact Nd]].
  - apply (Del _ _ 300). cbn. auto.
  - apply (Del _ _ 1200). cbn. auto 10.
Defined.

End QueueFacts.

(** ** Sorting field names *)

Lemma ascii_compare_trans (a b c : ascii) (r : comparison) :
  Ascii.compare a b = r -> Ascii.compare b c = r -> Ascii.compare a c = r.
Proof.
  unfold Ascii.compare. destruct r; intros H1 H2.
  - apply N.compare_eq_iff in H1. apply N.compare_eq_iff in H2.
    apply N.compare_eq_iff. congruence.
  - apply N.compare_lt_iff in H1. apply N.compare_lt_iff in H2.
    apply N.compare_lt_iff. eapply N.lt_trans; eauto.
  - apply N.compare_gt_iff in H1. apply N.compare_gt_iff in H2.
    apply N.compare_gt_iff. eapply N.lt_trans; eauto.
Qed.

Lemma str_leb_trans (a b c : string) :
  str_leb a b = true -> str_leb b c = true -> str_leb a c = true.
Proof.
  unfold str_leb, String.leb. revert b c.
  induction a as [|x a IH]; intros [|y b] [|z c]; cbn; try congruence.
  destruct (Ascii.compare x y) eqn:Exy; try discriminate;
    destruct (Ascii.compare y z) eqn:Eyz; try discriminate.
  - rewrite (ascii_compare_trans _ _ _ _ Exy Eyz). apply IH.
  - apply Ascii.compare_eq_iff in Exy. subst y. rewrite Eyz. reflexivity.
  - apply Ascii.compare_eq_iff in Eyz. subst z. rewrite Exy. reflexivity.
  - rewrite (ascii_compare_trans _ _ _ _ Exy Eyz). reflexivity.
Qed.

Lemma sort_insert_perm x l : Permutation (sort_insert x l) (x :: l).
Proof.
  induction l as [|y l IH]; cbn; [reflexivity|].
  destruct (str_leb x y); [reflexivity|].
  rewrite IH. apply perm_swap.
Qed.

Lemma sort_strings_perm l : Permutation (sort_strings l) l.
Proof.
  induction l as [|x l IH]; cbn; [reflexivity|].
  rewrite sort_insert_perm. now constructor.
Qed.

Lemma sort_insert_sorted x l :
  StronglySorted leS l -> StronglySorted leS (sort_insert x l).
Proof.
  induction 1 as [|y l S IH F]; cbn.
  - repeat constructor.
  - destruct (str_leb x y) eqn:E.
    + constructor; [now constructor|]. constructor; [exact E|].
      eapply Forall_impl; [|exact F]. intros z. apply str_leb_trans. exact E.
    + constructor; [assumption|].
      assert (Hyx : leS y x).
      { destruct (String.leb_total x y) as [H|H]; [|exact H].
        unfold str_leb in E. congruence. }
      eapply Permutation_Forall; [symmetry; apply sort_insert_perm|].
      constructor; assumption.
Qed.

Lemma sort_strings_sorted l : StronglySorted leS (sort_strings l).
Proof.
  induction l as [|x l IH]; cbn; [constructor|]. now apply sort_insert_sorted.
Qed.

Lemma sorted_perm_eq l1 l2 :
  StronglySorted leS l1 -> StronglySorted leS l2 -> Permutation l1 l2 ->
  l1 = l2.
Proof.
  intros S1. revert l2. induction S1 as [|a l1 S1 IH F1]; intros l2 S2 P.
  - apply Permutation_nil in P. now subst.
  - destruct S2 as [|b l2 S2 F2].
    + apply Permutation_sym, Permutation_nil in P. discriminate.
    + assert (a = b).
      { assert (Ia : In a (b :: l2)) by (eapply Permutation_in; [exact P|now left]).
        assert (Ib : In b (a :: l1))
          by (eapply Permutation_in; [symmetry; exact P|now left]).
        destruct Ia as [->|Ia]; [reflexivity|].
        destruct Ib as [->|Ib]; [reflexivity|].
        apply String.leb_antisym.
        - rewrite Forall_forall in F1. apply (F1 _ Ib).
        - rewrite Forall_forall in F2. apply (F2 _ Ia). }
      subst b. f_equal. apply IH; [assumption|].
      eapply Permutation_cons_inv; eauto.
Qed.

Lemma sort_strings_permuted l1 l2 :
  Permutation l1 l2 -> sort_strings l1 = sort_strings l2.
Proof.
  intros P. apply sorted_perm_eq; try apply sort_strings_sorted.
  rewrite !sort_strings_perm. exact P.
Qed.

(** ** Objects *)

Lemma obj_find_In o k v :
  NoDup (obj_keys o) -> (obj_find o k = Some v <-> In (k, v) o).
Proof.
  unfold obj_keys. induction o as [|[k' v'] o IH]; cbn; intros N.
  - split; [discriminate|tauto].
  - inversion N as [|? ? Hn Hd]; subst.
    destruct (String.eqb_spec k' k) as [->|Ne].
    + split.
      * intros [= ->]. now left.
      * intros [[= ->]|I]; [reflexivity|].
        exfalso. apply Hn. apply in_map_iff. exists (k, v). auto.
    + rewrite (IH Hd). split; [auto|]. intros [[= E _]|I]; [contradiction|auto].
Qed.

Lemma obj_find_None o k : obj_find o k = None <-> ~ In k (obj_keys o).
Proof.
  unfold obj_keys. induction o as [|[k' v'] o IH]; cbn.
  - tauto.
  - destruct (String.eqb_spec k' k) as [->|Ne].
    + split; [discriminate|]. intros H. exfalso. apply H. now left.
    + rewrite IH. split; [intros H [E|I]; [contradiction|auto]|tauto].
Qed.

Lemma obj_find_permuted o1 o2 k :
  NoDup (obj_keys o1) -> Permutation o1 o2 -> obj_find o1 k = obj_find o2 k.
Proof.
  intros N P.
  assert (N2 : NoDup (obj_keys o2)).
  { eapply Permutation_NoDup; [|exact N]. now apply Permutation_map. }
  destruct (obj_find o1 k) as [v|] eqn:E1.
  - symmetry. apply (obj_find_In _ _ _ N2).
    eapply Permutation_in; [exact P|]. now apply (obj_find_In _ _ _ N).
  - symmetry. apply obj_find_None. apply obj_find_None in E1.
    intros I. apply E1. eapply Permutation_in; [|exact I].
    apply Permutation_map. now symmetry.
Qed.

Lemma fold_left_ext_in {A B} (f g : A -> B -> A) l a :
  (forall x y, In y l -> f x y = g x y) -> fold_left f l a = fold_left g l a.
Proof.
  revert a. induction l as [|y l IH]; intros a H; cbn; [reflexivity|].
  rewrite H by now left. apply IH. intros x z I. apply H. now right.
Qed.

(** C7. Two configurations that hold the same fields with the same
    values, in whatever order the fields were set, get the same key: the
    names run through the sort before the text is built.  The key is a
    function of the configuration alone: [createCacheKey] takes no state
    and no clock, and gives nothing but the key. *)
Theorem C7_key_is_order_independent (c1 c2 : object) :
  NoDup (obj_keys c1) ->
  Permutation c1 c2 ->
  sort_strings (obj_keys c1) = sort_strings (obj_keys c2)
  /\ createCacheKey c1 = createCacheKey c2.
Proof.
  intros N P.
  assert (E : sort_strings (obj_keys c1) = sort_strings (obj_keys c2)).
  { apply sort_strings_permuted. unfold obj_keys. now apply Permutation_map. }
  split; [exact E|]. unfold createCacheKey. rewrite <- E.
  replace (fold_left (fun acc key => obj_set acc key (obj_get c2 key))
                     (sort_strings (obj_keys c1)) [])
    with (fold_left (fun acc key => obj_set acc key (obj_get c1 key))
                    (sort_strings (obj_keys c1)) []); [reflexivity|].
  apply fold_left_ext_in. intros acc k _. f_equal.
  unfold obj_get. now rewrite (obj_find_permuted c1 c2 k N P).
Qed.

Lemma C7_key_is_order_independent_witness :
  NoDup (obj_keys (config_single 42))
  /\ Permutation (config_single 42) (rev (config_single 42))
  /\ createCacheKey (config_single 42)
     = createCacheKey (rev (config_single 42)).
Proof.
  assert (N : NoDup (obj_keys (config_single 42))).
  { repeat constructor; cbn; intuition discriminate. }
  split; [exact N|]. split; [apply Permutation_rev|].
  apply (C7_key_is_order_independent _ _ N (Permutation_rev _)).
Defined.

(** ** [JSON.parse] after [JSON.stringify] *)

Lemma append_assoc (a b c : string) : (a +++ b) +++ c = a +++ b +++ c.
Proof. induction a as [|x a IH]; cbn; congruence. Qed.

Lemma append_nil_r (a : string) : a +++ "" = a.
Proof. induction a as [|x a IH]; cbn; congruence. Qed.

Lemma length_append (a b : string) :
  String.length (a +++ b) = (String.length a + String.length b)%nat.
Proof. induction a as [|x a IH]; cbn; congruence. Qed.

Lemma parse_chars_escape s rest :
  parse_chars (escape_string s +++ String dquote rest) = Some (s, rest).
Proof.
  induction s as [|c s IH]; [reflexivity|]. cbn [escape_string].
  rewrite append_assoc. cbn in IH.
  destruct c as [[] [] [] [] [] [] [] []]; cbn; rewrite IH; reflexivity.
Qed.

(** *** Decimal digits *)

Lemma digit_char_val d : is_dec d -> digit_val (digit_char d) = d.
Proof.
  unfold is_dec, digit_val, digit_char, code. intros H.
  rewrite N_ascii_embedding by lia. lia.
Qed.

Lemma digit_char_is_digit d : is_dec d -> is_digit (digit_char d) = true.
Proof.
  unfold is_dec, is_digit, digit_char, code. intros H.
  rewrite N_ascii_embedding by lia.
  apply andb_true_intro. split; apply N.leb_le; lia.
Qed.


Lemma digits_val_snoc ds d : digits_val (ds ++ [d]) = (10 * digits_val ds + d)%N.
Proof. unfold digits_val. rewrite fold_left_app. reflexivity. Qed.

Lemma digits_val_zeros n ds :
  digits_val (repeat 0%N n ++ ds) = digits_val ds.
Proof.
  unfold digits_val. rewrite fold_left_app. f_equal.
  induction n as [|n IH]; cbn; [reflexivity|exact IH].
Qed.

Lemma digits_aux_S f n acc :
  digits_aux (S f) n acc
  = if (n / 10 =? 0)%N then (n mod 10)%N :: acc
    else digits_aux f (n / 10)%N ((n mod 10)%N :: acc).
Proof. reflexivity. Qed.

(** The digits of [n]: their value is [n], and the first is zero only
    for [n = 0]. *)
Lemma digits_aux_spec f n acc :
  (n < 2 ^ N.of_nat (S f))%N ->
  exists d ds,
    digits_aux (S f) n acc = (d :: ds) ++ acc
    /\ digits_val (d :: ds) = n
    /\ Forall is_dec (d :: ds)
    /\ (n = 0%N -> d :: ds = [0%N])
    /\ (n <> 0%N -> d <> 0%N).
Proof.
  revert n acc. induction f as [|f IH]; intros n acc L.
  - change (2 ^ N.of_nat 1)%N with 2%N in L.
    exists n, []. rewrite digits_aux_S.
    replace (n / 10)%N with 0%N by (symmetry; apply N.div_small; lia).
    rewrite N.mod_small by lia. cbn.
    split; [reflexivity|]. split; [reflexivity|].
    split; [constructor; [unfold is_dec; lia|constructor]|].
    split; [intros E0; now rewrite E0|auto].
  - rewrite digits_aux_S. destruct (n / 10 =? 0)%N eqn:E.
    + apply N.eqb_eq in E.
      assert (n < 10)%N.
      { destruct (N.lt_ge_cases n 10) as [|G]; [assumption|].
        assert (1 <= n / 10)%N by (apply N.div_le_lower_bound; lia). lia. }
      exists n, []. rewrite N.mod_small by lia. cbn.
      split; [reflexivity|]. split; [reflexivity|].
    split; [constructor; [unfold is_dec; lia|constructor]|].
    split; [intros E0; now rewrite E0|auto].
    + apply N.eqb_neq in E.
      destruct (IH (n / 10)%N ((n mod 10)%N :: acc)) as (d & ds & A & V & F & Z0 & NZ).
      { assert (n / 10 <= n / 2)%N.
        { apply N.div_le_compat_l. lia. }
        assert (n / 2 < 2 ^ N.of_nat (S f))%N.
        { apply N.Div0.div_lt_upper_bound.
          replace (N.of_nat (S (S f))) with (N.succ (N.of_nat (S f))) in L by lia.
          rewrite N.pow_succ_r' in L. exact L. }
        lia. }
      exists d, (ds ++ [(n mod 10)%N]). rewrite A.
      split; [cbn; f_equal; now rewrite <- app_assoc|].
      split.
      { change (d :: ds ++ [(n mod 10)%N]) with ((d :: ds) ++ [(n mod 10)%N]).
        rewrite digits_val_snoc, V.
        rewrite (N.div_mod n 10) at 3 by lia. reflexivity. }
      split.
      { change (d :: ds ++ [(n mod 10)%N]) with ((d :: ds) ++ [(n mod 10)%N]).
        apply Forall_app. split; [assumption|].
        constructor; [|constructor]. unfold is_dec. apply N.mod_lt. lia. }
      split.
      { intros ->. exfalso. apply E. reflexivity. }
      intros _. apply NZ. exact E.
Qed.

Lemma digits_spec n :
  exists d ds,
    digits n = d :: ds
    /\ digits_val (d :: ds) = n
    /\ Forall is_dec (d :: ds)
    /\ (n = 0%N -> d :: ds = [0%N])
    /\ (n <> 0%N -> d <> 0%N).
Proof.
  unfold digits.
  destruct (digits_aux_spec (N.to_nat (N.log2 n)) n []) as (d & ds & A & R).
  - destruct (N.eq_dec n 0) as [->|NZ]; [reflexivity|].
    replace (N.of_nat (S (N.to_nat (N.log2 n)))) with (N.succ (N.log2 n)) by lia.
    apply N.log2_spec. lia.
  - exists d, ds. rewrite A, app_nil_r. auto.
Qed.

Lemma read_digits_string ds rest :
  Forall is_dec ds ->
  match rest with EmptyString => True | String c _ => is_digit c = false end ->
  read_digits (string_of_digits ds +++ rest) = (ds, rest).
Proof.
  intros F R. induction F as [|d ds Hd F IH]; cbn.
  - destruct rest as [|c r]; [reflexivity|]. cbn. now rewrite R.
  - rewrite digit_char_is_digit, IH, digit_char_val by assumption. reflexivity.
Qed.

(** *** Numbers *)

Lemma number_follow_digit rest :
  number_follow rest ->
  match rest with EmptyString => True | String c _ => is_digit c = false end.
Proof. destruct rest; cbn; tauto. Qed.

Lemma parse_frac_follow rest :
  number_follow rest -> parse_frac rest = Some ([], rest).
Proof.
  destruct rest as [|c r]; cbn; [reflexivity|]. intros (_ & H & _).
  apply N.eqb_neq in H. now rewrite H.
Qed.

Lemma parse_exp_follow rest :
  number_follow rest -> parse_exp rest = Some (0, rest).
Proof.
  destruct rest as [|c r]; cbn; [reflexivity|]. intros (_ & _ & H1 & H2).
  apply N.eqb_neq in H1, H2. now rewrite H1, H2.
Qed.

Lemma make_number_int neg M :
  make_number neg M 0 0 = Fin (if neg then - Z.of_N M else Z.of_N M) 0.
Proof.
  unfold make_number. cbn. rewrite Z.mul_1_r. now destruct neg.
Qed.

Lemma make_number_frac neg M k :
  Z.of_N M mod 10 <> 0 ->
  make_number neg M (S k) 0 = Fin (if neg then - Z.of_N M else Z.of_N M) (S k).
Proof.
  intros H. unfold make_number.
  replace (0 <=? 0 - Z.of_nat (S k)) with false by (symmetry; apply Z.leb_gt; lia).
  replace (Z.to_nat (- (0 - Z.of_nat (S k)))) with (S k) by lia.
  cbn [norm]. apply Z.eqb_neq in H. rewrite H. now destruct neg.
Qed.

Lemma parse_unsigned_decimal neg M k rest :
  (k = O \/ Z.of_N M mod 10 <> 0) ->
  number_follow rest ->
  parse_unsigned neg (decimal_string M k +++ rest)
  = Some (Fin (if neg then - Z.of_N M else Z.of_N M) k, rest).
Proof.
  intros C R. unfold parse_unsigned.
  pose proof (number_follow_digit _ R) as Rd.
  destruct (digits_spec M) as (d & ds & D & V & F & Z0 & NZ).
  destruct k as [|k]; unfold decimal_string.
  - rewrite D, read_digits_string by assumption.
    assert (Lz : ((d =? 0)%N && negb (Nat.eqb (length ds) 0))%bool = false).
    { destruct (N.eqb_spec d 0) as [->|]; [|reflexivity].
      destruct (N.eq_dec M 0) as [E|E]; [|now apply NZ in E].
      apply Z0 in E. injection E as ->. reflexivity. }
    rewrite Lz, parse_frac_follow, parse_exp_follow by assumption.
    rewrite app_nil_r, V. cbn [length]. now rewrite make_number_int.
  - destruct C as [C|C]; [discriminate|].
    assert (MZ : M <> 0%N) by (intros ->; apply C; reflexivity).
    set (all := pad_digits (S k) (digits M)).
    assert (Fall : Forall is_dec all).
    { unfold all, pad_digits. apply Forall_app. split; [|now rewrite D].
      apply Forall_forall. intros x I. apply repeat_spec in I. subst x.
      unfold is_dec. lia. }
    assert (Lall : (S (S k) <= length all)%nat /\ length all = Nat.max (length (digits M)) (S (S k))).
    { unfold all, pad_digits. rewrite length_app, repeat_length. lia. }
    destruct Lall as [Lall Lmax].
    assert (Sp : firstn (length all - S k) all ++ skipn (length all - S k) all = all)
      by apply firstn_skipn.
    assert (Lfp : length (skipn (length all - S k) all) = S k).
    { rewrite length_skipn. lia. }
    destruct (firstn (length all - S k) all) as [|d0 ip] eqn:Eip.
    { apply (f_equal (@length N)) in Eip. rewrite length_firstn in Eip.
      cbn [length] in Eip. lia. }
    assert (Fip : Forall is_dec (d0 :: ip) /\ Forall is_dec (skipn (length all - S k) all)).
    { rewrite <- Sp in Fall. now apply Forall_app in Fall. }
    destruct Fip as [Fip Ffp].
    rewrite append_assoc.
    rewrite read_digits_string; [|assumption|reflexivity].
    assert (Lz : ((d0 =? 0)%N && negb (Nat.eqb (length ip) 0))%bool = false).
    { destruct (N.eqb_spec d0 0) as [->|]; [|reflexivity].
      destruct (Nat.le_gt_cases (S (S k)) (length (digits M))) as [Ge|Lt].
      - exfalso. unfold all, pad_digits in Eip.
        replace (S (S k) - length (digits M))%nat with O in Eip by lia.
        cbn [repeat app] in Eip. rewrite D in Eip.
        destruct (length (d :: ds) - S k)%nat eqn:El; [discriminate|].
        cbn in Eip. injection Eip as -> _. now apply NZ.
      - assert (length (0%N :: ip) = 1%nat).
        { rewrite <- Eip, length_firstn. lia. }
        destruct ip; [reflexivity|discriminate]. }
    rewrite Lz. cbn [append parse_frac].
    change (code "." =? 46)%N with true. cbv iota.
    rewrite read_digits_string by assumption.
    destruct (skipn (length all - S k) all) as [|f0 fp] eqn:Efp;
      [discriminate|].
    rewrite parse_exp_follow by assumption.
    rewrite Sp, Lfp. unfold all, pad_digits. rewrite digits_val_zeros, D, V.
    now rewrite make_number_frac.
Qed.

Lemma abs_mod10 m : m mod 10 <> 0 -> Z.of_N (Z.abs_N m) mod 10 <> 0.
Proof.
  rewrite N2Z.inj_abs_N. intros H E. apply H.
  apply Z.mod_divide in E; [|lia]. apply Z.mod_divide; [lia|].
  apply (proj1 (Z.divide_abs_r 10 m)). exact E.
Qed.

Lemma decimal_string_head M k :
  exists c r, decimal_string M k = String c r /\ is_digit c = true.
Proof.
  destruct (digits_spec M) as (d & ds & D & V & F & _).
  pose proof (Forall_inv F) as Hd.
  destruct k as [|k]; unfold decimal_string.
  - rewrite D. cbn. eauto using digit_char_is_digit.
  - unfold pad_digits.
    set (all := repeat 0%N (S (S k) - length (digits M)) ++ digits M).
    assert (Fall : Forall is_dec all).
    { unfold all. apply Forall_app. split; [|now rewrite D].
      apply Forall_forall. intros x I. apply repeat_spec in I. subst x.
      unfold is_dec. lia. }
    assert (Lall : (S (S k) <= length all)%nat).
    { unfold all. rewrite length_app, repeat_length. lia. }
    destruct all as [|a all']; [cbn in Lall; lia|].
    destruct (length (a :: all') - S k)%nat eqn:El; [cbn in *; lia|].
    cbn. pose proof (Forall_inv Fall). eauto using digit_char_is_digit.
Qed.

Lemma parse_number_text m k rest :
  canonical (Fin m k) -> number_follow rest ->
  parse_number (number_to_string (Fin m k) +++ rest) = Some (Fin m k, rest).
Proof.
  intros C R. cbn [canonical] in C. unfold number_to_string.
  assert (C' : k = O \/ Z.of_N (Z.abs_N m) mod 10 <> 0).
  { destruct C as [C|C]; [now left|right; now apply abs_mod10]. }
  destruct (m <? 0) eqn:Sg.
  - apply Z.ltb_lt in Sg. cbn [append parse_number].
    change (code "-" =? 45)%N with true. cbv iota.
    rewrite (parse_unsigned_decimal true _ _ _ C' R).
    repeat f_equal. rewrite N2Z.inj_abs_N. lia.
  - apply Z.ltb_ge in Sg.
    destruct (decimal_string_head (Z.abs_N m) k) as (c & r & E & Dg).
    unfold parse_number. rewrite E. cbn [append].
    assert (Nm : (code c =? 45)%N = false).
    { unfold is_digit in Dg. apply andb_prop in Dg. destruct Dg as [A _].
      apply N.leb_le in A. apply N.eqb_neq. lia. }
    rewrite Nm. change (String c (r +++ rest)) with (String c r +++ rest).
    rewrite <- E, (parse_unsigned_decimal false _ _ _ C' R).
    repeat f_equal. rewrite N2Z.inj_abs_N. lia.
Qed.

(** *** Values *)

Lemma follow_number rest : follow rest -> number_follow rest.
Proof.
  destruct rest as [|c r]; cbn; [auto|]. unfold is_digit.
  intros [H|[H|H]]; rewrite H; repeat split; try reflexivity; lia.
Qed.

Lemma follow_skip_ws rest : follow rest -> skip_ws rest = rest.
Proof.
  destruct rest as [|c r]; cbn; [auto|]. unfold is_ws.
  intros [H|[H|H]]; rewrite H; reflexivity.
Qed.

Lemma text_of_head v :
  json_value v -> exists c r, text_of v = String c r /\ starts v c.
Proof.
  destruct 1 as [|b|m k C|s|l F|o F E]; unfold text_of; cbn [serialize].
  - eauto using starts.
  - destruct b; eauto using starts.
  - cbn [is_finite number_to_string]. destruct (m <? 0).
    + cbn. eauto using starts.
    + destruct (decimal_string_head (Z.abs_N m) k) as (c & r & -> & D).
      eauto using starts.
  - unfold quote. eauto using starts.
  - cbn. eauto using starts.
  - cbn. eauto using starts.
Qed.

Lemma starts_not_ws v c : starts v c -> is_ws c = false.
Proof.
  destruct 1; try reflexivity.
  unfold is_digit in H. unfold is_ws.
  apply andb_prop in H. destruct H as [A B].
  apply N.leb_le in A. apply N.leb_le in B.
  repeat (apply orb_false_intro); apply N.eqb_neq; lia.
Qed.

Lemma starts_not_close v c : starts v c -> code c <> 93%N /\ code c <> 125%N.
Proof.
  destruct 1; try (split; discriminate).
  unfold is_digit in H. apply andb_prop in H. destruct H as [A B].
  apply N.leb_le in A. apply N.leb_le in B. lia.
Qed.

Lemma text_of_length v : json_value v -> (1 <= String.length (text_of v))%nat.
Proof.
  intros J. destruct (text_of_head v J) as (c & r & -> & _). cbn. lia.
Qed.

Lemma parse_value_scalar f c r :
  (code c =? 91)%N = false -> (code c =? 123)%N = false ->
  (code c =? 34)%N = false -> is_ws c = false ->
  parse_value (S f) (String c r) = parse_literal c (String c r).
Proof.
  intros A B C W. cbn [parse_value skip_ws]. now rewrite W, A, B, C.
Qed.

Lemma parse_value_number f m k rest :
  canonical (Fin m k) -> follow rest ->
  parse_value (S f) (number_to_string (Fin m k) +++ rest)
  = Some (VNum (Fin m k), rest).
Proof.
  intros C R.
  destruct (text_of_head (VNum (Fin m k)) (JNum m k C)) as (c & r & E & St).
  unfold text_of in E. cbn [serialize is_finite] in E.
  pose proof (parse_number_text m k rest C (follow_number _ R)) as P.
  rewrite E in *. cbn [append] in *.
  assert (Hc : code c = 45%N \/ (48 <= code c <= 57)%N).
  { inversion St as [| | | |? ? ? Dg| | |]; subst; [now left|right].
    unfold is_digit in Dg. apply andb_prop in Dg. destruct Dg as [A B].
    apply N.leb_le in A. apply N.leb_le in B. lia. }
  rewrite parse_value_scalar.
  - unfold parse_literal.
    replace (code c =? 116)%N with false by (symmetry; apply N.eqb_neq; lia).
    replace (code c =? 102)%N with false by (symmetry; apply N.eqb_neq; lia).
    replace (code c =? 110)%N with false by (symmetry; apply N.eqb_neq; lia).
    now rewrite P.
  - apply N.eqb_neq; lia.
  - apply N.eqb_neq; lia.
  - apply N.eqb_neq; lia.
  - eapply starts_not_ws; eauto.
Qed.

Lemma parse_value_string f s rest :
  parse_value (S f) (quote s +++ rest) = Some (VStr s, rest).
Proof.
  unfold quote. cbn [append]. rewrite append_assoc. cbn [append].
  change (parse_value (S f) (String dquote (escape_string s +++ String dquote rest)))
    with (match parse_chars (escape_string s +++ String dquote rest) with
          | Some (t, r') => Some (VStr t, r')
          | None => None
          end).
  now rewrite parse_chars_escape.
Qed.

Section Elements.

Variable pv : string -> option (value * string).

Lemma parse_elems_join (l : list value) (x : value) (n : nat) rest :
  Forall (reads pv) (x :: l) -> (length (x :: l) <= n)%nat ->
  parse_elems pv n (join "," (map text_of (x :: l)) +++ "]" +++ rest)
  = Some (x :: l, rest).
Proof.
  revert x n. induction l as [|y l IH]; intros x n F Ln.
  - destruct n as [|n]; [cbn in Ln; lia|].
    cbn [map join parse_elems].
    rewrite (Forall_inv F) by (cbn; auto). reflexivity.
  - destruct n as [|n]; [cbn in Ln; lia|].
    change (join "," (map text_of (x :: y :: l)))
      with (text_of x +++ "," +++ join "," (map text_of (y :: l))).
    rewrite !append_assoc. cbn [parse_elems].
    rewrite (Forall_inv F) by (cbn; auto).
    cbn [append skip_ws]. change (is_ws ",") with false. cbv iota.
    change (code "," =? 44)%N with true. cbv iota.
    rewrite IH; [reflexivity|now apply Forall_inv_tail in F|cbn in *; lia].
Qed.

Lemma parse_members_join (o : list (string * value)) (kv : string * value)
    (n : nat) rest :
  Forall (fun p => reads pv (snd p)) (kv :: o) -> (length (kv :: o) <= n)%nat ->
  parse_members pv n (join "," (map member_text (kv :: o)) +++ "}" +++ rest)
  = Some (kv :: o, rest).
Proof.
  revert kv n. induction o as [|kv' o IH]; intros [k v] n F Ln.
  - destruct n as [|n]; [cbn in Ln; lia|].
    cbn [map join]. unfold member_text, quote. cbn [fst snd].
    cbn [append]. rewrite !append_assoc. cbn [append parse_members skip_ws].
    change (is_ws dquote) with false. cbv iota.
    change (code dquote =? 34)%N with true. cbv iota.
    rewrite parse_chars_escape. cbn [skip_ws].
    change (is_ws ":") with false. cbv iota.
    change (code ":" =? 58)%N with true. cbv iota.
    rewrite (Forall_inv F) by (cbn; auto). reflexivity.
  - destruct n as [|n]; [cbn in Ln; lia|].
    change (join "," (map member_text ((k, v) :: kv' :: o)))
      with (member_text (k, v) +++ "," +++ join "," (map member_text (kv' :: o))).
    unfold member_text at 1, quote. cbn [fst snd].
    cbn [append]. rewrite !append_assoc. cbn [append parse_members skip_ws].
    change (is_ws dquote) with false. cbv iota.
    change (code dquote =? 34)%N with true. cbv iota.
    rewrite parse_chars_escape. cbn [skip_ws].
    change (is_ws ":") with false. cbv iota.
    change (code ":" =? 58)%N with true. cbv iota.
    rewrite (Forall_inv F) by (cbn; auto).
    cbn [skip_ws]. change (is_ws ",") with false. cbv iota.
    change (code "," =? 44)%N with true. cbv iota.
    rewrite IH; [reflexivity|now apply Forall_inv_tail in F|cbn in *; lia].
Qed.

End Elements.

Lemma serialize_json v : json_value v -> serialize v = Some (text_of v).
Proof.
  unfold text_of. destruct 1 as [|[]|m k C|s|l F|o F E]; reflexivity.
Qed.

Lemma text_of_arr l :
  text_of (VArr l) = "[" +++ join "," (map text_of l) +++ "]".
Proof. reflexivity. Qed.

Lemma members_text (o : list (string * value)) :
  Forall (fun kv => json_value (snd kv)) o ->
  flat_map (fun kv => match serialize (snd kv) with
                      | Some t => [quote (fst kv) +++ ":" +++ t]
                      | None => []
                      end) o
  = map member_text o.
Proof.
  induction 1 as [|kv o J F IH]; cbn [flat_map map]; [reflexivity|].
  rewrite IH, (serialize_json _ J). reflexivity.
Qed.

Lemma text_of_obj o :
  Forall (fun kv => json_value (snd kv)) o ->
  text_of (VObj o) = "{" +++ join "," (map member_text o) +++ "}".
Proof.
  intros F. unfold text_of. cbn [serialize]. now rewrite members_text.
Qed.

Lemma length_join_ge sep (l : list string) :
  Forall (fun t => (1 <= String.length t)%nat) l ->
  (length l <= String.length (join sep l))%nat.
Proof.
  induction 1 as [|t l Ht F IH]; [cbn; lia|].
  destruct l as [|u l]; [cbn; lia|].
  change (join sep (t :: u :: l)) with (t +++ sep +++ join sep (u :: l)).
  rewrite !length_append. cbn [length] in *. lia.
Qed.

Lemma length_join_in sep (l : list string) t :
  In t l -> (String.length t <= String.length (join sep l))%nat.
Proof.
  induction l as [|u l IH]; [intros []|].
  intros [->|I].
  - destruct l; [cbn; lia|].
    change (join sep (t :: s :: l)) with (t +++ sep +++ join sep (s :: l)).
    rewrite length_append. lia.
  - specialize (IH I). destruct l as [|s l]; [destruct I|].
    change (join sep (u :: s :: l)) with (u +++ sep +++ join sep (s :: l)).
    rewrite !length_append. lia.
Qed.

Lemma list_max_in (l : list nat) x : In x l -> (x <= list_max l)%nat.
Proof.
  intros I. pose proof (proj1 (list_max_le l (list_max l)) (Nat.le_refl _)) as F.
  rewrite Forall_forall in F. auto.
Qed.

Lemma member_text_length kv :
  (1 <= String.length (member_text kv))%nat.
Proof. unfold member_text, quote. cbn. lia. Qed.

(** An object is read back as the object its members build, whether or
    not it lists them in that order. *)
Lemma parse_value_object_reads f o rest :
  Forall (fun kv => json_value (snd kv)) o ->
  Forall (fun p => reads (parse_value f) (snd p)) o ->
  parse_value (S f) (text_of (VObj o) +++ rest)
  = Some (VObj (obj_of_list o), rest).
Proof.
  intros F Rd. rewrite (text_of_obj _ F). destruct o as [|kv o].
  - reflexivity.
  - set (body := join "," (map member_text (kv :: o)) +++ "}" +++ rest).
    assert (Eb : exists r', body = String dquote r').
    { unfold body. cbn [map]. destruct o; cbn [join map];
        unfold member_text at 1, quote; cbn; eauto. }
    destruct Eb as (r' & Eb).
    assert (Ln : (length (kv :: o) <= S (String.length body))%nat).
    { unfold body. rewrite length_append.
      assert (length (map member_text (kv :: o))
              <= String.length (join "," (map member_text (kv :: o))))%nat.
      { apply length_join_ge. apply Forall_map.
        apply Forall_forall. intros y _. apply member_text_length. }
      rewrite length_map in H. lia. }
    pose proof (parse_members_join (parse_value f) o kv _ rest Rd Ln) as P.
    fold body in P.
    change (("{" +++ join "," (map member_text (kv :: o)) +++ "}") +++ rest)
      with (String "{" ((join "," (map member_text (kv :: o)) +++ "}") +++ rest)).
    rewrite append_assoc. fold body.
    change (parse_value (S f) (String "{" body))
      with (match skip_ws body with
            | EmptyString => None
            | String c' r'' =>
                if (code c' =? 125)%N then Some (VObj [], r'')
                else match parse_members (parse_value f)
                             (S (String.length body)) body with
                     | Some (ms, r3) => Some (VObj (obj_of_list ms), r3)
                     | None => None
                     end
            end).
    rewrite P, Eb. cbn [skip_ws]. change (is_ws dquote) with false.
    cbv iota. change (code dquote =? 125)%N with false. reflexivity.
Qed.

(** [parse_value] reads back the text of a value, with enough fuel for
    its depth, whatever follows. *)
Lemma parse_value_text v :
  json_value v ->
  forall fuel rest, (depth v < fuel)%nat -> follow rest ->
    parse_value fuel (text_of v +++ rest) = Some (v, rest).
Proof.
  induction v as [| |b|n|s|l IH|o IH] using value_ind2;
    intros J fuel rest D R; (destruct fuel as [|f]; [lia|]).
  - inversion J.
  - reflexivity.
  - destruct b; reflexivity.
  - inversion J as [| |m k C| | |]; subst.
    now apply parse_value_number.
  - apply parse_value_string.
  - inversion J as [| | | |? F|]; subst.
    rewrite text_of_arr. destruct l as [|x l].
    + reflexivity.
    + assert (Rd : Forall (reads (parse_value f)) (x :: l)).
      { apply Forall_forall. intros y I rest' R'.
        rewrite Forall_forall in IH, F. apply (IH y I); auto.
        cbn [depth] in D.
        pose proof (list_max_in (map depth (x :: l)) (depth y)
                      (in_map depth _ _ I)). lia. }
      destruct (text_of_head x (Forall_inv F)) as (c & r & E & St).
      destruct (starts_not_close _ _ St) as [N1 _].
      pose proof (starts_not_ws _ _ St) as W.
      set (body := join "," (map text_of (x :: l)) +++ "]" +++ rest).
      assert (Eb : exists r', body = String c r').
      { unfold body. cbn [map]. destruct l; cbn [join map]; rewrite E; cbn; eauto. }
      destruct Eb as (r' & Eb).
      assert (Ln : (length (x :: l) <= S (String.length body))%nat).
      { unfold body. rewrite length_append.
        assert (length (map text_of (x :: l))
                <= String.length (join "," (map text_of (x :: l))))%nat.
        { apply length_join_ge. apply Forall_map.
          eapply Forall_impl; [|exact F]. apply text_of_length. }
        rewrite length_map in H. lia. }
      pose proof (parse_elems_join (parse_value f) l x _ rest Rd Ln) as P.
      fold body in P.
      change (("[" +++ join "," (map text_of (x :: l)) +++ "]") +++ rest)
        with (String "[" ((join "," (map text_of (x :: l)) +++ "]") +++ rest)).
      rewrite append_assoc. fold body.
      change (parse_value (S f) (String "[" body))
        with (match skip_ws body with
              | EmptyString => None
              | String c' r'' =>
                  if (code c' =? 93)%N then Some (VArr [], r'')
                  else match parse_elems (parse_value f)
                               (S (String.length body)) body with
                       | Some (vs, r3) => Some (VArr vs, r3)
                       | None => None
                       end
              end).
      rewrite P. rewrite Eb. cbn [skip_ws]. rewrite W.
      apply N.eqb_neq in N1. now rewrite N1.
  - inversion J as [| | | | |? F E]; subst.
    rewrite parse_value_object_reads; [now rewrite E|assumption|].
    apply Forall_forall. intros y I rest' R'.
    rewrite Forall_forall in IH, F. apply (IH y I); auto.
    cbn [depth] in D.
    pose proof (list_max_in (map (fun kv => depth (snd kv)) o)
                  (depth (snd y))
                  (in_map (fun kv => depth (snd kv)) _ _ I)). lia.
Qed.

Lemma depth_le_text v :
  json_value v -> (depth v <= String.length (text_of v))%nat.
Proof.
  induction v as [| |b|n|s|l IH|o IH] using value_ind2; intros J;
    try (cbn [depth]; lia).
  - inversion J as [| | | |? F|]; subst.
    rewrite text_of_arr, !length_append. cbn [depth String.length].
    assert (list_max (map depth l)
            <= String.length (join "," (map text_of l)))%nat; [|lia].
    apply list_max_le. apply Forall_forall. intros d [x [<- I]]%in_map_iff.
    rewrite Forall_forall in IH, F.
    pose proof (IH x I (F x I)).
    pose proof (length_join_in "," (map text_of l) (text_of x)
                  (in_map text_of _ _ I)). lia.
  - inversion J as [| | | | |? F E]; subst.
    rewrite (text_of_obj _ F), !length_append. cbn [depth String.length].
    assert (list_max (map (fun kv => depth (snd kv)) o)
            <= String.length (join "," (map member_text o)))%nat; [|lia].
    apply list_max_le. apply Forall_forall. intros d [x [<- I]]%in_map_iff.
    rewrite Forall_forall in IH, F.
    pose proof (IH x I (F x I)).
    pose proof (length_join_in "," (map member_text o) (member_text x)
                  (in_map member_text _ _ I)).
    assert (String.length (text_of (snd x)) <= String.length (member_text x))%nat.
    { unfold member_text. rewrite !length_append. lia. }
    lia.
Qed.

(** [JSON.parse(JSON.stringify(v))] is [v]. *)
Theorem JSON_parse_stringify v :
  json_value v ->
  JSON_stringify v = Some (text_of v) /\ JSON_parse (text_of v) = Some v.
Proof.
  intros J. split; [now apply serialize_json|].
  unfold JSON_parse.
  pose proof (parse_value_text v J (S (String.length (text_of v))) ""
                ltac:(pose proof (depth_le_text v J); lia) I) as P.
  rewrite append_nil_r in P. now rewrite P.
Qed.

Lemma depth_obj_le_text o :
  Forall (fun kv => json_value (snd kv)) o ->
  (depth (VObj o) <= String.length (text_of (VObj o)))%nat.
Proof.
  intros F. rewrite (text_of_obj _ F), !length_append.
  cbn [depth String.length].
  assert (list_max (map (fun kv => depth (snd kv)) o)
          <= String.length (join "," (map member_text o)))%nat; [|lia].
  apply list_max_le. apply Forall_forall. intros d [x [<- I]]%in_map_iff.
  rewrite Forall_forall in F.
  pose proof (depth_le_text _ (F x I)).
  pose proof (length_join_in "," (map member_text o) (member_text x)
                (in_map member_text _ _ I)).
  assert (String.length (text_of (snd x)) <= String.length (member_text x))%nat.
  { unfold member_text. rewrite !length_append. lia. }
  lia.
Qed.

(** The text of an object whose properties hold JSON values parses to the
    object those properties build. *)
Lemma JSON_parse_object o :
  Forall (fun kv => json_value (snd kv)) o ->
  serialize (VObj o) = Some (text_of (VObj o))
  /\ JSON_parse (text_of (VObj o)) = Some (VObj (obj_of_list o)).
Proof.
  intros F. split; [reflexivity|]. unfold JSON_parse.
  pose proof (parse_value_object_reads (String.length (text_of (VObj o))) o ""
                F) as P.
  rewrite append_nil_r in P. rewrite P; [reflexivity|].
  apply Forall_forall. intros y I rest R. rewrite Forall_forall in F.
  apply parse_value_text; auto.
  pose proof (depth_obj_le_text o ltac:(now apply Forall_forall)).
  cbn [depth] in H.
  pose proof (list_max_in (map (fun kv => depth (snd kv)) o) (depth (snd y))
                (in_map (fun kv => depth (snd kv)) _ _ I)). lia.
Qed.

(** ** Distinct configurations, distinct keys *)

Lemma obj_has_false o k : obj_has o k = false <-> ~ In k (obj_keys o).
Proof.
  unfold obj_has. rewrite <- obj_find_None.
  destruct (obj_find o k); split; congruence.
Qed.

Lemma obj_insert_index_perm n k v o :
  Permutation (obj_insert_index n k v o) ((k, v) :: o).
Proof.
  induction o as [|[k' v'] o IH]; cbn; [reflexivity|].
  destruct (array_index k') as [n'|]; [|reflexivity].
  destruct (n' <? n)%N; [|reflexivity].
  rewrite IH. apply perm_swap.
Qed.

Lemma obj_set_fresh_perm o k v :
  ~ In k (obj_keys o) -> Permutation (obj_set o k v) ((k, v) :: o).
Proof.
  intros H. unfold obj_set. rewrite (proj2 (obj_has_false o k) H).
  destruct (array_index k).
  - apply obj_insert_index_perm.
  - symmetry. apply Permutation_cons_append.
Qed.

Lemma obj_of_list_acc_perm (l : list (string * value)) (acc : object) :
  NoDup (map fst l) ->
  (forall k, In k (map fst l) -> ~ In k (obj_keys acc)) ->
  Permutation (fold_left (fun o kv => obj_set o (fst kv) (snd kv)) l acc)
              (acc ++ l).
Proof.
  revert acc. induction l as [|[k v] l IH]; intros acc N D; cbn [fold_left].
  - now rewrite app_nil_r.
  - cbn [map fst] in N. inversion N as [|? ? Hn Nd]; subst. cbn [fst snd].
    assert (P : Permutation (obj_set acc k v) ((k, v) :: acc)).
    { apply obj_set_fresh_perm. apply D. now left. }
    rewrite IH; [| assumption |].
    + rewrite P. cbn. apply Permutation_middle.
    + intros k' I I'. unfold obj_keys in I'.
      apply (Permutation_in _ (Permutation_map fst P)) in I'.
      destruct I' as [<-|I']; [contradiction|].
      apply (D k'); [now right|assumption].
Qed.

Lemma obj_of_list_perm (l : list (string * value)) :
  NoDup (map fst l) -> Permutation (obj_of_list l) l.
Proof.
  intros N. unfold obj_of_list.
  rewrite obj_of_list_acc_perm; [reflexivity|assumption|].
  intros k _ [].
Qed.

(** The pairs [createCacheKey] assigns, in the order of the sort. *)
Lemma sortedConfig_eq (c : object) :
  fold_left (fun acc key => obj_set acc key (obj_get c key))
            (sort_strings (obj_keys c)) []
  = obj_of_list (map (fun k => (k, obj_get c k)) (sort_strings (obj_keys c))).
Proof.
  unfold obj_of_list. generalize (@nil (string * value)).
  induction (sort_strings (obj_keys c)) as [|k l IH]; intros acc; cbn;
    [reflexivity|apply IH].
Qed.

Lemma createCacheKey_text (c : object) :
  createCacheKey c
  = text_of (VObj (obj_of_list (map (fun k => (k, obj_get c k))
                                    (sort_strings (obj_keys c))))).
Proof. unfold createCacheKey. rewrite sortedConfig_eq. reflexivity. Qed.

Lemma pairs_of_keys (c : object) :
  NoDup (obj_keys c) ->
  map (fun k => (k, obj_get c k)) (obj_keys c) = c.
Proof.
  intros N. unfold obj_keys. rewrite map_map.
  rewrite <- (map_id c) at 2. apply map_ext_in. intros [k v] I. cbn.
  unfold obj_get. now rewrite (proj2 (obj_find_In c k v N) I).
Qed.

Lemma sorted_pairs_perm (c : object) :
  NoDup (obj_keys c) ->
  Permutation (map (fun k => (k, obj_get c k)) (sort_strings (obj_keys c))) c.
Proof.
  intros N.
  apply Permutation_trans
    with (map (fun k => (k, obj_get c k)) (obj_keys c)).
  - apply Permutation_map, sort_strings_perm.
  - now rewrite pairs_of_keys.
Qed.

Lemma sorted_pairs_keys (c : object) :
  map fst (map (fun k => (k, obj_get c k)) (sort_strings (obj_keys c)))
  = sort_strings (obj_keys c).
Proof. rewrite map_map. cbn. apply map_id. Qed.

(** The object [createCacheKey] serializes holds the fields of the
    configuration. *)
Lemma sortedConfig_perm (c : object) :
  NoDup (obj_keys c) ->
  Permutation (obj_of_list (map (fun k => (k, obj_get c k))
                                (sort_strings (obj_keys c)))) c.
Proof.
  intros N. rewrite obj_of_list_perm; [now apply sorted_pairs_perm|].
  rewrite sorted_pairs_keys.
  eapply Permutation_NoDup; [symmetry; apply sort_strings_perm|exact N].
Qed.



(** Outside these values the text loses information: a field that holds
    [undefined] is left out, and [NaN] is written [null]. *)
Remark createCacheKey_outside_json :
  createCacheKey [("type", VStr "single"); ("mediaType", VUndefined)]
  = createCacheKey [("type", VStr "single")]
  /\ createCacheKey [("mediaId", VNum NaN)]
     = createCacheKey [("mediaId", VNull)].
Proof. split; vm_compute; reflexivity. Qed.

(** ** Saving and loading the cache *)

Lemma num_gtb_not_ltb a b : num_gtb a b = true -> num_ltb a b = false.
Proof.
  unfold num_gtb, num_ltb.
  destruct a as [| | |x i], b as [| | |y j]; try discriminate; try reflexivity.
  intros H. apply Z.ltb_lt in H. apply Z.ltb_ge. lia.
Qed.

Lemma expired_not_fresh now cat e :
  expired now cat e = true -> fresh now cat e = false.
Proof. apply num_gtb_not_ltb. Qed.

Lemma entry_eta e : mkEntry (entry_value e) (entry_timestamp e) = e.
Proof. now destruct e. Qed.

Lemma set_fresh_key {V} (m : JsMap.t V) k v :
  ~ In k (JsMap.keys m) -> JsMap.set m k v = m ++ [(k, v)].
Proof.
  intros H. unfold JsMap.set, JsMap.has.
  now rewrite (proj2 (get_None_not_in m k) H).
Qed.

Lemma in_set {V} (m : JsMap.t V) k v k' v' :
  In (k', v') (JsMap.set m k v) -> (k', v') = (k, v) \/ In (k', v') m.
Proof.
  unfold JsMap.set. destruct (JsMap.has m k).
  - induction m as [|[k0 v0] m IH]; cbn; [tauto|].
    destruct (String.eqb_spec k0 k) as [->|N]; cbn.
    + intros [E|I]; [left; now symmetry|right; now right].
    + intros [E|I]; [right; now left|].
      destruct (IH I); [now left|right; now right].
  - intros [I|[E|[]]]%in_app_or; [now right|left; now symmetry].
Qed.

(** One pair written by [saveCacheToStorage], read by the callback of
    [forEach]. *)
Lemma load_entry_pair cat now counts k e p :
  exists counts' p',
    load_entry (Own cat) now counts (entry_pair (k, e)) p = (Ret counts', p')
    /\ cache p' = (if fresh now cat e
                   then with_map (cache p) cat
                          (JsMap.set (cache_map (cache p) cat) k e)
                   else cache p)
    /\ cacheTimeout p' = cacheTimeout p /\ accessToken p' = accessToken p
    /\ storage p' = storage p /\ console p' = console p.
Proof.
  unfold load_entry, entry_pair, entry_to_value. cbn [destructure_pair nth fst snd].
  cbn [truthy].
  change (get_prop (VObj [("value", entry_value e);
                          ("timestamp", VNum (entry_timestamp e))]) "timestamp")
    with (Some (VNum (entry_timestamp e))).
  change (get_prop (VObj [("value", entry_value e);
                          ("timestamp", VNum (entry_timestamp e))]) "value")
    with (Some (entry_value e)).
  cbv iota. fold (fresh now cat e). rewrite entry_eta.
  destruct (fresh now cat e).
  - unfold bind, get_cache, put_cache, ret. cbn.
    do 2 eexists. split; [reflexivity|]. cbn. auto.
  - unfold ret. do 2 eexists. split; [reflexivity|]. auto.
Qed.

Lemma forEach_load_entries cat now (m : JsMap.t entry) :
  forall counts p,
    NoDup (JsMap.keys m) ->
    (forall k, In k (JsMap.keys m) ->
               ~ In k (JsMap.keys (cache_map (cache p) cat))) ->
    exists counts' p',
      forEach (load_entry (Own cat) now) (map entry_pair m) counts p
      = (Ret counts', p')
      /\ cache p' = with_map (cache p) cat
                      (cache_map (cache p) cat
                       ++ filter (fun kv => fresh now cat (snd kv)) m)
      /\ cacheTimeout p' = cacheTimeout p /\ accessToken p' = accessToken p
      /\ storage p' = storage p /\ console p' = console p.
Proof.
  induction m as [|[k e] m IH]; intros counts p N D.
  - cbn. unfold ret. do 2 eexists. split; [reflexivity|].
    rewrite app_nil_r, with_map_same. auto.
  - cbn [map forEach]. unfold bind at 1.
    destruct (load_entry_pair cat now counts k e p)
      as (c1 & p1 & E1 & C1 & T1 & A1 & S1 & L1).
    rewrite E1.
    unfold JsMap.keys in N. cbn [map fst] in N.
    inversion N as [|? ? Hn Nd]; subst.
    assert (Dk : ~ In k (JsMap.keys (cache_map (cache p) cat))).
    { apply D. now left. }
    destruct (IH c1 p1 Nd) as (c2 & p2 & E2 & C2 & T2 & A2 & S2 & L2).
    { intros k' I I'. rewrite C1 in I'.
      destruct (fresh now cat e).
      - rewrite cache_map_with_same, set_fresh_key in I' by assumption.
        unfold JsMap.keys in I'. rewrite map_app in I'.
        apply in_app_or in I'. destruct I' as [I'|[<-|[]]].
        + apply (D k'); [now right|assumption].
        + contradiction.
      - apply (D k'); [now right|assumption]. }
    exists c2, p2. split; [exact E2|].
    split; [|repeat split; congruence].
    rewrite C2, C1. cbn [filter snd].
    destruct (fresh now cat e).
    + rewrite cache_map_with_same, set_fresh_key by assumption.
      rewrite <- app_assoc. cbn [app].
      destruct (cache p), cat; reflexivity.
    + reflexivity.
Qed.

Lemma cacheData_of_eq c :
  cacheData_of c
  = [ ("userData", entries_to_value (userData c));
      ("mediaData", entries_to_value (mediaData c));
      ("searchResults", entries_to_value (searchResults c)) ].
Proof. reflexivity. Qed.

Lemma entries_json (m : JsMap.t entry) :
  (forall k e, In (k, e) m ->
     json_value (entry_value e) /\ json_value (VNum (entry_timestamp e))) ->
  json_value (entries_to_value m).
Proof.
  intros H. unfold entries_to_value. constructor.
  apply Forall_forall. intros x [[k e] [<- I]]%in_map_iff.
  destruct (H k e I) as [Jv Jt]. cbn [fst snd].
  apply JArr. constructor; [apply JStr|]. constructor; [|constructor].
  unfold entry_to_value. apply JObj; [|reflexivity].
  constructor; [exact Jv|]. constructor; [exact Jt|constructor].
Qed.

Lemma cacheData_json c : cache_json c -> json_value (VObj (cacheData_of c)).
Proof.
  intros J. rewrite cacheData_of_eq. apply JObj; [|reflexivity].
  constructor; [|constructor; [|constructor; [|constructor]]]; cbn [snd];
    apply entries_json; intros k e I.
  - apply (J UserData k e I).
  - apply (J MediaData k e I).
  - apply (J SearchResults k e I).
Qed.

Lemma saveCacheToStorage_spec p :
  exists p1,
    saveCacheToStorage p = (Ret tt, p1)
    /\ storage p1 = Some (text_of (VObj (cacheData_of (cache p))))
    /\ cache p1 = cache p.
Proof.
  unfold saveCacheToStorage, try_catch, bind, get_cache, put_storage, write.
  cbn. eexists. split; [reflexivity|]. split; reflexivity.
Qed.

Lemma load_category_saved cat now (m : JsMap.t entry) counts p :
  NoDup (JsMap.keys m) ->
  cache_map (cache p) cat = [] ->
  exists counts' p',
    load_category now counts (category_name cat, entries_to_value m) p
    = (Ret counts', p')
    /\ cache p' = with_map (cache p) cat
                    (filter (fun kv => fresh now cat (snd kv)) m)
    /\ cacheTimeout p' = cacheTimeout p /\ accessToken p' = accessToken p
    /\ storage p' = storage p /\ console p' = console p.
Proof.
  intros N E. unfold load_category. cbn [fst snd].
  rewrite cache_slot_name. unfold entries_to_value.
  destruct (forEach_load_entries cat now m counts p N)
    as (c' & p' & F & C & R).
  { rewrite E. intros k _ []. }
  exists c', p'. split; [exact F|]. split; [|exact R].
  now rewrite C, E.
Qed.

(** Loading what was saved, into the empty cache of a new plugin. *)
Lemma load_saved c tok now :
  cache_wf c -> cache_json c ->
  exists p2,
    loadCacheFromStorage now
      (new_plugin tok (Some (text_of (VObj (cacheData_of c)))))
    = (Ret tt, p2)
    /\ forall cat, cache_map (cache p2) cat
                   = filter (fun kv => fresh now cat (snd kv)) (cache_map c cat).
Proof.
  intros W J.
  destruct (JSON_parse_stringify _ (cacheData_json c J)) as [_ P].
  set (p0 := new_plugin tok (Some (text_of (VObj (cacheData_of c))))).
  unfold loadCacheFromStorage, try_catch.
  change (storage p0) with (Some (text_of (VObj (cacheData_of c)))).
  assert (Et : exists a r, text_of (VObj (cacheData_of c)) = String a r)
    by (do 2 eexists; reflexivity).
  destruct Et as (a & r & Et). rewrite Et, <- Et, P.
  unfold load_all. rewrite cacheData_of_eq. cbn [forEach].
  destruct (load_category_saved UserData now (userData c) (O, O) p0
              (W UserData) eq_refl) as (c1 & p1 & E1 & C1 & _).
  destruct (load_category_saved MediaData now (mediaData c) c1 p1
              (W MediaData)) as (c2 & p2 & E2 & C2 & _).
  { now rewrite C1. }
  destruct (load_category_saved SearchResults now (searchResults c) c2 p2
              (W SearchResults)) as (c3 & p3 & E3 & C3 & _).
  { now rewrite C2, C1. }
  cbn [category_name] in E1, E2, E3.
  unfold bind at 1. unfold bind at 1. rewrite E1.
  unfold bind at 1. rewrite E2. unfold bind at 1. rewrite E3.
  unfold ret, write. eexists. split; [reflexivity|].
  cbn [cache]. rewrite C3, C2, C1. intros []; reflexivity.
Qed.

(** [loadCacheFromStorage] returns, whatever is stored. *)
Lemma loadCacheFromStorage_returns now p :
  fst (loadCacheFromStorage now p) = Ret tt.
Proof.
  unfold loadCacheFromStorage, try_catch.
  destruct (storage p) as [[|c s]|]; try reflexivity.
  destruct (JSON_parse (String c s)) as [v|]; [|reflexivity].
  unfold bind. destruct (load_all now v p) as [[counts|e] q]; reflexivity.
Qed.

(** A stored text that is not JSON: a warning, the item removed, and the
    cache as it was. *)
Lemma loadCacheFromStorage_unparsable now p c s :
  storage p = Some (String c s) ->
  JSON_parse (String c s) = None ->
  loadCacheFromStorage now p
  = (Ret tt,
     mkPlugin (cache p) (cacheTimeout p) (accessToken p) None
       ((WARN, "[Zoro] Failed to load cache from storage: SyntaxError")
          :: console p)).
Proof.
  intros S P. unfold loadCacheFromStorage, try_catch. rewrite S, P.
  reflexivity.
Qed.

Lemma forEach_preserves {A S} (Inv : plugin -> Prop) (f : S -> A -> M S) :
  (forall s x p, Inv p -> Inv (snd (f s x p))) ->
  forall l s p, Inv p -> Inv (snd (forEach f l s p)).
Proof.
  intros H. induction l as [|x l IH]; intros s p I; cbn; [exact I|].
  unfold bind. specialize (H s x p I).
  destruct (f s x p) as [[s'|e] p']; cbn in *; auto.
Qed.

Lemma load_entry_fresh sl now counts e p :
  all_fresh now (cache p) ->
  all_fresh now (cache (snd (load_entry sl now counts e p))).
Proof.
  intros F. unfold load_entry.
  destruct (destructure_pair e) as [[key v]|]; [|exact F].
  destruct (truthy v); [|exact F].
  destruct (get_prop v "timestamp") as [[| | |ts| | |]|]; try exact F.
  destruct sl as [cat| |]; try exact F.
  destruct (num_ltb (num_sub (Int now) ts) (ttlMap cat)) eqn:Fr; [|exact F].
  destruct key; try exact F.
  unfold bind, get_cache, put_cache, ret. cbn.
  intros cat' k' e' I.
  destruct (category_eq_dec cat cat') as [<-|N].
  - rewrite cache_map_with_same in I. apply in_set in I.
    destruct I as [[= -> ->]|I]; [exact Fr|eauto].
  - rewrite cache_map_with_other in I by assumption. eauto.
Qed.

Lemma load_all_fresh now v p :
  all_fresh now (cache p) -> all_fresh now (cache (snd (load_all now v p))).
Proof.
  intros F. unfold load_all.
  destruct v as [| | | | | |o]; try exact F.
  apply forEach_preserves; [|exact F].
  intros s [k x] q Fq. unfold load_category. cbn [fst snd].
  destruct (cache_slot k) as [cat| |]; destruct x; try exact Fq;
    (apply forEach_preserves; [|exact Fq]);
    intros; now apply load_entry_fresh.
Qed.

(** Whatever is stored, what [loadCacheFromStorage] leaves in a cache
    that was empty is fresh. *)
Lemma loadCacheFromStorage_fresh now p :
  all_fresh now (cache p) ->
  all_fresh now (cache (snd (loadCacheFromStorage now p))).
Proof.
  intros F. unfold loadCacheFromStorage, try_catch.
  destruct (storage p) as [[|c s]|]; try exact F.
  destruct (JSON_parse (String c s)) as [v|]; [|exact F].
  unfold bind. pose proof (load_all_fresh now v p F) as G.
  destruct (load_all now v p) as [[counts|e] q]; exact G.
Qed.

(** C6. Saving a cache and loading what was saved into the empty cache of
    a new plugin gives, in every category and in the same order, the
    entries that are younger than the time-to-live of their category at
    the time of loading: a fresh entry is there, an entry whose age
    exceeds the time-to-live is not.  Whatever the stored text is,
    [loadCacheFromStorage] returns without throwing and stores only
    fresh entries; when the text is not JSON it logs a warning, removes
    the item, and leaves the cache as it was: empty, in a new plugin. *)
Theorem C6_persistence_round_trip (c : Cache) (timeout : number)
    (token token' : string) (stored : option string)
    (lines : list (level * string)) (now : Z) :
  cache_wf c -> cache_json c ->
  let p1 := snd (saveCacheToStorage (mkPlugin c timeout token stored lines)) in
  let p2 := snd (loadCacheFromStorage now (new_plugin token' (storage p1))) in
  (forall cat,
     cache_map (cache p2) cat
     = filter (fun kv => fresh now cat (snd kv)) (cache_map c cat))
  /\ (forall cat k e, In (k, e) (cache_map c cat) -> fresh now cat e = true ->
        In (k, e) (cache_map (cache p2) cat))
  /\ (forall cat k e, In (k, e) (cache_map c cat) -> expired now cat e = true ->
        ~ In (k, e) (cache_map (cache p2) cat))
  /\ (forall q, fst (loadCacheFromStorage now q) = Ret tt)
  /\ (forall q, all_fresh now (cache q) ->
        all_fresh now (cache (snd (loadCacheFromStorage now q))))
  /\ (forall q ch s,
        storage q = Some (String ch s) -> JSON_parse (String ch s) = None ->
        let q' := snd (loadCacheFromStorage now q) in
        cache q' = cache q
        /\ storage q' = None
        /\ console q'
           = (WARN, "[Zoro] Failed to load cache from storage: SyntaxError")
               :: console q)
  /\ (forall ch s,
        JSON_parse (String ch s) = None ->
        cache (snd (loadCacheFromStorage now
                      (new_plugin token' (Some (String ch s)))))
        = empty_cache).
Proof.
  intros W J p1 p2.
  destruct (saveCacheToStorage_spec (mkPlugin c timeout token stored lines))
    as (q1 & E1 & S1 & _).
  assert (P1 : storage p1 = Some (text_of (VObj (cacheData_of c)))).
  { unfold p1. now rewrite E1. }
  destruct (load_saved c token' now W J) as (q2 & E2 & C2).
  assert (P2 : forall cat,
             cache_map (cache p2) cat
             = filter (fun kv => fresh now cat (snd kv)) (cache_map c cat)).
  { unfold p2. rewrite P1. rewrite E2. cbn [snd]. exact C2. }
  split; [exact P2|]. split; [|split].
  - intros cat k e I F. rewrite P2. apply filter_In. now split.
  - intros cat k e I X H. rewrite P2 in H. apply filter_In in H.
    destruct H as [_ H]. cbn [snd] in H.
    rewrite (expired_not_fresh _ _ _ X) in H. discriminate.
  - split; [intros q; apply loadCacheFromStorage_returns|].
    split; [intros q; apply loadCacheFromStorage_fresh|]. split.
    + intros q ch s S P q'. unfold q'.
      rewrite (loadCacheFromStorage_unparsable now q ch s S P). cbn. auto.
    + intros ch s P.
      rewrite (loadCacheFromStorage_unparsable now
                 (new_plugin token' (Some (String ch s))) ch s eq_refl P).
      reflexivity.
Qed.

Lemma C6_persistence_round_trip_witness :
  let p1 := snd (saveCacheToStorage
                   (mkPlugin cache_two (Int 240000) "" None [])) in
  let p2 := snd (loadCacheFromStorage 1000000
                   (new_plugin "" (storage p1))) in
  cache_wf cache_two /\ cache_json cache_two
  /\ expired 1000000 MediaData (mkEntry (VStr "stale") (Int 1000)) = true
  /\ fresh 1000000 MediaData (mkEntry (VStr "fresh") (Int 900000)) = true
  /\ mediaData (cache p2) = [("new", mkEntry (VStr "fresh") (Int 900000))].
Proof.
  assert (W : cache_wf cache_two).
  { intros []; repeat constructor; cbn; intuition discriminate. }
  assert (J : cache_json cache_two).
  { intros [] k e I; cbn in I; try contradiction.
    destruct I as [[= <- <-]|[[= <- <-]|[]]]; split; repeat constructor. }
  cbv zeta. split; [exact W|]. split; [exact J|].
  split; [reflexivity|]. split; [reflexivity|].
  pose proof (C6_persistence_round_trip cache_two (Int 240000) "" "" None []
                1000000 W J) as H.
  cbv zeta in H. destruct H as (H & _).
  exact (eq_trans (H MediaData) eq_refl).
Defined.

(** ** Which keys [clearCacheForMedia] deletes *)



(** The key of a configuration is deleted exactly when the configuration
    holds the id, as a number, in its field [mediaId]. *)
Lemma key_cleared_createCacheKey (id : number) (c : object) :
  NoDup (obj_keys c) -> Forall (fun kv => json_value (snd kv)) c ->
  key_cleared ["mediaId"] id (createCacheKey c)
  = strict_eq_num (obj_get c "mediaId") id.
Proof.
  intros N J. rewrite createCacheKey_text.
  set (s := obj_of_list (map (fun k => (k, obj_get c k))
                             (sort_strings (obj_keys c)))).
  assert (P : Permutation s c) by now apply sortedConfig_perm.
  assert (F : Forall (fun kv => json_value (snd kv)) s)
    by (eapply Permutation_Forall; [symmetry; exact P|exact J]).
  assert (M : NoDup (obj_keys s)).
  { eapply Permutation_NoDup; [symmetry; apply Permutation_map; exact P|exact N]. }
  destruct (JSON_parse_object s F) as [_ Q].
  unfold key_cleared, key_matches. rewrite Q. cbn [existsb get_prop].
  rewrite orb_false_r.
  assert (E : obj_get (obj_of_list s) "mediaId" = obj_get c "mediaId").
  { unfold obj_get.
    rewrite (obj_find_permuted (obj_of_list s) c "mediaId").
    - reflexivity.
    - eapply Permutation_NoDup;
        [symmetry; apply Permutation_map, obj_of_list_perm; exact M|exact M].
    - rewrite (obj_of_list_perm s M). exact P. }
  rewrite E. now destruct (strict_eq_num (obj_get c "mediaId") id).
Qed.




Lemma wf_app_fresh {V} (pre m : JsMap.t V) k v :
  JsMap.wf (pre ++ (k, v) :: m) ->
  (forall kv, In kv pre -> fst kv <> k) /\ JsMap.wf (pre ++ m).
Proof.
  unfold JsMap.wf, JsMap.keys. rewrite !map_app. cbn [map fst]. intros W.
  split.
  - intros kv I E. apply NoDup_remove_2 in W. apply W, in_or_app. left.
    rewrite <- E. now apply in_map.
  - now apply NoDup_remove_1 in W.
Qed.

Lemma prune_expired_filter now ttl (m pre : JsMap.t entry) :
  JsMap.wf (pre ++ m) ->
  fst (prune_expired now ttl m (pre ++ m))
  = pre ++ filter (fun kv => negb (num_gtb (num_sub (Int now)
                                     (entry_timestamp (snd kv))) ttl)) m.
Proof.
  revert pre. induction m as [|[k e] m IH]; intros pre W;
    cbn [prune_expired filter snd].
  - reflexivity.
  - destruct (wf_app_fresh pre m k e W) as [F W'].
    destruct (num_gtb _ ttl) eqn:G; cbn [negb].
    + rewrite (delete_app_fresh pre m k e F).
      specialize (IH pre W').
      destruct (prune_expired now ttl m (pre ++ m)) as [m' n] eqn:E.
      exact IH.
    + specialize (IH (pre ++ [(k, e)])).
      rewrite <- app_assoc in IH. cbn [app] in IH. rewrite IH by exact W.
      now rewrite <- app_assoc.
Qed.

Lemma num_or_ttlMap cat t : num_or (ttlMap cat) t = ttlMap cat.
Proof. now destruct cat. Qed.

Lemma prune_category_spec now cat total p :
  JsMap.wf (cache_map (cache p) cat) ->
  exists total' p',
    prune_category now total cat p = (Ret total', p')
    /\ cache p' = with_map (cache p) cat
                    (unexpired now cat (cache_map (cache p) cat))
    /\ storage p' = storage p /\ accessToken p' = accessToken p
    /\ cacheTimeout p' = cacheTimeout p.
Proof.
  intros W. unfold prune_category, bind, get_cache. cbv beta iota zeta.
  rewrite num_or_ttlMap.
  pose proof (prune_expired_filter now (ttlMap cat) (cache_map (cache p) cat) [] W) as F.
  cbn [app] in F.
  destruct (prune_expired now (ttlMap cat) _ _) as [m n]. cbn [fst] in F. subst m.
  unfold put_cache. cbv beta iota.
  destruct (0 <? n)%nat; unfold write, ret; cbv beta iota;
    do 2 eexists; (split; [reflexivity|]); cbn; auto.
Qed.

Lemma pruneCache_spec now p :
  cache_wf (cache p) ->
  exists p',
    pruneCache now p = (Ret tt, p')
    /\ (forall cat, cache_map (cache p') cat
                    = unexpired now cat (cache_map (cache p) cat))
    /\ storage p' = storage p /\ accessToken p' = accessToken p
    /\ cacheTimeout p' = cacheTimeout p.
Proof.
  intros W. unfold pruneCache, categories. cbn [forEach].
  unfold bind at 1 2.
  destruct (prune_category_spec now UserData 0%nat p (W UserData))
    as (t1 & p1 & E1 & C1 & S1 & A1 & T1).
  rewrite E1.
  assert (W1 : JsMap.wf (cache_map (cache p1) MediaData)).
  { rewrite C1. apply (W MediaData). }
  destruct (prune_category_spec now MediaData t1 p1 W1)
    as (t2 & p2 & E2 & C2 & S2 & A2 & T2).
  unfold bind at 1. rewrite E2.
  assert (W2 : JsMap.wf (cache_map (cache p2) SearchResults)).
  { rewrite C2, C1. apply (W SearchResults). }
  destruct (prune_category_spec now SearchResults t2 p2 W2)
    as (t3 & p3 & E3 & C3 & S3 & A3 & T3).
  unfold bind at 1. rewrite E3. unfold ret at 1.
  assert (K : forall cat, cache_map (cache p3) cat
                          = unexpired now cat (cache_map (cache p) cat)).
  { intros cat. rewrite C3, C2, C1. now destruct cat. }
  destruct (0 <? t3)%nat; unfold write, ret; eexists; (split; [reflexivity|]);
    cbn; repeat split; auto; congruence.
Qed.

Lemma pow10_pos k : 0 < pow10 k.
Proof. unfold pow10. apply Z.pow_pos_nonneg; lia. Qed.

Lemma pow10_S k : pow10 (S k) = 10 * pow10 k.
Proof. unfold pow10. rewrite Nat2Z.inj_succ, Z.pow_succ_r; lia. Qed.

Lemma num_ltb_norm a m k : num_ltb a (norm m k) = num_ltb a (Fin m k).
Proof.
  revert m. induction k as [|k IH]; intros m; cbn [norm]; [reflexivity|].
  destruct (m mod 10 =? 0) eqn:E; [|reflexivity].
  rewrite IH. apply Z.eqb_eq in E.
  destruct a as [| | |x i]; try reflexivity. cbn [num_ltb].
  rewrite pow10_S.
  assert (M : m = 10 * (m / 10)) by (rewrite (Z.div_mod m 10) at 1; lia).
  pose proof (pow10_pos i). pose proof (pow10_pos k).
  rewrite M at 2.
  destruct (Z.ltb_spec (x * pow10 k) (m / 10 * pow10 i));
    destruct (Z.ltb_spec (x * (10 * pow10 k)) (10 * (m / 10) * pow10 i));
    try reflexivity; nia.
Qed.

(** An entry that is too old stays too old. *)
Lemma expired_mono now now' cat e :
  now <= now' -> expired now cat e = true -> expired now' cat e = true.
Proof.
  unfold expired, num_gtb. intros L.
  destruct (entry_timestamp e) as [| | |y j]; cbn [num_sub Int]; try easy.
  rewrite !num_ltb_norm.
  replace (Nat.max 0 j - 0)%nat with j by lia.
  replace (Nat.max 0 j - j)%nat with 0%nat by lia.
  replace (Nat.max 0 j) with j by lia.
  destruct cat; cbn [ttlMap Int num_ltb]; rewrite !pow10_0;
    intros H; apply Z.ltb_lt in H; apply Z.ltb_lt;
    pose proof (pow10_pos j); nia.
Qed.

Lemma get_filter {V} (P : string * V -> bool) (m : JsMap.t V) k :
  JsMap.wf m ->
  JsMap.get (filter P m) k
  = match JsMap.get m k with
    | Some v => if P (k, v) then Some v else None
    | None => None
    end.
Proof.
  induction m as [|[k' v'] m IH]; intros W; cbn [filter JsMap.get];
    [reflexivity|].
  assert (W' : JsMap.wf m) by (now inversion W).
  assert (F : ~ In k' (JsMap.keys m)) by (now inversion W).
  destruct (String.eqb_spec k' k) as [->|N].
  - destruct (P (k, v')) eqn:E; cbn [JsMap.get].
    + now rewrite String.eqb_refl.
    + rewrite (IH W'). 
      destruct (JsMap.get m k) as [v|] eqn:G; [|reflexivity].
      exfalso. apply F. apply get_Some_in in G.
      change k with (fst (k, v)). now apply in_map.
  - destruct (P (k', v')); cbn [JsMap.get].
    + apply String.eqb_neq in N. rewrite N. now apply IH.
    + now apply IH.
Qed.

Lemma cache_ext (c c' : Cache) :
  (forall cat, cache_map c cat = cache_map c' cat) -> c = c'.
Proof.
  intros H. destruct c, c'.
  pose proof (H UserData). pose proof (H MediaData).
  pose proof (H SearchResults). cbn in *. congruence.
Qed.

Lemma wf_filter {V} (P : string * V -> bool) (m : JsMap.t V) :
  JsMap.wf m -> JsMap.wf (filter P m).
Proof.
  unfold JsMap.wf, JsMap.keys.
  induction m as [|[k v] m IH]; cbn [filter map fst]; intros W; [constructor|].
  inversion W as [|? ? F W']; subst.
  destruct (P (k, v)); cbn [map fst]; [constructor|]; auto.
  intros [x [E I]]%in_map_iff. apply filter_In in I as [I _].
  apply F. rewrite <- E. now apply in_map.
Qed.

Lemma filter_idem {A} (P : A -> bool) (l : list A) :
  filter P (filter P l) = filter P l.
Proof.
  induction l as [|x l IH]; cbn; [reflexivity|].
  destruct (P x) eqn:E; cbn; [rewrite E, IH|]; auto.
Qed.

Lemma plugin_two_wf : cache_wf (cache plugin_two).
Proof.
  intros []; cbn; unfold JsMap.wf; cbn; repeat constructor; cbn;
    intuition discriminate.
Qed.

(** X1. [pruneCache] returns normally and leaves in every map exactly the
    entries whose age at [now] does not exceed the time-to-live of their
    category, in the order they had; no entry that is left is expired,
    the stored item is not touched, and pruning again at the same moment
    changes nothing. *)
Theorem pruneCache_keeps_the_unexpired (now : Z) (p : plugin) :
  cache_wf (cache p) ->
  let r := pruneCache now p in
  fst r = Ret tt
  /\ (forall cat, cache_map (cache (snd r)) cat
                  = unexpired now cat (cache_map (cache p) cat))
  /\ (forall cat k e, In (k, e) (cache_map (cache (snd r)) cat) ->
                      expired now cat e = false)
  /\ storage (snd r) = storage p
  /\ cache (snd (pruneCache now (snd r))) = cache (snd r).
Proof.
  intros W r.
  destruct (pruneCache_spec now p W) as (p' & E & C & S & _).
  assert (R : r = (Ret tt, p')) by exact E. clearbody r. subst r.
  cbn [fst snd]. split; [reflexivity|]. split; [exact C|].
  split; [|split; [exact S|]].
  - intros cat k e I. rewrite C in I. apply filter_In in I as [_ I].
    now apply negb_true_iff in I.
  - assert (W' : cache_wf (cache p')).
    { intros cat. rewrite C. now apply wf_filter. }
    destruct (pruneCache_spec now p' W') as (p2 & E2 & C2 & _).
    rewrite E2. cbn [snd]. apply cache_ext. intros cat.
    rewrite C2, C. apply filter_idem.
Qed.

Lemma pruneCache_keeps_the_unexpired_witness :
  cache_wf (cache plugin_two)
  /\ cache_map (cache (snd (pruneCache 700000 plugin_two))) MediaData
     = [("new", mkEntry (VStr "fresh") (Int 900000))].
Proof.
  split; [exact plugin_two_wf|].
  pose proof (pruneCache_keeps_the_unexpired 700000 plugin_two
                plugin_two_wf) as H.
  cbv zeta in H. destruct H as (_ & H & _). rewrite H.
  vm_compute. reflexivity.
Defined.

(** X2. Pruning is invisible to readers: a read with the time-to-live of
    the category, at the moment of the pruning or later, returns the
    same value whether or not [pruneCache] has run. *)
Theorem pruneCache_is_invisible_to_reads (now now' : Z) (cat : category)
    (key : string) (p : plugin) :
  cache_wf (cache p) ->
  now <= now' ->
  fst (getFromCache (category_name cat) key (Some (ttlMap cat)) now'
         (snd (pruneCache now p)))
  = fst (getFromCache (category_name cat) key (Some (ttlMap cat)) now' p).
Proof.
  intros W L.
  destruct (pruneCache_spec now p W) as (p' & E & C & _).
  rewrite E. cbn [snd].
  pose proof (get_filter (fun kv => negb (expired now cat (snd kv)))
                (cache_map (cache p) cat) key (W cat)) as G.
  fold (unexpired now cat (cache_map (cache p) cat)) in G.
  rewrite <- C in G. cbn [snd] in G.
  destruct (JsMap.get (cache_map (cache p) cat) key) as [e|] eqn:Gp.
  - destruct (expired now cat e) eqn:X; cbn [negb] in G.
    + rewrite (getFromCache_absent _ _ _ _ _ G).
      destruct (getFromCache_expired cat key (ttlMap cat) now' p e Gp
                  (expired_mono now now' cat e L X)) as (q & Eq & _).
      now rewrite Eq.
    + destruct (num_gtb (num_sub (Int now') (entry_timestamp e)) (ttlMap cat))
        eqn:X'.
      * destruct (getFromCache_expired cat key _ now' p e Gp X') as (q & Eq & _).
        destruct (getFromCache_expired cat key _ now' p' e G X') as (q' & Eq' & _).
        now rewrite Eq, Eq'.
      * now rewrite (getFromCache_fresh cat key _ now' p e Gp X'),
                    (getFromCache_fresh cat key _ now' p' e G X').
  - rewrite (getFromCache_absent _ _ _ _ _ G).
    now rewrite (getFromCache_absent _ _ _ _ _ Gp).
Qed.

Lemma pruneCache_is_invisible_to_reads_witness :
  cache_wf (cache plugin_two) /\ 700000 <= 800000
  /\ fst (getFromCache (category_name MediaData) "old"
            (Some (ttlMap MediaData)) 800000
            (snd (pruneCache 700000 plugin_two)))
     = Ret VNull.
Proof.
  split; [exact plugin_two_wf|]. split; [lia|].
  rewrite (pruneCache_is_invisible_to_reads 700000 800000 MediaData "old"
             plugin_two plugin_two_wf ltac:(lia)).
  vm_compute. reflexivity.
Defined.

Lemma parseInt_cases v : parseInt v = NaN \/ exists z, parseInt v = Int z.
Proof.
  unfold parseInt.
  destruct (skip_str_ws (to_string v)) as [|c r].
  - cbn. now left.
  - destruct (code c =? 45)%N; [|destruct (code c =? 43)%N];
      match goal with |- context [read_digits ?s] =>
        destruct (read_digits s) as [[|d ds] rest] end;
      (now left) || (right; eexists; reflexivity).
Qed.

(** A key of [createCacheKey] lists its names in sorted order, so it is
    the text of no object whose names are listed otherwise. *)
Lemma createCacheKey_not_text (c : object) (o : object) (a b : ascii) r r' :
  NoDup (obj_keys c) ->
  Forall (fun kv => json_value (snd kv)) c ->
  Forall (fun kv => json_value (snd kv)) o ->
  NoDup (obj_keys o) ->
  obj_of_list o = o ->
  text_of (VObj (obj_of_list (map (fun k => (k, obj_get o k))
                                  (sort_strings (obj_keys o)))))
    = String "{" (String dquote (String a r)) ->
  text_of (VObj o) = String "{" (String dquote (String b r')) ->
  a <> b ->
  createCacheKey c <> text_of (VObj o).
Proof.
  intros N J Jo No Oo Ta Tb D E.
  rewrite createCacheKey_text in E.
  set (s := obj_of_list (map (fun k => (k, obj_get c k))
                             (sort_strings (obj_keys c)))) in *.
  assert (P : Permutation s c) by now apply sortedConfig_perm.
  assert (F : Forall (fun kv => json_value (snd kv)) s)
    by (eapply Permutation_Forall; [symmetry; exact P|exact J]).
  assert (Ns : NoDup (map fst s)).
  { eapply Permutation_NoDup; [symmetry; apply Permutation_map; exact P|exact N]. }
  destruct (JSON_parse_object s F) as [_ Q1].
  destruct (JSON_parse_object o Jo) as [_ Q2].
  rewrite E, Q2 in Q1. injection Q1 as Q. rewrite Oo in Q.
  assert (Pc : Permutation c o).
  { rewrite <- P, <- (obj_of_list_perm s Ns), <- Q. reflexivity. }
  assert (K : createCacheKey c
              = text_of (VObj (obj_of_list (map (fun k => (k, obj_get o k))
                                  (sort_strings (obj_keys o)))))).
  { rewrite createCacheKey_text. do 3 f_equal.
    rewrite (sort_strings_permuted (obj_keys c) (obj_keys o))
      by (now apply Permutation_map).
    apply map_ext. intros k. unfold obj_get.
    now rewrite (obj_find_permuted c o k N Pc). }
  rewrite createCacheKey_text in K. fold s in K.
  rewrite K, Ta, Tb in E. injection E as E _. contradiction.
Qed.

Lemma createCacheKey_not_singleKey (c : object) (u mt : value) (z : Z) :
  NoDup (obj_keys c) ->
  Forall (fun kv => json_value (snd kv)) c ->
  json_value u -> json_value mt ->
  createCacheKey c <> stringify_object (singleKey_object u (Int z) mt).
Proof.
  intros N J Ju Jm.
  assert (Jz : json_value (VNum (Int z))) by (constructor; now left).
  change (stringify_object (singleKey_object u (Int z) mt))
    with (text_of (VObj (singleKey_object u (Int z) mt))).
  eapply (createCacheKey_not_text c _ "m" "u"); try assumption.
  - unfold singleKey_object. repeat constructor; assumption.
  - unfold singleKey_object. repeat constructor; cbn; intuition discriminate.
  - reflexivity.
  - change (sort_strings (obj_keys (singleKey_object u (Int z) mt)))
      with ["mediaId"; "mediaType"; "type"; "username"].
    cbn [map obj_get obj_find singleKey_object String.eqb Ascii.eqb Bool.eqb].
    change (obj_of_list ?l) with l.
    rewrite text_of_obj by (repeat constructor; assumption).
    cbn. reflexivity.
  - unfold singleKey_object.
    rewrite text_of_obj by (repeat constructor; assumption).
    cbn. reflexivity.
  - discriminate.
Qed.

Lemma createCacheKey_not_listKey (c : object) (u mt : value) :
  NoDup (obj_keys c) ->
  Forall (fun kv => json_value (snd kv)) c ->
  json_value u -> json_value mt ->
  createCacheKey c <> stringify_object (listKey_object u mt).
Proof.
  intros N J Ju Jm.
  change (stringify_object (listKey_object u mt))
    with (text_of (VObj (listKey_object u mt))).
  eapply (createCacheKey_not_text c _ "l" "u"); try assumption.
  - unfold listKey_object. repeat constructor; assumption.
  - unfold listKey_object. repeat constructor; cbn; intuition discriminate.
  - reflexivity.
  - change (sort_strings (obj_keys (listKey_object u mt)))
      with ["listType"; "mediaType"; "type"; "username"].
    cbn [map obj_get obj_find listKey_object String.eqb Ascii.eqb Bool.eqb].
    change (obj_of_list ?l) with l.
    rewrite text_of_obj by (repeat constructor; assumption).
    cbn. reflexivity.
  - unfold listKey_object.
    rewrite text_of_obj by (repeat constructor; assumption).
    cbn. reflexivity.
  - discriminate.
Qed.

(** X3. [clearSingleEntryCache] never removes an entry stored under a key
    of [createCacheKey]: the two keys it deletes list their names as the
    object literals write them ([username] first), while [createCacheKey]
    lists the names of a configuration in sorted order.  So, for every
    configuration with JSON-valued fields and in every category, the
    entry under the key of that configuration is after the call what it
    was before it. *)
Theorem clearSingleEntryCache_misses_cache_keys
    (mediaId username mediaType : value) (c : object) (cat : category)
    (p : plugin) :
  NoDup (obj_keys c) ->
  Forall (fun kv => json_value (snd kv)) c ->
  json_value username ->
  mediaType = VUndefined \/ json_value mediaType ->
  let r := clearSingleEntryCache mediaId username mediaType p in
  fst r = Ret tt
  /\ JsMap.get (cache_map (cache (snd r)) cat) (createCacheKey c)
     = JsMap.get (cache_map (cache p) cat) (createCacheKey c).
Proof.
  intros N J Ju Jm. unfold clearSingleEntryCache.
  set (mt := match mediaType with VUndefined => VStr "ANIME" | _ => mediaType end).
  assert (Jmt : json_value mt).
  { subst mt. destruct Jm as [->|Jm]; [constructor|].
    destruct mediaType; try assumption. inversion Jm. }
  cbv zeta.
  destruct (parseInt_cases mediaId) as [->|[z ->]]; [cbn; auto|].
  destruct (negb (truthy (VNum (Int z))) || negb (truthy username))%bool;
    [cbn; auto|].
  unfold bind, get_cache, put_cache, write. cbn [fst snd cache].
  split; [reflexivity|].
  pose proof (createCacheKey_not_singleKey c username mt z N J Ju Jmt) as D1.
  pose proof (createCacheKey_not_listKey c username mt N J Ju Jmt) as D2.
  destruct cat; cbn [cache_map with_map userData mediaData searchResults];
    try reflexivity; apply get_delete_other; congruence.
Qed.

Lemma clearSingleEntryCache_misses_cache_keys_witness :
  JsMap.get
    (cache_map (cache (snd (clearSingleEntryCache (VInt 42) (VStr "alice")
                              (VStr "ANIME") plugin_42))) MediaData)
    (createCacheKey (config_single 42))
  = Some (mkEntry data_42 (Int 1000)).
Proof.
  assert (N : NoDup (obj_keys (config_single 42)))
    by (repeat constructor; cbn; intuition discriminate).
  assert (J : Forall (fun kv => json_value (snd kv)) (config_single 42))
    by (repeat constructor).
  pose proof (clearSingleEntryCache_misses_cache_keys
                (VInt 42) (VStr "alice") (VStr "ANIME") (config_single 42)
                MediaData plugin_42 N J (JStr "alice")
                (or_intror (JStr "ANIME"))) as H.
  cbv zeta in H. destruct H as [_ H]. rewrite H.
  vm_compute. reflexivity.
Defined.

(** ** What hydration keeps *)

Lemma has_set {V} (m : JsMap.t V) k k' v :
  JsMap.has m k = true -> JsMap.has (JsMap.set m k' v) k = true.
Proof.
  unfold JsMap.has. destruct (String.eqb_spec k' k) as [->|N].
  - now rewrite get_set_same.
  - now rewrite get_set_other.
Qed.

Lemma load_entry_keeps sl now counts e cat k p :
  JsMap.has (cache_map (cache p) cat) k = true ->
  JsMap.has (cache_map (cache (snd (load_entry sl now counts e p))) cat) k
  = true.
Proof.
  intros F. unfold load_entry.
  destruct (destructure_pair e) as [[key v]|]; [|exact F].
  destruct (truthy v); [|exact F].
  destruct (get_prop v "timestamp") as [[| | |ts| | |]|]; try exact F.
  destruct sl as [cat'| |]; try exact F.
  destruct (num_ltb (num_sub (Int now) ts) (ttlMap cat')); [|exact F].
  destruct key; try exact F.
  unfold bind, get_cache, put_cache, ret. cbn.
  destruct (category_eq_dec cat' cat) as [<-|N].
  - rewrite cache_map_with_same. now apply has_set.
  - now rewrite cache_map_with_other.
Qed.

Lemma load_all_keeps now v cat k p :
  JsMap.has (cache_map (cache p) cat) k = true ->
  JsMap.has (cache_map (cache (snd (load_all now v p))) cat) k = true.
Proof.
  intros F. unfold load_all.
  destruct v as [| | | | | |o]; try exact F.
  apply (forEach_preserves
           (fun q => JsMap.has (cache_map (cache q) cat) k = true)); [|exact F].
  intros s [k' x] q Fq. unfold load_category. cbn [fst snd].
  destruct (cache_slot k') as [cat'| |]; destruct x; try exact Fq;
    (apply (forEach_preserves
              (fun q => JsMap.has (cache_map (cache q) cat) k = true));
     [|exact Fq]);
    intros; now apply load_entry_keeps.
Qed.

(** X4. Whatever is stored, [loadCacheFromStorage] removes nothing from
    the cache: a key that a map holds before the call is held by that
    map after it. *)
Theorem loadCacheFromStorage_removes_nothing (now : Z) (p : plugin)
    (cat : category) (k : string) :
  JsMap.has (cache_map (cache p) cat) k = true ->
  JsMap.has (cache_map (cache (snd (loadCacheFromStorage now p))) cat) k
  = true.
Proof.
  intros F. unfold loadCacheFromStorage, try_catch.
  destruct (storage p) as [[|c s]|]; try exact F.
  destruct (JSON_parse (String c s)) as [v|]; [|exact F].
  unfold bind. pose proof (load_all_keeps now v cat k p F) as G.
  destruct (load_all now v p) as [[counts|e] q]; exact G.
Qed.

Lemma loadCacheFromStorage_removes_nothing_witness :
  JsMap.has
    (cache_map
       (cache (snd (loadCacheFromStorage 700000
                      (snd (saveCacheToStorage plugin_two))))) MediaData)
    "old"
  = true.
Proof.
  apply (loadCacheFromStorage_removes_nothing 700000
           (snd (saveCacheToStorage plugin_two)) MediaData "old").
  vm_compute. reflexivity.
Defined.

(** ** [fetchZoroData] and the rest of the cache *)

Lemma touches_only_refl cat key p : touches_only cat key p p.
Proof. unfold touches_only. auto. Qed.

Lemma touches_only_trans cat key p q r :
  touches_only cat key p q -> touches_only cat key q r ->
  touches_only cat key p r.
Proof.
  intros (A & B & C & D) (A' & B' & C' & D'). unfold touches_only.
  repeat split; try congruence.
  intros cat' k H. now rewrite A', A.
Qed.

Lemma touches_only_write cat key l msg p :
  touches_only cat key p (snd (write l msg p)).
Proof. unfold touches_only, write. cbn. auto. Qed.

Lemma touches_only_with cat key p q (m : JsMap.t entry) :
  cache q = with_map (cache p) cat m ->
  (forall k, k <> key -> JsMap.get m k = JsMap.get (cache_map (cache p) cat) k) ->
  storage q = storage p -> accessToken q = accessToken p ->
  cacheTimeout q = cacheTimeout p ->
  touches_only cat key p q.
Proof.
  intros C G S A T. unfold touches_only. repeat split; try assumption.
  intros cat' k H. rewrite C.
  destruct (category_eq_dec cat cat') as [<-|N].
  - rewrite cache_map_with_same. apply G. destruct H; congruence.
  - now rewrite cache_map_with_other.
Qed.

Lemma getFromCache_touches cat key ttl now p :
  exists v q,
    getFromCache (category_name cat) key ttl now p = (Ret v, q)
    /\ touches_only cat key p q
    /\ (truthy v = true ->
        q = p /\ exists e, JsMap.get (cache_map (cache p) cat) key = Some e
                           /\ entry_value e = v).
Proof.
  unfold getFromCache. rewrite cache_slot_name.
  unfold bind, get_cache. cbv beta iota.
  destruct (JsMap.get (cache_map (cache p) cat) key) as [e|] eqn:G.
  - cbv beta iota zeta.
    match goal with |- context [if ?c then _ else _] => destruct c end.
    + unfold put_cache, write, ret. cbn. do 2 eexists.
      split; [reflexivity|]. split; [|discriminate].
      eapply touches_only_with; cbn; try reflexivity.
      intros k N. now apply get_delete_other.
    + unfold ret. do 2 eexists. split; [reflexivity|].
      split; [apply touches_only_refl|]. intros _. split; [reflexivity|].
      now exists e.
  - unfold ret. do 2 eexists. split; [reflexivity|].
    split; [apply touches_only_refl|]. discriminate.
Qed.

Lemma handle_response_touches cat key response later p :
  (exists e, handle_response cat key response later p = (Throw e, p))
  \/ (exists data q,
        handle_response cat key response later p = (Ret data, q)
        /\ truthy data = true
        /\ touches_only cat key p q
        /\ JsMap.get (cache_map (cache q) cat) key
           = Some (mkEntry data (Int later))).
Proof.
  unfold handle_response.
  destruct (get_prop response "json") as [result|]; [|left; eexists; reflexivity].
  destruct (negb (truthy result)); [left; eexists; reflexivity|].
  destruct (get_prop result "errors") as [errors|]; [|left; eexists; reflexivity].
  match goal with |- context [if ?c then _ else _] => destruct c end.
  { left. apply throw_first_error_throws. }
  destruct (get_prop result "data") as [data|] eqn:D;
    [|left; eexists; reflexivity].
  destruct (negb (truthy data)) eqn:Td; [left; eexists; reflexivity|].
  right. destruct (setToCache_spec cat key data later p) as (p' & E & C & T & A & S).
  unfold bind. rewrite E. unfold write, ret. cbn.
  exists data. eexists. split; [reflexivity|].
  split; [now apply negb_false_iff|]. split.
  - eapply touches_only_with; cbn; try eassumption; try reflexivity.
    intros k N. apply get_set_other. congruence.
  - cbn. rewrite C, cache_map_with_same. apply get_set_same.
Qed.

(** The three ways a call of [fetchZoroData] ends: served from the cache,
    failed, or fetched and stored. *)
Lemma fetchZoroData_outcome config now net later p :
  let cat := cacheType_of config in
  let key := createCacheKey config in
  let r := fetchZoroData config now net later p in
  touches_only cat key p (snd r)
  /\ ((exists e, truthy (obj_get config "nocache") = false
                 /\ JsMap.get (cache_map (cache p) cat) key = Some e
                 /\ truthy (entry_value e) = true
                 /\ fst r = Ret (entry_value e)
                 /\ cache (snd r) = cache p)
      \/ (exists err, fst r = Throw err)
      \/ (exists data, fst r = Ret data
                       /\ truthy data = true
                       /\ JsMap.get (cache_map (cache (snd r)) cat) key
                          = Some (mkEntry data (Int later)))).
Proof.
  intros cat key r.
  assert (Er : r = fetchZoroData config now net later p) by reflexivity.
  clearbody r. unfold fetchZoroData in Er. fold cat in Er. fold key in Er.
  unfold bind at 1 in Er.
  assert (R : exists v q,
             (if negb (truthy (obj_get config "nocache"))
              then getFromCache (category_name cat) key
                     (Some (num_or (ttlMap cat) (cacheTimeout p))) now
              else ret (VBool false)) p = (Ret v, q)
             /\ touches_only cat key p q
             /\ (truthy v = true ->
                 truthy (obj_get config "nocache") = false
                 /\ q = p
                 /\ exists e, JsMap.get (cache_map (cache p) cat) key = Some e
                              /\ entry_value e = v)).
  { destruct (truthy (obj_get config "nocache")); cbn [negb].
    - exists (VBool false), p. split; [reflexivity|].
      split; [apply touches_only_refl|discriminate].
    - destruct (getFromCache_touches cat key
                  (Some (num_or (ttlMap cat) (cacheTimeout p))) now p)
        as (v & q & E & T & H).
      exists v, q. split; [exact E|]. split; [exact T|].
      intros Tv. destruct (H Tv) as [-> X]. auto. }
  destruct R as (v & q & E & T & H). rewrite E in Er. clear E.
  destruct (truthy v) eqn:Tv.
  - destruct (H eq_refl) as (Nc & -> & e & G & <-).
    unfold bind, write, ret in Er. subst r. cbn [fst snd]. split.
    + unfold touches_only. cbn. auto.
    + left. exists e. cbn. auto.
  - clear H. unfold bind at 1 in Er. unfold write at 1 in Er.
    set (q1 := mkPlugin _ _ _ _ _) in Er.
    assert (T1 : touches_only cat key p q1).
    { eapply touches_only_trans; [exact T|]. unfold touches_only. cbn. auto. }
    clearbody q1. clear T q.
    unfold try_catch in Er. destruct net as [e|response].
    + unfold throw at 1 in Er. unfold bind, write, throw in Er. subst r.
      cbn [fst snd]. split.
      * eapply touches_only_trans; [exact T1|]. unfold touches_only. cbn. auto.
      * right. left. now exists e.
    + destruct (handle_response_touches cat key response later q1)
        as [[e He]|(data & q2 & He & Td & T2 & G)]; rewrite He in Er.
      * unfold bind, write, throw in Er. subst r. cbn [fst snd]. split.
        -- eapply touches_only_trans; [exact T1|]. unfold touches_only. cbn. auto.
        -- right. left. now exists e.
      * subst r. cbn [fst snd]. split.
        -- eapply touches_only_trans; eassumption.
        -- right. right. exists data. auto.
Qed.

(** X5. [fetchZoroData] touches one entry only: whatever the
    configuration, the state of the cache and the reply of the network,
    every entry other than the one under the key of the configuration,
    in the map of its category, is after the call what it was before,
    and the stored item is not written. *)
Theorem fetchZoroData_touches_one_entry (config : object) (now later : Z)
    (net : reply) (p : plugin) (cat : category) (k : string) :
  cat <> cacheType_of config \/ k <> createCacheKey config ->
  let r := fetchZoroData config now net later p in
  JsMap.get (cache_map (cache (snd r)) cat) k
  = JsMap.get (cache_map (cache p) cat) k
  /\ storage (snd r) = storage p.
Proof.
  intros H r.
  destruct (fetchZoroData_outcome config now net later p) as [(A & S & _) _].
  split; [now apply A|exact S].
Qed.

Lemma fetchZoroData_touches_one_entry_witness :
  JsMap.get
    (cache_map (cache (snd (fetchZoroData (config_single 99) 2000
                              (Responds response_42) 2500 plugin_42)))
               MediaData)
    (createCacheKey (config_single 42))
  = Some (mkEntry data_42 (Int 1000)).
Proof.
  assert (D : createCacheKey (config_single 42)
              <> createCacheKey (config_single 99))
    by (vm_compute; discriminate).
  pose proof (fetchZoroData_touches_one_entry (config_single 99) 2000 2500
                (Responds response_42) plugin_42 MediaData
                (createCacheKey (config_single 42)) (or_intror D)) as H.
  cbv zeta in H. destruct H as [H _]. rewrite H.
  vm_compute. reflexivity.
Defined.

(** X6. [fetchZoroData] never returns a falsy value: what it returns is a
    truthy cached value or the truthy [data] of a response; a cached
    value that is falsy is not served. *)
Theorem fetchZoroData_returns_truthy (config : object) (now later : Z)
    (net : reply) (p : plugin) (v : value) :
  fst (fetchZoroData config now net later p) = Ret v -> truthy v = true.
Proof.
  intros E.
  destruct (fetchZoroData_outcome config now net later p)
    as [_ [(e & _ & _ & Te & R & _)|[(err & R)|(data & R & Td & _)]]];
    rewrite R in E.
  - now injection E as <-.
  - discriminate.
  - now injection E as <-.
Qed.

Lemma fetchZoroData_returns_truthy_witness :
  fst (fetchZoroData config_nocache 1000 (Responds response_42) 1200
         (new_plugin "" None)) = Ret data_42
  /\ truthy data_42 = true.
Proof.
  assert (E : fst (fetchZoroData config_nocache 1000 (Responds response_42)
                     1200 (new_plugin "" None)) = Ret data_42)
    by (vm_compute; reflexivity).
  split; [exact E|].
  exact (fetchZoroData_returns_truthy config_nocache 1000 1200
           (Responds response_42) (new_plugin "" None) data_42 E).
Defined.

Lemma fetchZoroData_hit config now net later p e :
  truthy (obj_get config "nocache") = false ->
  JsMap.get (cache_map (cache p) (cacheType_of config)) (createCacheKey config)
  = Some e ->
  truthy (entry_value e) = true ->
  expired now (cacheType_of config) e = false ->
  let r := fetchZoroData config now net later p in
  fst r = Ret (entry_value e) /\ cache (snd r) = cache p.
Proof.
  intros Nc G Tv X r.
  assert (Er : r = fetchZoroData config now net later p) by reflexivity.
  clearbody r. unfold fetchZoroData in Er. rewrite Nc in Er. cbn [negb] in Er.
  unfold bind at 1 in Er. rewrite num_or_ttlMap in Er.
  rewrite (getFromCache_fresh _ _ _ _ _ e G X) in Er. rewrite Tv in Er.
  unfold bind, write, ret in Er. subst r. cbn. auto.
Qed.

(** X7. What a call fetched, the next call is served from the cache: when
    [fetchZoroData], called without [nocache] on a cache that has no
    entry for the configuration, returns [data], a later call with the
    same configuration made no more than the time-to-live of the
    category after the response returns [data] again, whatever the
    network would reply, and leaves the cache as it is. *)
Theorem fetchZoroData_then_served_from_cache (config : object)
    (now later now2 later2 : Z) (net net2 : reply) (p : plugin)
    (data : value) :
  truthy (obj_get config "nocache") = false ->
  JsMap.get (cache_map (cache p) (cacheType_of config)) (createCacheKey config)
  = None ->
  let r1 := fetchZoroData config now net later p in
  fst r1 = Ret data ->
  now2 - later <= ttl_millis (cacheType_of config) ->
  let r2 := fetchZoroData config now2 net2 later2 (snd r1) in
  fst r2 = Ret data /\ cache (snd r2) = cache (snd r1).
Proof.
  intros Nc G r1 E1 L.
  destruct (fetchZoroData_outcome config now net later p)
    as [_ [(e & _ & Ge & _)|[(err & R)|(d & R & Td & Gd)]]].
  - rewrite G in Ge. discriminate.
  - fold r1 in R. rewrite R in E1. discriminate.
  - fold r1 in R, Gd. rewrite R in E1. injection E1 as ->.
    apply (fetchZoroData_hit config now2 net2 later2 (snd r1)
             (mkEntry data (Int later)) Nc Gd Td).
    unfold expired. cbn [entry_timestamp]. rewrite num_sub_Int.
    unfold ttl_millis in L.
    destruct (cacheType_of config); cbn [ttlMap] in *;
      rewrite num_gtb_Int; apply Z.ltb_ge; exact L.
Qed.

Lemma fetchZoroData_then_served_from_cache_witness :
  fst (fetchZoroData (config_single 42) 500000 (Rejects (Error "offline"))
         500100
         (snd (fetchZoroData (config_single 42) 1000 (Responds response_42)
                 1200 (new_plugin "" None))))
  = Ret data_42.
Proof.
  assert (H1 : truthy (obj_get (config_single 42) "nocache") = false)
    by (vm_compute; reflexivity).
  assert (H2 : JsMap.get (cache_map (cache (new_plugin "" None))
                            (cacheType_of (config_single 42)))
                 (createCacheKey (config_single 42)) = None)
    by (vm_compute; reflexivity).
  assert (H3 : fst (fetchZoroData (config_single 42) 1000
                      (Responds response_42) 1200 (new_plugin "" None))
               = Ret data_42)
    by (vm_compute; reflexivity).
  assert (H4 : 500000 - 1200 <= ttl_millis (cacheType_of (config_single 42)))
    by (vm_compute; discriminate).
  pose proof (fetchZoroData_then_served_from_cache (config_single 42)
                1000 1200 500000 500100 (Responds response_42)
                (Rejects (Error "offline")) (new_plugin "" None) data_42
                H1 H2) as H.
  cbv zeta in H. exact (proj1 (H H3 H4)).
Defined.

(** ** The loader and the content of the queue *)

Section QueueMore.

Import RequestQueue.

Lemma inv_processing d s :
  inv d s ->
  (isProcessing s = false /\ queue s = [] /\ awaiting s = [] /\ timers s = [])
  \/ (isProcessing s = true
      /\ (timers s = [] \/ awaiting s = [])).
Proof.
  intros [n R Q|n R|n R].
  - left. destruct R. auto.
  - right. destruct R. auto.
  - right. destruct R. auto.
Qed.

Lemma process_loader_busy icon s :
  loader_tracks icon s -> isProcessing s = true -> queue s <> [] ->
  process s = s.
Proof.
  intros _ P Q. unfold process. rewrite P. cbn [orb].
  destruct (queue s); [contradiction|reflexivity].
Qed.

Lemma process_loader icon s :
  showLoadingIcon s = icon ->
  isProcessing s = false ->
  (2 <= length (queue s) -> loader s = icon)%nat ->
  (length (queue s) = 1%nat -> loader s = false \/ loader s = icon) ->
  loader_tracks icon (process s).
Proof.
  intros I P L2 L1. subst icon. unfold process. rewrite P. cbn [orb].
  destruct (queue s) as [|tk [|tk' rest]] eqn:Q; cbn [length Nat.eqb queue].
  - unfold loader_tracks, hideGlobalLoader. cbn. rewrite P.
    split; [reflexivity|]. now rewrite andb_false_r.
  - unfold showGlobalLoader. cbn [showLoadingIcon].
    destruct (showLoadingIcon s) eqn:I; cbn [negb queue];
      destruct (throws tk); unfold loader_tracks, finish; cbn; rewrite ?I;
      (split; [reflexivity|]); try reflexivity;
      destruct (L1 eq_refl) as [E|E]; rewrite E; reflexivity.
  - destruct (throws tk); unfold loader_tracks, finish; cbn;
      (split; [reflexivity|]); rewrite andb_true_r; apply L2; cbn; lia.
Qed.

Lemma step_loader d icon s e s' :
  inv d s -> loader_tracks icon s -> step s e = Some s' ->
  loader_tracks icon s'.
Proof.
  intros V [I L]. unfold step.
  destruct (event_time e <? clock s); [discriminate|].
  destruct e as [thr now|id o now|dl now].
  - intros [= <-]. unfold add.
    destruct (inv_processing d s V) as [(P & Q & _)|(P & _)].
    + apply process_loader; cbn; try assumption.
      * rewrite Q. cbn. lia.
      * intros _. left. rewrite L, P. apply andb_false_r.
    + rewrite (process_loader_busy icon); cbn; try assumption.
      * split; [exact I|]. cbn. exact L.
      * split; [exact I|]. cbn. exact L.
      * now destruct (queue s).
  - destruct (mem_nat id (awaiting s)); [|discriminate].
    intros [= <-]. unfold finish, tick. split; cbn; assumption.
  - destruct (mem_Z dl (timers s) && (dl <=? now))%bool eqn:C; [|discriminate].
    intros [= <-]. unfold on_timeout.
    apply andb_prop in C as [C _].
    destruct (inv_processing d s V) as [(_ & _ & _ & T)|(P & _)].
    + rewrite T in C. discriminate.
    + rewrite P, andb_true_r in L.
      apply process_loader; cbn; auto.
Qed.

Lemma run_loader d icon t0 evs s :
  run (configure d (constructor icon t0)) evs = Some s ->
  loader_tracks icon s.
Proof.
  revert s. induction evs as [|e evs IH] using rev_ind; intros s.
  - cbn. intros [= <-]. split; cbn; [reflexivity|now rewrite andb_false_r].
  - rewrite run_app.
    destruct (run (configure d (constructor icon t0)) evs) as [s1|] eqn:R;
      [|discriminate].
    intros E. destruct (run_invariants d icon t0 evs s1 R) as [V _].
    eapply step_loader; eauto.
Qed.

(** X8. The loader follows the queue: in every state a run of the queue
    reaches, with the setting [showLoadingIcon] left as it was, the loader
    is displayed exactly when the setting is on and the queue is at work
    ([isProcessing]); and when the queue is not at work nothing is
    pending: no task is queued, none is awaited, no timer is set. *)
Theorem loader_follows_the_queue (d : Z) (icon : bool) (t0 : Z)
    (evs : list event) (s : t) :
  run (configure d (constructor icon t0)) evs = Some s ->
  loader s = (icon && isProcessing s)%bool
  /\ (isProcessing s = false ->
      queue s = [] /\ awaiting s = [] /\ timers s = []).
Proof.
  intros R. split.
  - apply (run_loader d icon t0 evs s R).
  - intros P. destruct (run_invariants d icon t0 evs s R) as [V _].
    destruct (inv_processing d s V) as [(_ & Q)|(P' & _)]; [exact Q|].
    congruence.
Qed.

Lemma loader_follows_the_queue_witness :
  run (configure 700 (constructor true 0)) demo_events = Some demo_state
  /\ loader demo_state = true.
Proof.
  assert (R : run (configure 700 (constructor true 0)) demo_events
              = Some demo_state) by (vm_compute; reflexivity).
  split; [exact R|].
  rewrite (proj1 (loader_follows_the_queue 700 true 0 demo_events
                    demo_state R)).
  vm_compute. reflexivity.
Defined.

(** X9. No task is lost, repeated or overtaken: in every state a run of
    the queue reaches, the tasks started, in the order of their start,
    followed by the tasks still queued, in the order of the queue, are
    the tasks submitted, in the order of their submission. *)
Theorem queue_holds_the_unstarted (d : Z) (icon : bool) (t0 : Z)
    (evs : list event) (s : t) :
  run (configure d (constructor icon t0)) evs = Some s ->
  started_ids s ++ map task_id (queue s) = seq 0 (submitted s).
Proof.
  intros R. destruct (run_invariants d icon t0 evs s R) as [V _].
  assert (E : forall b n, hist d b n (history s) ->
                started_ids s = seq 0 (if b then S n else n)).
  { intros b n H. unfold started_ids, chronicle.
    rewrite filter_rev, map_rev, (hist_ids _ _ _ _ H). apply rev_involutive. }
  destruct V as [n Rd Q|n Rn|n Rw].
  - destruct Rd. rewrite (E false n r_hist0), r_queue0, <- seq_app.
    f_equal. lia.
  - destruct Rn. rewrite (E true n u_hist0), u_queue0, <- seq_app.
    f_equal. lia.
  - destruct Rw. rewrite (E false (S n) w_hist0), w_queue0, <- seq_app.
    f_equal. lia.
Qed.

Lemma queue_holds_the_unstarted_witness :
  run (configure 700 (constructor true 0)) demo_events = Some demo_state
  /\ started_ids demo_state ++ map task_id (queue demo_state)
     = [0; 1; 2]%nat.
Proof.
  assert (R : run (configure 700 (constructor true 0)) demo_events
              = Some demo_state) by (vm_compute; reflexivity).
  split; [exact R|].
  rewrite (queue_holds_the_unstarted 700 true 0 demo_events demo_state R).
  vm_compute. reflexivity.
Defined.

End QueueMore.

(** ** [updateMediaListEntry] *)

Lemma clearCacheForMedia_returns mediaId p :
  exists p', clearCacheForMedia mediaId p = (Ret tt, p').
Proof.
  destruct (truthy (VNum (parseInt mediaId))) eqn:T.
  - destruct (clearCacheForMedia_spec mediaId p T) as (p' & E & _). eauto.
  - unfold clearCacheForMedia. rewrite T. cbn [negb]. unfold write. eauto.
Qed.

(** What the [try] block of [updateMediaListEntry] does with a response. *)
Lemma update_response_cases mediaId response p :
  (exists e, update_response mediaId response p = (Throw e, p)
             /\ (e = TypeError \/ exists m, e = Error m))
  \/ (exists p', clearCacheForMedia mediaId p = (Ret tt, p')
                 /\ ((update_response mediaId response p = (Throw TypeError, p'))
                     \/ exists result data saved,
                          get_prop response "json" = Some result
                          /\ update_refused result = false
                          /\ get_prop result "data" = Some data
                          /\ get_prop data "SaveMediaListEntry" = Some saved
                          /\ update_response mediaId response p
                             = (Ret saved, p'))).
Proof.
  unfold update_response.
  destruct (get_prop response "json") as [result|];
    [|left; exists TypeError; auto].
  destruct (update_refused result) eqn:U.
  - left. destruct (get_prop result "errors") as [errors|].
    + eexists. split; [reflexivity|]. right. eauto.
    + exists TypeError. auto.
  - right. destruct (clearCacheForMedia_returns mediaId p) as [p' E].
    exists p'. split; [exact E|]. unfold bind. rewrite E.
    destruct (get_prop result "data") as [data|] eqn:D; [|now left].
    destruct (get_prop data "SaveMediaListEntry") as [saved|] eqn:S;
      [|now left].
    right. exists result, data, saved. auto.
Qed.

(** X10. A failure of [updateMediaListEntry] is reported as one kind of
    error: whatever was thrown inside (no token, a rejected request, a
    response refused or without the data expected), the call throws an
    [Error] whose message begins with [Failed to update entry: ].  The
    one exception is a request rejected with [null] or [undefined],
    for which reading [error.message] in the handler throws a
    [TypeError].  Without an access token the call fails in this way and
    leaves the cache as it is. *)
Theorem updateMediaListEntry_wraps_failures (mediaId updates : value)
    (engineText : string) (net : reply) (p : plugin) :
  let r := updateMediaListEntry mediaId updates engineText net p in
  (forall e, fst r = Throw e ->
     (exists m, e = Error ("Failed to update entry: " +++ m))
     \/ (e = TypeError
         /\ exists v, net = Rejects (Reason v)
                      /\ (v = VNull \/ v = VUndefined)))
  /\ (accessToken p = "" ->
      fst r = Throw (Error ("Failed to update entry: "
                            +++ "Authentication required to update entries."))
      /\ cache (snd r) = cache p).
Proof.
  intros r.
  assert (Er : r = updateMediaListEntry mediaId updates engineText net p)
    by reflexivity.
  clearbody r. unfold updateMediaListEntry, try_catch in Er.
  assert (W : forall e q,
             r = (write ERROR ("[Zoro] updateMediaListEntry failed: "
                               +++ exn_text e) ;;;
                  match error_message engineText e with
                  | None => throw TypeError
                  | Some m => throw (Error ("Failed to update entry: "
                                            +++ to_string m))
                  end) q ->
             (forall v, e = Reason v -> net = Rejects (Reason v)) ->
             forall e', fst r = Throw e' ->
               (exists m, e' = Error ("Failed to update entry: " +++ m))
               \/ (e' = TypeError
                   /\ exists v, net = Rejects (Reason v)
                                /\ (v = VNull \/ v = VUndefined))).
  { intros e q -> K e'. unfold bind, write.
    destruct e as [m| | |v]; cbn [error_message];
      try (unfold throw; cbn; intros [= <-]; left; eauto; fail).
    destruct (get_prop v "message") as [m|] eqn:G.
    - unfold throw. cbn. intros [= <-]. left. eauto.
    - unfold throw. cbn. intros [= <-]. right. split; [reflexivity|].
      exists v. split; [now apply K|].
      destruct v; cbn in G; try discriminate G; auto. }
  split.
  - destruct (negb (truthy (VStr (accessToken p)))).
    { unfold throw at 1 in Er. apply (W _ _ Er). discriminate. }
    destruct (get_prop updates "status").
    2:{ unfold throw at 1 in Er. apply (W _ _ Er). discriminate. }
    destruct net as [e|response].
    + unfold throw at 1 in Er. apply (W _ _ Er).
      intros v0 ->. reflexivity.
    + destruct (update_response_cases mediaId response p)
        as [(e & E & K)|(p' & _ & [E|(result & data & saved & _ & _ & _ & _ & E)])];
        rewrite E in Er.
      * apply (W _ _ Er). destruct K as [->|[m ->]]; discriminate.
      * apply (W _ _ Er). discriminate.
      * subst r. discriminate.
  - intros T. rewrite T in Er. cbn [truthy String.eqb negb] in Er.
    unfold throw at 1 in Er. subst r.
    unfold bind, write, throw. cbn. auto.
Qed.

(** X11. A successful update invalidates the cache: when
    [updateMediaListEntry] returns, it returns the [SaveMediaListEntry]
    of the data of the response, and the cache is what
    [clearCacheForMedia(mediaId)] makes of the cache before the call.
    For an id that [clearCacheForMedia] accepts, [userData] is empty and
    the other two maps have lost the keys that name that id. *)
Theorem updateMediaListEntry_invalidates (mediaId updates : value)
    (engineText : string) (net : reply) (p : plugin) (saved : value) :
  let r := updateMediaListEntry mediaId updates engineText net p in
  fst r = Ret saved ->
  (exists response result data,
      net = Responds response
      /\ get_prop response "json" = Some result
      /\ get_prop result "data" = Some data
      /\ get_prop data "SaveMediaListEntry" = Some saved)
  /\ cache (snd r) = cache (snd (clearCacheForMedia mediaId p))
  /\ (truthy (VNum (parseInt mediaId)) = true ->
      cache (snd r)
      = mkCache [] (pruned (parseInt mediaId) (mediaData (cache p)))
                   (pruned (parseInt mediaId) (searchResults (cache p)))).
Proof.
  intros r.
  assert (Er : r = updateMediaListEntry mediaId updates engineText net p)
    by reflexivity.
  clearbody r. unfold updateMediaListEntry, try_catch in Er.
  assert (W : forall e q,
             r = (write ERROR ("[Zoro] updateMediaListEntry failed: "
                               +++ exn_text e) ;;;
                  match error_message engineText e with
                  | None => throw TypeError
                  | Some m => throw (Error ("Failed to update entry: "
                                            +++ to_string m))
                  end) q ->
             fst r <> Ret saved).
  { intros e q ->. unfold bind, write.
    destruct (error_message engineText e); unfold throw; cbn; discriminate. }
  intros R.
  destruct (negb (truthy (VStr (accessToken p)))).
  { unfold throw at 1 in Er. now apply W in Er. }
  destruct (get_prop updates "status").
  2:{ unfold throw at 1 in Er. now apply W in Er. }
  destruct net as [e|response].
  { unfold throw at 1 in Er. now apply W in Er. }
  destruct (update_response_cases mediaId response p)
    as [(e & E & K)|(p' & C & [E|(result & data & sv & J & _ & D & S & E)])];
    rewrite E in Er; try (now apply W in Er).
  subst r. cbn [fst snd] in *. injection R as ->.
  split; [exists response, result, data; auto|].
  rewrite C. cbn [snd]. split; [reflexivity|].
  intros T. destruct (clearCacheForMedia_spec mediaId p T) as (p2 & E2 & C2 & _).
  rewrite C in E2. injection E2 as <-. exact C2.
Qed.

Lemma updateMediaListEntry_invalidates_witness :
  fst (updateMediaListEntry (VInt 42) (VObj [("progress", VInt 4)]) ""
         (Responds response_saved) plugin_42_token)
  = Ret (VObj [("id", VInt 7); ("progress", VInt 4)])
  /\ cache (snd (updateMediaListEntry (VInt 42) (VObj [("progress", VInt 4)])
                   "" (Responds response_saved) plugin_42_token))
     = empty_cache.
Proof.
  assert (E : fst (updateMediaListEntry (VInt 42)
                     (VObj [("progress", VInt 4)]) ""
                     (Responds response_saved) plugin_42_token)
              = Ret (VObj [("id", VInt 7); ("progress", VInt 4)]))
    by (vm_compute; reflexivity).
  split; [exact E|].
  pose proof (updateMediaListEntry_invalidates (VInt 42)
                (VObj [("progress", VInt 4)]) ""
                (Responds response_saved) plugin_42_token
                (VObj [("id", VInt 7); ("progress", VInt 4)])) as H.
  cbv zeta in H. destruct (H E) as (_ & _ & C).
  rewrite C by (vm_compute; reflexivity).
  vm_compute. reflexivity.
Defined.

Lemma updateMediaListEntry_wraps_failures_witness :
  accessToken plugin_42 = ""
  /\ fst (updateMediaListEntry (VInt 42) VNull "" (Responds response_saved)
            plugin_42)
     = Throw (Error ("Failed to update entry: "
                     +++ "Authentication required to update entries.")).
Proof.
  split; [reflexivity|].
  pose proof (updateMediaListEntry_wraps_failures (VInt 42) VNull ""
                (Responds response_saved) plugin_42) as H.
  cbv zeta in H. destruct H as [_ H]. exact (proj1 (H eq_refl)).
Defined.

(** ** [getZoroUrl] *)

Lemma upper_lower_char c :
  toUpperCase (String (lower_char c) "") = upper_char c.
Proof.
  destruct c as [[] [] [] [] [] [] [] []]; vm_compute; reflexivity.
Qed.

Lemma upper_upper_char c : toUpperCase (upper_char c) = upper_char c.
Proof.
  destruct c as [[] [] [] [] [] [] [] []]; vm_compute; reflexivity.
Qed.

Lemma toUpperCase_app a b :
  toUpperCase (a +++ b) = toUpperCase a +++ toUpperCase b.
Proof.
  induction a as [|c a IH]; cbn; [reflexivity|].
  now rewrite IH, append_assoc.
Qed.

Lemma toUpperCase_toLowerCase s : toUpperCase (toLowerCase s) = toUpperCase s.
Proof.
  induction s as [|c s IH]; [reflexivity|].
  cbn [toLowerCase].
  change (String (lower_char c) (toLowerCase s))
    with (String (lower_char c) "" +++ toLowerCase s).
  rewrite toUpperCase_app, upper_lower_char, IH. reflexivity.
Qed.

Lemma toUpperCase_idem s : toUpperCase (toUpperCase s) = toUpperCase s.
Proof.
  induction s as [|c s IH]; [reflexivity|].
  cbn [toUpperCase]. now rewrite toUpperCase_app, upper_upper_char, IH.
Qed.

(** X12. [getZoroUrl] returns exactly for the ids that are numbers other
    than [0] and [NaN], and throws [Invalid mediaId] for everything else,
    a numeric string included.  The address returned is the one of the
    manga page when the type, as a string and in capitals, is [MANGA],
    and the one of the anime page for every other type: no other path is
    ever built.  A missing type counts as [ANIME], and the case of the
    letters of the type does not matter. *)
Theorem getZoroUrl_builds_anime_or_manga (mediaId mediaType : value) :
  match getZoroUrl mediaId mediaType with
  | Ret url =>
      exists n, mediaId = VNum n /\ truthy (VNum n) = true
                /\ (url = "https://anilist.co/manga/" +++ number_to_string n
                    \/ url = "https://anilist.co/anime/" +++ number_to_string n)
  | Throw e =>
      e = Error ("Invalid mediaId: " +++ to_string mediaId)
      /\ forall n, mediaId = VNum n -> truthy (VNum n) = false
  end
  /\ getZoroUrl mediaId VUndefined = getZoroUrl mediaId (VStr "ANIME")
  /\ forall s, getZoroUrl mediaId (VStr (toLowerCase s))
               = getZoroUrl mediaId (VStr s)
               /\ getZoroUrl mediaId (VStr (toUpperCase s))
                  = getZoroUrl mediaId (VStr s).
Proof.
  split; [|split].
  - unfold getZoroUrl.
    destruct (truthy mediaId) eqn:T; cbn [negb orb].
    + destruct mediaId as [| | |n| | |]; cbn [is_number negb].
      all: try (split; [reflexivity|intros; discriminate]).
      exists n. split; [reflexivity|]. split; [exact T|].
      cbn [existsb].
      destruct (String.eqb_spec
                  (toUpperCase (to_string match mediaType with
                                          | VUndefined => VStr "ANIME"
                                          | _ => mediaType
                                          end)) "ANIME") as [->|_];
        [right; reflexivity|].
      cbn [orb].
      destruct (String.eqb_spec
                  (toUpperCase (to_string match mediaType with
                                          | VUndefined => VStr "ANIME"
                                          | _ => mediaType
                                          end)) "MANGA") as [->|_];
        [left; reflexivity|right; reflexivity].
    + split; [reflexivity|]. intros n ->. exact T.
  - reflexivity.
  - intros s. unfold getZoroUrl. cbn [to_string].
    now rewrite toUpperCase_toLowerCase, toUpperCase_idem.
Qed.

(** ** [validateSettings] *)

Lemma getDefaultGridColumns_integer w :
  is_integer (getDefaultGridColumns w) = true.
Proof. unfold getDefaultGridColumns. now destruct (num_geb w (Int 768)). Qed.

(** X13. [validateSettings] is a projection onto the valid settings:
    whatever it is given ([null] and [undefined] included), the object it
    returns has the thirteen known names, in a fixed order, and nothing
    else, so a setting of any other name is not kept; and validating
    that object again returns it unchanged. *)
Theorem validateSettings_is_a_projection (innerWidth : number)
    (settings : value) :
  obj_keys (validateSettings innerWidth settings) = setting_names
  /\ (forall k, ~ In k setting_names ->
                obj_get (validateSettings innerWidth settings) k = VUndefined)
  /\ validateSettings innerWidth (VObj (validateSettings innerWidth settings))
     = validateSettings innerWidth settings.
Proof.
  split; [reflexivity|]. split.
  - intros k N. unfold obj_get.
    destruct (obj_find (validateSettings innerWidth settings) k) eqn:F;
      [|reflexivity].
    exfalso. apply N.
    assert (I : In k (obj_keys (validateSettings innerWidth settings))).
    { destruct (in_dec string_dec k
                  (obj_keys (validateSettings innerWidth settings))) as [I|I];
        [exact I|].
      apply obj_find_None in I. congruence. }
    exact I.
  - unfold validateSettings.
    cbn [opt_prop get_prop obj_get obj_find String.eqb Ascii.eqb Bool.eqb].
    pose proof (getDefaultGridColumns_integer innerWidth) as G.
    repeat match goal with
           | |- _ :: _ = _ :: _ => f_equal
           | |- (_, _) = (_, _) => f_equal
           end;
      match goal with
      | |- context [is_string ?x] =>
          destruct (is_string x) eqn:E; cbn [is_string]; rewrite ?E; reflexivity
      | |- context [is_boolean ?x] =>
          destruct (is_boolean x) eqn:E; cbn [is_boolean]; rewrite ?E;
          reflexivity
      | |- context [is_integer ?x] =>
          destruct (is_integer x) eqn:E; rewrite ?E, ?G; reflexivity
      | |- context [existsb (strict_eq_str ?x) ?l] =>
          destruct (existsb (strict_eq_str x) l) eqn:E;
          rewrite ?E; reflexivity
      | |- VBool _ = VBool _ => cbn [truthy]; now destruct (truthy _)
      end.
Qed.

(** ** [csvEscape] *)

Lemma includes_char_head c r :
  includes (String c r) (String c EmptyString) = true.
Proof.
  cbn [includes String.prefix].
  destruct (ascii_dec c c) as [_|N]; [|contradiction].
  now destruct r.
Qed.

Lemma append_cancel_r (a b c : string) : a +++ c = b +++ c -> a = b.
Proof.
  revert b. induction a as [|x a IH]; intros [|y b] E.
  - reflexivity.
  - exfalso. cbn [String.append] in E. apply (f_equal String.length) in E.
    cbn [String.length] in E. rewrite length_append in E. lia.
  - exfalso. cbn [String.append] in E. apply (f_equal String.length) in E.
    cbn [String.length] in E. rewrite length_append in E. lia.
  - cbn [String.append] in E. injection E as -> E. f_equal. now apply IH.
Qed.

Lemma double_quotes_inj a b : double_quotes a = double_quotes b -> a = b.
Proof.
  revert b. induction a as [|x a IH]; intros [|y b]; cbn [double_quotes].
  - reflexivity.
  - destruct (Ascii.eqb y dquote); discriminate.
  - destruct (Ascii.eqb x dquote); discriminate.
  - destruct (Ascii.eqb_spec x dquote) as [->|Nx];
      destruct (Ascii.eqb_spec y dquote) as [->|Ny].
    + intros [= E]. f_equal. now apply IH.
    + intros [= E _]. now subst.
    + intros [= E _]. now subst.
    + intros [= -> E]. f_equal. now apply IH.
Qed.

(** X14. [csvEscape] loses nothing: two different strings are never
    written as the same field, although a field is written in two ways
    (between quotes, its own quotes doubled, when it holds a comma, a
    quote or a line feed, and as it is otherwise). *)
Theorem csvEscape_is_injective (a b : string) :
  csvEscape (VStr a) = csvEscape (VStr b) -> a = b.
Proof.
  unfold csvEscape. cbn [to_string].
  set (qa := (includes a "," || includes a (String dquote "")
              || includes a (String newline ""))%bool).
  set (qb := (includes b "," || includes b (String dquote "")
              || includes b (String newline ""))%bool).
  destruct qa eqn:Qa, qb eqn:Qb.
  - intros [= E]. apply append_cancel_r in E. now apply double_quotes_inj.
  - intros E. exfalso. subst qb.
    rewrite <- E, includes_char_head, orb_true_r in Qb. discriminate.
  - intros E. exfalso. subst qa.
    rewrite E, includes_char_head, orb_true_r in Qa. discriminate.
  - auto.
Qed.

Lemma csvEscape_is_injective_witness :
  csvEscape (VStr "Steins;Gate, 0") = csvEscape (VStr "Steins;Gate, 0")
  /\ "Steins;Gate, 0" = "Steins;Gate, 0".
Proof.
  split; [reflexivity|].
  apply (csvEscape_is_injective "Steins;Gate, 0" "Steins;Gate, 0").
  reflexivity.
Defined.

(** ** Assignments to an object *)

Lemma obj_keys_update o k v : obj_keys (obj_update o k v) = obj_keys o.
Proof.
  unfold obj_keys. induction o as [|[k' v'] o IH]; cbn; [reflexivity|].
  destruct (String.eqb k' k); cbn; congruence.
Qed.

Lemma obj_find_update_same o k v :
  obj_has o k = true -> obj_find (obj_update o k v) k = Some v.
Proof.
  unfold obj_has. induction o as [|[k' v'] o IH]; cbn; [discriminate|].
  destruct (String.eqb k' k) eqn:E; cbn; rewrite E; auto.
Qed.

Lemma obj_find_update_other o k k' v :
  k <> k' -> obj_find (obj_update o k v) k' = obj_find o k'.
Proof.
  intros N. induction o as [|[k0 v0] o IH]; cbn; [reflexivity|].
  destruct (String.eqb_spec k0 k) as [->|N0]; cbn.
  - destruct (String.eqb_spec k k'); [contradiction|reflexivity].
  - now rewrite IH.
Qed.

Lemma obj_find_insert_index_same n o k v :
  obj_find (obj_insert_index n k v o) k = Some v \/ obj_find o k <> None.
Proof.
  induction o as [|[k' v'] o IH]; cbn.
  - rewrite String.eqb_refl. now left.
  - destruct (array_index k') as [n'|].
    + destruct (n' <? n)%N; cbn.
      * destruct (String.eqb k' k); [right; discriminate|exact IH].
      * rewrite String.eqb_refl. now left.
    + cbn. rewrite String.eqb_refl. now left.
Qed.

Lemma obj_find_insert_index_other n o k k' v :
  k <> k' -> obj_find (obj_insert_index n k v o) k' = obj_find o k'.
Proof.
  intros N. apply String.eqb_neq in N.
  induction o as [|[k0 v0] o IH]; cbn; [now rewrite N|].
  destruct (array_index k0) as [n'|].
  - destruct (n' <? n)%N; cbn; [now rewrite IH|now rewrite N].
  - cbn. now rewrite N.
Qed.

Lemma obj_find_app o1 o2 k :
  obj_find (o1 ++ o2) k
  = match obj_find o1 k with Some v => Some v | None => obj_find o2 k end.
Proof.
  induction o1 as [|[k' v'] o1 IH]; cbn; [reflexivity|].
  now destruct (String.eqb k' k).
Qed.

Lemma obj_get_set_same o k v : obj_get (obj_set o k v) k = v.
Proof.
  unfold obj_get, obj_set. destruct (obj_has o k) eqn:H.
  - now rewrite obj_find_update_same.
  - assert (F : obj_find o k = None).
    { unfold obj_has in H. now destruct (obj_find o k). }
    destruct (array_index k) as [n|].
    + destruct (obj_find_insert_index_same n o k v) as [->|C];
        [reflexivity|contradiction].
    + rewrite obj_find_app, F. cbn. now rewrite String.eqb_refl.
Qed.

Lemma obj_get_set_other o k k' v :
  k <> k' -> obj_get (obj_set o k v) k' = obj_get o k'.
Proof.
  intros N. unfold obj_get, obj_set. destruct (obj_has o k).
  - now rewrite obj_find_update_other.
  - destruct (array_index k) as [n|].
    + now rewrite obj_find_insert_index_other.
    + rewrite obj_find_app. cbn. apply String.eqb_neq in N. rewrite N.
      now destruct (obj_find o k').
Qed.

Lemma obj_update_in o k v k' v' :
  In (k', v') (obj_update o k v) -> (k', v') = (k, v) \/ In (k', v') o.
Proof.
  induction o as [|[k0 v0] o IH]; cbn; [tauto|].
  destruct (String.eqb_spec k0 k) as [->|N]; cbn.
  - intros [E|I]; [left; now symmetry|right; now right].
  - intros [E|I]; [right; now left|].
    destruct (IH I); [now left|right; now right].
Qed.

Lemma obj_set_in o k v k' v' :
  In (k', v') (obj_set o k v) -> (k', v') = (k, v) \/ In (k', v') o.
Proof.
  unfold obj_set. destruct (obj_has o k) eqn:H.
  - apply obj_update_in.
  - intros I.
    assert (P : Permutation (obj_set o k v) ((k, v) :: o)).
    { apply obj_set_fresh_perm. now apply obj_has_false. }
    unfold obj_set in P. rewrite H in P.
    apply (Permutation_in _ P) in I. destruct I as [E|I]; auto.
Qed.

Lemma obj_set_nodup o k v :
  NoDup (obj_keys o) -> NoDup (obj_keys (obj_set o k v)).
Proof.
  intros N. destruct (obj_has o k) eqn:H.
  - unfold obj_set. rewrite H. now rewrite obj_keys_update.
  - assert (F : ~ In k (obj_keys o)) by now apply obj_has_false.
    eapply Permutation_NoDup.
    + symmetry. apply Permutation_map. now apply obj_set_fresh_perm.
    + cbn. now constructor.
Qed.

(** ** [parseCodeBlockConfig] *)

Lemma truthy_VStr s : truthy (VStr s) = true <-> s <> "".
Proof.
  cbn. rewrite negb_true_iff. split.
  - intros E ->. discriminate.
  - intros N. now apply String.eqb_neq.
Qed.

Lemma truthy_js_or_r a b : truthy b = true -> truthy (js_or a b) = true.
Proof. unfold js_or. now destruct (truthy a) eqn:E. Qed.

Lemma truthy_js_or_l a b : truthy a = true -> js_or a b = a.
Proof. unfold js_or. now intros ->. Qed.

Lemma read_line_text o line :
  NoDup (obj_keys o) -> all_text o ->
  NoDup (obj_keys (read_line o line)) /\ all_text (read_line o line).
Proof.
  intros N T. unfold read_line.
  destruct (map trim (split_on ":" line)) as [|key [|value rest]]; auto.
  destruct (truthy (VStr key) && truthy (VStr value))%bool eqn:C; auto.
  apply andb_prop in C as [_ Cv]. apply truthy_VStr in Cv.
  unfold assign_text. destruct (String.eqb key "__proto__"); auto.
  split; [now apply obj_set_nodup|].
  apply Forall_forall. intros [k v] I.
  apply obj_set_in in I as [[= -> ->]|I]; [cbn; eauto|].
  unfold all_text in T. rewrite Forall_forall in T. now apply T.
Qed.

Lemma read_lines_text o source :
  NoDup (obj_keys o) -> all_text o ->
  NoDup (obj_keys (read_lines o source)) /\ all_text (read_lines o source).
Proof.
  unfold read_lines.
  generalize (filter (fun line => truthy (VStr (trim line)))
                     (split_on newline source)).
  intros l. revert o. induction l as [|line l IH]; intros o N T; cbn; auto.
  destruct (read_line_text o line N T). now apply IH.
Qed.

Lemma all_text_get o k :
  all_text o ->
  obj_get o k = VUndefined \/ exists s, obj_get o k = VStr s /\ s <> "".
Proof.
  intros T. unfold obj_get.
  destruct (obj_find o k) as [v|] eqn:F; [|now left]. right.
  assert (I : In (k, v) o).
  { clear T. induction o as [|[k' v'] o IH]; cbn in F; [discriminate|].
    destruct (String.eqb_spec k' k) as [->|N].
    - injection F as ->. now left.
    - right. now apply IH. }
  unfold all_text in T. rewrite Forall_forall in T. exact (T _ I).
Qed.

Lemma all_text_json o :
  all_text o -> Forall (fun kv => json_value (snd kv)) o.
Proof.
  unfold all_text. apply Forall_impl. intros [k v] (s & E & _). cbn in *.
  subst. constructor.
Qed.

Lemma obj_set_json o k v :
  Forall (fun kv => json_value (snd kv)) o -> json_value v ->
  Forall (fun kv => json_value (snd kv)) (obj_set o k v).
Proof.
  intros F J. apply Forall_forall. intros [k' v'] I.
  apply obj_set_in in I as [[= -> ->]|I]; [exact J|].
  rewrite Forall_forall in F. now apply F.
Qed.

Lemma js_or_json o k v :
  Forall (fun kv => json_value (snd kv)) o -> NoDup (obj_keys o) ->
  json_value v -> json_value (js_or (obj_get o k) v).
Proof.
  intros F N J. unfold js_or, obj_get.
  destruct (obj_find o k) as [x|] eqn:E; [|exact J].
  destruct (truthy x); [|exact J].
  rewrite Forall_forall in F. apply (F (k, x)).
  now apply obj_find_In.
Qed.

(** What [parseCodeBlockConfig] returns, when it returns. *)
Lemma parseCodeBlockConfig_returns du dl tok source config :
  parseCodeBlockConfig du dl tok source = Ret config ->
  exists c0,
    config
    = obj_set (obj_set (obj_set c0 "listType"
                          (js_or (obj_get c0 "listType") (VStr "CURRENT")))
                 "layout"
                 (js_or (obj_get (obj_set c0 "listType"
                                    (js_or (obj_get c0 "listType")
                                           (VStr "CURRENT"))) "layout") dl))
        "mediaType"
        (js_or (obj_get (obj_set (obj_set c0 "listType"
                          (js_or (obj_get c0 "listType") (VStr "CURRENT")))
                 "layout"
                 (js_or (obj_get (obj_set c0 "listType"
                                    (js_or (obj_get c0 "listType")
                                           (VStr "CURRENT"))) "layout") dl))
                  "mediaType") (VStr "ANIME"))
    /\ obj_get c0 "mediaId" = obj_get (read_lines [] source) "mediaId"
    /\ (truthy (obj_get c0 "username") = true
        \/ (obj_get c0 "useAuthenticatedUser" = VBool true
            /\ truthy tok = true))
    /\ NoDup (obj_keys c0)
    /\ (json_value du -> Forall (fun kv => json_value (snd kv)) c0).
Proof.
  unfold parseCodeBlockConfig.
  destruct (read_lines_text [] source (NoDup_nil _) (Forall_nil _)) as [N T].
  set (c := read_lines [] source) in *. clearbody c.
  destruct (truthy (obj_get c "username")) eqn:U; cbn [negb].
  - intros [= <-]. exists c. split; [reflexivity|]. split; [reflexivity|].
    split; [now left|]. split; [exact N|]. intros _. now apply all_text_json.
  - destruct (truthy du) eqn:D.
    + intros [= <-]. exists (obj_set c "username" du).
      split; [reflexivity|]. split; [now apply obj_get_set_other|].
      split; [left; now rewrite obj_get_set_same|].
      split; [now apply obj_set_nodup|].
      intros J. apply obj_set_json; [now apply all_text_json|exact J].
    + destruct (truthy tok) eqn:K; [|discriminate].
      intros [= <-]. exists (obj_set c "useAuthenticatedUser" (VBool true)).
      split; [reflexivity|]. split; [now apply obj_get_set_other|].
      split; [right; now rewrite obj_get_set_same|].
      split; [now apply obj_set_nodup|].
      intros _. apply obj_set_json; [now apply all_text_json|constructor].
Qed.

(** X15. [parseCodeBlockConfig] needs to know whose list to show: it
    throws exactly when the block names no user, no default user is set
    and there is no access token.  When it returns, the configuration
    names a user or asks for the authenticated one, and has a list type
    and a media type. *)
Theorem parseCodeBlockConfig_requires_a_user (defaultUsername defaultLayout
    accessToken : value) (source : string) :
  match parseCodeBlockConfig defaultUsername defaultLayout accessToken
                             source with
  | Throw e =>
      truthy (obj_get (read_lines [] source) "username") = false
      /\ truthy defaultUsername = false
      /\ truthy accessToken = false
  | Ret config =>
      (truthy (obj_get (read_lines [] source) "username") = true
       \/ truthy defaultUsername = true
       \/ truthy accessToken = true)
      /\ (truthy (obj_get config "username") = true
          \/ obj_get config "useAuthenticatedUser" = VBool true)
      /\ truthy (obj_get config "listType") = true
      /\ truthy (obj_get config "mediaType") = true
  end.
Proof.
  destruct (parseCodeBlockConfig defaultUsername defaultLayout accessToken
              source) as [config|e] eqn:E.
  - destruct (parseCodeBlockConfig_returns _ _ _ _ _ E)
      as (c0 & -> & _ & U & _).
    split; [|split; [|split]].
    + unfold parseCodeBlockConfig in E.
      destruct (truthy (obj_get (read_lines [] source) "username"));
        [now left|].
      destruct (truthy defaultUsername); [right; now left|].
      destruct (truthy accessToken); [right; now right|discriminate].
    + rewrite !obj_get_set_other by discriminate.
      destruct U as [U|[U _]]; auto.
    + rewrite !obj_get_set_other by discriminate.
      rewrite obj_get_set_same. now apply truthy_js_or_r.
    + rewrite obj_get_set_same. now apply truthy_js_or_r.
  - unfold parseCodeBlockConfig in E.
    destruct (truthy (obj_get (read_lines [] source) "username"));
      [discriminate|].
    destruct (truthy defaultUsername); [discriminate|].
    destruct (truthy accessToken); [discriminate|auto].
Qed.

(** X16. What a code block says is kept as text: in the configuration
    [parseCodeBlockConfig] returns, [mediaId] is never a number.  So the
    cached result of a view asked for by a code block is out of the reach
    of [clearCacheForMedia], which looks for the id as a number: with
    settings that hold JSON values (strings), whatever the id and the
    cache, the [mediaData] entry under the key of that configuration is
    after [clearCacheForMedia] what it was before. *)
Theorem parseCodeBlockConfig_ids_are_text (defaultUsername defaultLayout
    accessToken : value) (source : string) (config : object) :
  parseCodeBlockConfig defaultUsername defaultLayout accessToken source
  = Ret config ->
  (forall n, obj_get config "mediaId" <> VNum n)
  /\ (json_value defaultUsername -> json_value defaultLayout ->
      forall (mediaId : value) (p : plugin),
        JsMap.get (mediaData (cache (snd (clearCacheForMedia mediaId p))))
                  (createCacheKey config)
        = JsMap.get (mediaData (cache p)) (createCacheKey config)).
Proof.
  intros E.
  destruct (parseCodeBlockConfig_returns _ _ _ _ _ E)
    as (c0 & -> & M & _ & N & J).
  set (c1 := obj_set c0 "listType" _).
  set (c2 := obj_set c1 "layout" _).
  set (c3 := obj_set c2 "mediaType" _).
  assert (G : obj_get c3 "mediaId" = obj_get (read_lines [] source) "mediaId").
  { unfold c3, c2, c1. now rewrite !obj_get_set_other by discriminate. }
  assert (T : forall n, obj_get c3 "mediaId" <> VNum n).
  { intros n. rewrite G.
    destruct (read_lines_text [] source (NoDup_nil _) (Forall_nil _)) as [_ T].
    destruct (all_text_get _ "mediaId" T) as [->|(s & -> & _)]; discriminate. }
  split; [exact T|].
  intros Ju Jl mediaId p.
  destruct (truthy (VNum (parseInt mediaId))) eqn:Tid.
  - destruct (clearCacheForMedia_spec mediaId p Tid) as (p' & -> & C & _).
    cbn [snd]. rewrite C. cbn [mediaData]. apply get_pruned_kept.
    assert (N1 : NoDup (obj_keys c1)) by now apply obj_set_nodup.
    assert (N2 : NoDup (obj_keys c2)) by now apply obj_set_nodup.
    assert (N3 : NoDup (obj_keys c3)) by now apply obj_set_nodup.
    assert (J1 : Forall (fun kv => json_value (snd kv)) c1).
    { apply obj_set_json; [auto|]. apply js_or_json; auto. constructor. }
    assert (J2 : Forall (fun kv => json_value (snd kv)) c2).
    { apply obj_set_json; [auto|]. now apply js_or_json. }
    assert (J3 : Forall (fun kv => json_value (snd kv)) c3).
    { apply obj_set_json; [auto|]. apply js_or_json; auto. constructor. }
    rewrite (key_cleared_createCacheKey _ _ N3 J3).
    destruct (obj_get c3 "mediaId") as [| | |n| | |] eqn:Q; try reflexivity.
    exfalso. now apply (T n).
  - unfold clearCacheForMedia. rewrite Tid. reflexivity.
Qed.

Lemma parseCodeBlockConfig_ids_are_text_witness :
  parseCodeBlockConfig (VStr "alice") (VStr "card") (VStr "") source_single_42
  = Ret [ ("type", VStr "single"); ("mediaId", VStr "42");
          ("username", VStr "alice"); ("listType", VStr "CURRENT");
          ("layout", VStr "card"); ("mediaType", VStr "ANIME") ]
  /\ obj_get [ ("type", VStr "single"); ("mediaId", VStr "42");
               ("username", VStr "alice"); ("listType", VStr "CURRENT");
               ("layout", VStr "card"); ("mediaType", VStr "ANIME") ]
             "mediaId"
     <> VInt 42.
Proof.
  assert (E : parseCodeBlockConfig (VStr "alice") (VStr "card") (VStr "")
                source_single_42
              = Ret [ ("type", VStr "single"); ("mediaId", VStr "42");
                      ("username", VStr "alice"); ("listType", VStr "CURRENT");
                      ("layout", VStr "card"); ("mediaType", VStr "ANIME") ])
    by (vm_compute; reflexivity).
  split; [exact E|].
  exact (proj1 (parseCodeBlockConfig_ids_are_text _ _ _ _ _ E) (Int 42)).
Defined.

(** ** [parseInlineLink] *)










(** ** [parseSearchCodeBlockConfig] *)

(** What a block says overrides what the configuration held, and what it
    does not say is kept. *)
Lemma read_lines_get init source k :
  obj_get (read_lines init source) k
  = match obj_get (read_lines [] source) k with
    | VUndefined => obj_get init k
    | v => v
    end.
Proof.
  unfold read_lines.
  generalize (filter (fun line => truthy (VStr (trim line)))
                     (split_on newline source)).
  intros l. induction l as [|line l IH] using rev_ind; [reflexivity|].
  rewrite !fold_left_app. cbn [fold_left].
  set (a := fold_left read_line l init) in *.
  set (b := fold_left read_line l []) in *.
  unfold read_line.
  destruct (map trim (split_on ":" line)) as [|key [|value rest]]; auto.
  destruct (truthy (VStr key) && truthy (VStr value))%bool eqn:C; auto.
  unfold assign_text. destruct (String.eqb key "__proto__"); auto.
  destruct (String.eqb_spec key k) as [->|N].
  - now rewrite !obj_get_set_same.
  - now rewrite !obj_get_set_other.
Qed.

(** X19. [parseSearchCodeBlockConfig] returns a complete configuration
    for every block: a type, which is [search] unless the block gives
    another one, a media type and a layout, none of them empty, the
    layout being [card] when neither the block nor the settings give
    one. *)
Theorem parseSearchCodeBlockConfig_is_complete (defaultLayout : value)
    (source : string) :
  let config := parseSearchCodeBlockConfig defaultLayout source in
  truthy (obj_get config "type") = true
  /\ truthy (obj_get config "mediaType") = true
  /\ truthy (obj_get config "layout") = true
  /\ (obj_get (read_lines [] source) "type" = VUndefined ->
      obj_get config "type" = VStr "search")
  /\ (truthy (obj_get (read_lines [] source) "layout") = false ->
      truthy defaultLayout = false ->
      obj_get config "layout" = VStr "card").
Proof.
  cbv zeta. unfold parseSearchCodeBlockConfig.
  set (c0 := read_lines [("type", VStr "search")] source).
  set (c1 := obj_set c0 "layout" _).
  set (c2 := obj_set c1 "mediaType" _).
  assert (L1 : truthy (obj_get c1 "layout") = true).
  { unfold c1. rewrite obj_get_set_same. now apply truthy_js_or_r. }
  assert (L2 : obj_get c2 "layout" = obj_get c1 "layout").
  { unfold c2. now rewrite obj_get_set_other. }
  assert (Ty : obj_get c0 "type"
               = match obj_get (read_lines [] source) "type" with
                 | VUndefined => VStr "search"
                 | v => v
                 end).
  { unfold c0. now rewrite read_lines_get. }
  split; [|split; [|split; [|split]]].
  - unfold c2, c1. rewrite !obj_get_set_other by discriminate. rewrite Ty.
    destruct (read_lines_text [] source (NoDup_nil _) (Forall_nil _)) as [_ T].
    destruct (all_text_get _ "type" T) as [->|(s & -> & Ns)];
      [reflexivity|now apply truthy_VStr].
  - rewrite obj_get_set_other by discriminate. unfold c2.
    rewrite obj_get_set_same. now apply truthy_js_or_r.
  - rewrite obj_get_set_same, L2. now rewrite truthy_js_or_l.
  - intros U. unfold c2, c1. rewrite !obj_get_set_other by discriminate.
    now rewrite Ty, U.
  - intros Ls Ld. rewrite obj_get_set_same, L2.
    rewrite truthy_js_or_l by exact L1.
    unfold c1. rewrite obj_get_set_same.
    assert (E : obj_get c0 "layout" = obj_get (read_lines [] source) "layout").
    { unfold c0. rewrite read_lines_get. cbn [obj_get obj_find String.eqb
        Ascii.eqb Bool.eqb].
      now destruct (obj_get (read_lines [] source) "layout"). }
    unfold js_or. rewrite E, Ls, Ld. reflexivity.
Qed.

(** ** [clearCacheForMedia], twice *)

Lemma pruned_idem id m : pruned id (pruned id m) = pruned id m.
Proof. unfold pruned. apply filter_idem. Qed.

(** X20. Invalidation is idempotent: whatever the id and the cache, a
    second [clearCacheForMedia] with the same id leaves the cache as the
    first one left it. *)
Theorem clearCacheForMedia_is_idempotent (mediaId : value) (p : plugin) :
  cache (snd (clearCacheForMedia mediaId (snd (clearCacheForMedia mediaId p))))
  = cache (snd (clearCacheForMedia mediaId p)).
Proof.
  destruct (truthy (VNum (parseInt mediaId))) eqn:T.
  - destruct (clearCacheForMedia_spec mediaId p T) as (q & -> & C & _).
    cbn [snd].
    destruct (clearCacheForMedia_spec mediaId q T) as (q' & -> & C' & _).
    cbn [snd]. rewrite C', C. cbn [mediaData searchResults].
    now rewrite !pruned_idem.
  - unfold clearCacheForMedia. rewrite T. reflexivity.
Qed.

(** ** [checkIfMediaInList] *)

Lemma truthy_get_prop v k : truthy v = true -> get_prop v k <> None.
Proof.
  destruct v; cbn; try discriminate; intros _;
    try destruct (String.eqb k "length"); discriminate.
Qed.

(** X21. [checkIfMediaInList] never throws: whatever the ids, the cache
    and the reply of the network, it returns a boolean.  Without an
    access token it returns [false] and touches nothing; and it returns
    [false] whenever the fetch fails, so a failure reads as an item that
    is not in the list. *)
Theorem checkIfMediaInList_never_throws (mediaId mediaType : value)
    (now later : Z) (net : reply) (p : plugin) :
  let r := checkIfMediaInList mediaId mediaType now net later p in
  (exists b, fst r = Ret b)
  /\ (accessToken p = "" -> r = (Ret false, p))
  /\ (forall e, accessToken p <> "" ->
        fst (fetchZoroData (check_config mediaId mediaType) now net later p)
        = Throw e ->
        fst r = Ret false).
Proof.
  intros r.
  assert (Er : r = checkIfMediaInList mediaId mediaType now net later p)
    by reflexivity.
  clearbody r. unfold checkIfMediaInList in Er.
  destruct (truthy (VStr (accessToken p))) eqn:T; cbn [negb] in Er.
  - apply truthy_VStr in T.
    unfold try_catch, bind in Er.
    pose proof (fetchZoroData_outcome (check_config mediaId mediaType)
                  now net later p) as O.
    cbv zeta in O. destruct O as [_ O].
    destruct (fetchZoroData (check_config mediaId mediaType) now net later p)
      as [[v|e] q] eqn:F; cbn [fst snd] in *.
    + assert (Tv : truthy v = true).
      { destruct O as [(x & _ & _ & Tx & [= ->] & _)|[(err & [=])
                                                    |(d & [= ->] & Td & _)]];
          assumption. }
      pose proof (truthy_get_prop v "MediaList" Tv) as G.
      destruct (get_prop v "MediaList") as [ml|]; [|contradiction].
      unfold ret in Er. subst r. cbn. split; [eauto|].
      split; [intros; contradiction|intros; discriminate].
    + unfold write, ret in Er. subst r. cbn. split; [eauto|].
      split; [intros; contradiction|reflexivity].
  - assert (E : accessToken p = "").
    { destruct (String.eqb_spec (accessToken p) ""); [assumption|].
      cbn in T. apply negb_false_iff in T. now apply String.eqb_eq in T. }
    unfold ret in Er. subst r. cbn. split; [eauto|].
    split; [reflexivity|]. intros e N. contradiction.
Qed.

Lemma checkIfMediaInList_never_throws_witness :
  accessToken plugin_42_token <> ""
  /\ fst (checkIfMediaInList (VInt 42) (VStr "ANIME") 2000
            (Rejects (Error "offline")) 2100 plugin_42_token)
     = Ret false.
Proof.
  assert (N : accessToken plugin_42_token <> "") by discriminate.
  split; [exact N|].
  pose proof (checkIfMediaInList_never_throws (VInt 42) (VStr "ANIME")
                2000 2100 (Rejects (Error "offline")) plugin_42_token) as H.
  cbv zeta in H. destruct H as (_ & _ & H).
  apply (H (Error "offline") N). vm_compute. reflexivity.
Defined.

(** ** [extractCSSRules] *)

Lemma strip_ws_app a b : strip_ws (a +++ b) = strip_ws a +++ strip_ws b.
Proof.
  induction a as [|c a IH]; cbn; [reflexivity|].
  destruct (is_str_ws c); cbn; now rewrite IH.
Qed.

Lemma strip_ws_skip s : strip_ws (skip_str_ws s) = strip_ws s.
Proof.
  induction s as [|c s IH]; cbn; [reflexivity|].
  destruct (is_str_ws c) eqn:W; [exact IH|]. cbn. now rewrite W.
Qed.

Lemma trim_end_blank s : trim_end s = "" -> strip_ws s = "".
Proof.
  induction s as [|c s IH]; cbn; [reflexivity|].
  destruct (trim_end s) as [|x r]; [|discriminate].
  destruct (is_str_ws c); [intros _; now apply IH|discriminate].
Qed.

Lemma trim_blank s : truthy (VStr (trim s)) = false -> strip_ws s = "".
Proof.
  intros T. assert (E : trim s = "").
  { cbn in T. apply negb_false_iff in T. now apply String.eqb_eq. }
  unfold trim in E. apply trim_end_blank in E. now rewrite strip_ws_skip in E.
Qed.

Lemma rules_text_snoc l r :
  rules_text (l ++ [r]) = rules_text l +++ rule_content r.
Proof.
  unfold rules_text. induction l as [|x l IH]; cbn [app fold_right].
  - now rewrite append_nil_r.
  - now rewrite IH, append_assoc.
Qed.

Lemma css_step_inv st c suffix done :
  css_inv st done ->
  css_inv (css_step st c suffix) (done +++ String c "").
Proof.
  intros (I1 & I2 & I3). unfold css_step.
  set (st1 := if (Ascii.eqb c "@" && (css_depth st =? 0))%bool
              then _ else _).
  assert (H1 : css_inv st1 (done +++ String c "")
               /\ (c <> "@"%char ->
                   css_current st1 = css_current st +++ String c "")).
  { subst st1.
    destruct (Ascii.eqb c "@" && (css_depth st =? 0))%bool eqn:A.
    - apply andb_prop in A as [A _]. apply Ascii.eqb_eq in A. subst c.
      split; [|intros N; now contradiction N]. unfold css_inv.
      cbn [css_rules css_current css_inAtRule]. split; [|split].
      + rewrite strip_ws_app in I1.
        destruct (truthy (VStr (trim (css_current st)))) eqn:T.
        * rewrite rules_text_snoc. cbn [rule_content].
          rewrite !strip_ws_app, <- I1. reflexivity.
        * rewrite !strip_ws_app, <- I1.
          now rewrite (trim_blank _ T), append_nil_r.
      + destruct (truthy (VStr (trim (css_current st)))) eqn:T; [|exact I2].
        apply Forall_app. split; [exact I2|]. constructor; [|constructor].
        cbn. now apply truthy_VStr.
      + intros _. now exists "".
    - split; [|reflexivity]. unfold css_inv. cbn [css_rules css_current
        css_inAtRule]. split; [|split; [exact I2|]].
      + rewrite <- append_assoc, strip_ws_app, I1, <- strip_ws_app.
        reflexivity.
      + intros T. destruct (I3 T) as [s' ->]. now exists (s' +++ String c ""). }
  clearbody st1. destruct H1 as [(J1 & J2 & J3) C].
  destruct (Ascii.eqb c "{"); [exact (conj J1 (conj J2 J3))|].
  destruct (Ascii.eqb_spec c "}") as [->|_]; [|exact (conj J1 (conj J2 J3))].
  cbv zeta. destruct (css_depth st1 - 1 =? 0);
    [|exact (conj J1 (conj J2 J3))].
  specialize (C ltac:(discriminate)).
  destruct (css_inAtRule st1) eqn:T; unfold css_inv;
    cbn [css_rules css_current css_inAtRule].
  - split; [now rewrite rules_text_snoc, append_nil_r|].
    split; [|discriminate].
    apply Forall_app. split; [exact J2|].
    apply Forall_cons; [|apply Forall_nil]. cbn [rule_cut].
    split; [exists (css_current st); exact C|]. now apply J3.
  - split; [now rewrite rules_text_snoc, append_nil_r|].
    split; [|intros X; rewrite X in T; discriminate].
    apply Forall_app. split; [exact J2|].
    apply Forall_cons; [|apply Forall_nil]. cbn [rule_cut].
    exists (css_current st). exact C.
Qed.

Lemma css_loop_inv css st done :
  css_inv st done -> css_inv (css_loop st css) (done +++ css).
Proof.
  revert st done. induction css as [|c r IH]; intros st done I; cbn [css_loop].
  - now rewrite append_nil_r.
  - change (String c r) with (String c "" +++ r) at 2.
    rewrite <- append_assoc. apply IH. now apply css_step_inv.
Qed.

(** X22. [extractCSSRules] loses nothing but blank text: the contents of
    the rules it returns, one after the other, are the style sheet up to
    white space.  Each rule is cut as its type says: a block ends with
    a closing brace, an at-rule begins with its [@] and ends with a
    closing brace, and a piece of text is never blank. *)
Theorem extractCSSRules_loses_only_blanks (css : string) :
  strip_ws (rules_text (extractCSSRules css)) = strip_ws css
  /\ Forall rule_cut (extractCSSRules css).
Proof.
  unfold extractCSSRules.
  assert (I0 : css_inv (mkCss [] "" 0 false "") "").
  { unfold css_inv. cbn. split; [reflexivity|]. split; [constructor|].
    discriminate. }
  pose proof (css_loop_inv css _ _ I0) as (I1 & I2 & _).
  cbn [String.append] in I1.
  set (st := css_loop (mkCss [] "" 0 false "") css) in *. cbv zeta.
  rewrite strip_ws_app in I1.
  destruct (truthy (VStr (trim (css_current st)))) eqn:T.
  - split.
    + rewrite rules_text_snoc. cbn [rule_content].
      now rewrite strip_ws_app.
    + apply Forall_app. split; [exact I2|]. constructor; [|constructor].
      cbn. now apply truthy_VStr.
  - split; [|exact I2].
    now rewrite (trim_blank _ T), append_nil_r in I1.
Qed.

(** ** The selectors of a theme *)

Lemma prefix_append p x : String.prefix p (p +++ x) = true.
Proof.
  induction p as [|c p IH]; cbn; [now destruct x|].
  destruct (ascii_dec c c) as [_|N]; [exact IH|contradiction].
Qed.

Lemma includes_prefix s t : String.prefix t s = true -> includes s t = true.
Proof. intros P. destruct s; cbn [includes]; now rewrite P. Qed.

(** X23. Scoping a selector is idempotent: the selector [handleRegularRule]
    writes for a selector of the theme is left as it is when it is scoped
    again, so a theme is never scoped twice.  What it writes is the
    selector itself or the selector behind [.zoro-container]. *)
Theorem scope_selector_is_idempotent (selector : string) :
  scope_selector (scope_selector selector) = scope_selector selector
  /\ (scope_selector selector = selector
      \/ scope_selector selector = ".zoro-container" +++ selector
      \/ scope_selector selector = ".zoro-container " +++ selector).
Proof.
  unfold scope_selector at 2 3 4 5 6.
  destruct (isAlreadyPluginScoped selector) eqn:A.
  { split; [|now left]. unfold scope_selector. now rewrite A. }
  destruct (shouldBePluginScoped selector) eqn:S.
  2:{ split; [|now left]. unfold scope_selector. now rewrite A, S. }
  unfold addPluginScope.
  destruct (includes selector ".zoro-modal" || includes selector ".zoro-overlay")%bool
    eqn:M.
  { split; [|now left]. unfold scope_selector, addPluginScope.
    now rewrite A, S, M. }
  assert (P : forall x, isAlreadyPluginScoped (".zoro-container" +++ x) = true).
  { intros x. unfold isAlreadyPluginScoped, pluginScopes. cbn [existsb].
    now rewrite (includes_prefix _ _ (prefix_append ".zoro-container" x)). }
  destruct (String.prefix ":" selector).
  - split; [|right; now left]. unfold scope_selector. now rewrite P.
  - split; [|right; now right]. unfold scope_selector.
    change (".zoro-container" +++ " " +++ selector)
      with (".zoro-container" +++ (" " +++ selector)).
    now rewrite P.
Qed.

(** ** Reading an inline link *)

Lemma split_on_lacks sep s : lacks sep s = true -> split_on sep s = [s].
Proof.
  induction s as [|c s IH]; cbn; [reflexivity|].
  intros [N L]%andb_prop. apply negb_true_iff in N. rewrite N.
  now rewrite (IH L).
Qed.

Lemma split_on_app sep a b :
  lacks sep a = true ->
  split_on sep (a +++ String sep b) = a :: split_on sep b.
Proof.
  induction a as [|c a IH]; cbn.
  - intros _. now rewrite Ascii.eqb_refl.
  - intros [N L]%andb_prop. apply negb_true_iff in N. rewrite N.
    now rewrite (IH L).
Qed.








(** ** A call to [add] *)

Section QueueAdd.

Import RequestQueue.

Lemma process_single s tk :
  isProcessing s = false -> queue s = [tk] ->
  queue (process s) = []
  /\ history (process s)
     = match throws tk with
       | Some e => [Settled (task_id tk) (Rejected e) (clock s)]
       | None => []
       end ++ Started (task_id tk) (clock s) :: history s.
Proof.
  destruct s as [q dl ip ic ld aw tm st sub ck h]. cbn.
  intros -> ->. unfold process. cbn.
  destruct tk as [id [e|]]; destruct ic; cbn; split; reflexivity.
Qed.

(** X25. A task submitted to an idle queue starts at once; a task
    submitted to a queue at work waits.  In every state a run of the
    queue reaches, a call to [add] at a time [now] that is not in the
    past is possible; when the queue is not at work ([isProcessing] is
    false) the operation of the new task is started at [now], with no
    delay, and when [requestFn] throws its promise is rejected at that
    same moment; when the queue is at work nothing is started and the
    task is put at the end of the queue. *)
Theorem add_starts_at_once_when_idle (d : Z) (icon : bool) (t0 : Z)
    (evs : list event) (s : t) (thr : option exn) (now : Z) :
  run (configure d (constructor icon t0)) evs = Some s ->
  clock s <= now ->
  exists s',
    step s (Add thr now) = Some s'
    /\ submitted s' = S (submitted s)
    /\ (isProcessing s = false ->
        queue s' = []
        /\ history s'
           = match thr with
             | Some e => [Settled (submitted s) (Rejected e) now]
             | None => []
             end ++ Started (submitted s) now :: history s)
    /\ (isProcessing s = true ->
        history s' = history s
        /\ queue s' = queue s ++ [mkTask (submitted s) thr]).
Proof.
  intros R L. destruct (run_invariants d icon t0 evs s R) as [V _].
  pose proof (inv_processing d s V) as K. clear R V.
  exists (add thr (tick now s)). split.
  - unfold step. cbn [event_time].
    destruct (Z.ltb_spec now (clock s)) as [X|_]; [lia|reflexivity].
  - unfold add. split; [now rewrite process_submitted|]. split.
    + intros P. destruct K as [(_ & Q & _)|(P' & _)]; [|congruence].
      match goal with |- context [process ?s0] =>
        destruct (process_single s0 (mkTask (submitted s) thr)) as [A B]
      end.
      * exact P.
      * cbn. now rewrite Q.
      * split; [exact A|]. rewrite B. reflexivity.
    + intros P. rewrite process_busy.
      * split; reflexivity.
      * exact P.
      * cbn. now destruct (queue s).
Qed.

Lemma add_starts_at_once_when_idle_witness :
  exists s',
    step (configure 700 (constructor true 0)) (Add None 5) = Some s'
    /\ history s' = [Started 0 5].
Proof.
  assert (R : run (configure 700 (constructor true 0)) []
              = Some (configure 700 (constructor true 0))) by reflexivity.
  assert (L : clock (configure 700 (constructor true 0)) <= 5)
    by (vm_compute; discriminate).
  destruct (add_starts_at_once_when_idle 700 true 0 []
              (configure 700 (constructor true 0)) None 5 R L)
    as (s' & E & _ & H & _).
  exists s'. split; [exact E|]. exact (proj2 (H eq_refl)).
Defined.

End QueueAdd.

(** ** A line of a code block *)

Lemma strip_ws_not_blank a c b :
  is_str_ws c = false -> trim (a +++ String c b) <> "".
Proof.
  intros W E.
  assert (T : truthy (VStr (trim (a +++ String c b))) = false).
  { rewrite E. reflexivity. }
  apply trim_blank in T. rewrite strip_ws_app in T. cbn in T.
  rewrite W in T. destruct (strip_ws a); discriminate.
Qed.

(** X26. A line of a code block gives its key the text between the first
    and the second colon: for a block of one line [key:value] or
    [key:value:rest], whatever [rest] is, when [parseCodeBlockConfig]
    returns, the configuration holds under the trimmed key the trimmed
    value, and what follows a second colon is lost (so the value
    [https://site] is read as [https]). *)
Theorem parseCodeBlockConfig_cuts_at_second_colon (defaultUsername
    defaultLayout accessToken : value) (key value tail : string)
    (config : object) :
  lacks ":" key = true -> lacks ":" value = true ->
  lacks newline (key +++ ":" +++ value +++ tail) = true ->
  tail = "" \/ (exists rest, tail = ":" +++ rest) ->
  trim key <> "" -> trim value <> "" ->
  trim key <> "__proto__" -> trim key <> "useAuthenticatedUser" ->
  parseCodeBlockConfig defaultUsername defaultLayout accessToken
                       (key +++ ":" +++ value +++ tail)
  = Ret config ->
  obj_get config (trim key) = VStr (trim value).
Proof.
  intros Lk Lv Ln Tl Nk Nv Np Nu E.
  assert (R : read_lines [] (key +++ ":" +++ value +++ tail)
              = [(trim key, VStr (trim value))]).
  { unfold read_lines. rewrite (split_on_lacks _ _ Ln). cbn [filter].
    assert (T : truthy (VStr (trim (key +++ ":" +++ value +++ tail))) = true).
    { apply truthy_VStr.
      change (key +++ ":" +++ value +++ tail)
        with (key +++ String ":" (value +++ tail)).
      now apply strip_ws_not_blank. }
    rewrite T. cbn [fold_left]. unfold read_line.
    change (key +++ ":" +++ value +++ tail)
      with (key +++ String ":" (value +++ tail)).
    rewrite (split_on_app _ _ _ Lk).
    assert (S2 : exists l, split_on ":" (value +++ tail) = value :: l).
    { destruct Tl as [->|[rest ->]].
      - rewrite append_nil_r, (split_on_lacks _ _ Lv). now exists [].
      - change (value +++ ":" +++ rest) with (value +++ String ":" rest).
        rewrite (split_on_app _ _ _ Lv). eauto. }
    destruct S2 as [l ->]. cbn [map].
    rewrite (proj2 (truthy_VStr _) Nk), (proj2 (truthy_VStr _) Nv).
    cbn [andb]. unfold assign_text.
    apply String.eqb_neq in Np. rewrite Np. unfold obj_set. cbn [obj_has obj_find].
    destruct (array_index (trim key)); reflexivity. }
  unfold parseCodeBlockConfig in E. rewrite R in E.
  set (c := [(trim key, VStr (trim value))]) in *.
  assert (G : obj_get c (trim key) = VStr (trim value)).
  { unfold c, obj_get. cbn. now rewrite String.eqb_refl. }
  assert (Tv : truthy (VStr (trim value)) = true) by now apply truthy_VStr.
  assert (K : forall c0 k d,
             obj_get c0 (trim key) = VStr (trim value) ->
             obj_get (obj_set c0 k (js_or (obj_get c0 k) d)) (trim key)
             = VStr (trim value)).
  { intros c0 k d G0. destruct (String.eqb_spec k (trim key)) as [->|N].
    - rewrite obj_get_set_same, G0. now rewrite truthy_js_or_l.
    - now rewrite obj_get_set_other. }
  assert (H : forall c0, obj_get c0 (trim key) = VStr (trim value) ->
                         Ret (obj_set
                                (obj_set
                                   (obj_set c0 "listType"
                                      (js_or (obj_get c0 "listType")
                                             (VStr "CURRENT")))
                                   "layout"
                                   (js_or (obj_get
                                             (obj_set c0 "listType"
                                                (js_or (obj_get c0 "listType")
                                                       (VStr "CURRENT")))
                                             "layout") defaultLayout))
                                "mediaType"
                                (js_or (obj_get
                                          (obj_set
                                             (obj_set c0 "listType"
                                                (js_or (obj_get c0 "listType")
                                                       (VStr "CURRENT")))
                                             "layout"
                                             (js_or (obj_get
                                                       (obj_set c0 "listType"
                                                          (js_or (obj_get c0 "listType")
                                                                 (VStr "CURRENT")))
                                                       "layout") defaultLayout))
                                          "mediaType") (VStr "ANIME")))
                         = Ret config ->
                         obj_get config (trim key) = VStr (trim value)).
  { intros c0 G0 [= <-]. apply K, K, K, G0. }
  destruct (truthy (obj_get c "username")) eqn:U; cbn [negb] in E.
  - now apply (H c).
  - assert (Nn : "username" <> trim key).
    { intros X. rewrite X, G, Tv in U. discriminate. }
    destruct (truthy defaultUsername).
    + apply (H (obj_set c "username" defaultUsername)); [|exact E].
      now rewrite obj_get_set_other.
    + destruct (truthy accessToken); [|discriminate].
      apply (H (obj_set c "useAuthenticatedUser" (VBool true))); [|exact E].
      rewrite obj_get_set_other; [exact G|]. intros X. now apply Nu.
Qed.

Lemma parseCodeBlockConfig_cuts_at_second_colon_witness :
  obj_get [ ("url", VStr "https"); ("username", VStr "alice");
            ("listType", VStr "CURRENT"); ("layout", VStr "card");
            ("mediaType", VStr "ANIME") ] (trim "url")
  = VStr (trim " https").
Proof.
  assert (E : parseCodeBlockConfig (VStr "alice") (VStr "card") (VStr "")
                ("url" +++ ":" +++ " https" +++ "://anilist.co")
              = Ret [ ("url", VStr "https"); ("username", VStr "alice");
                      ("listType", VStr "CURRENT"); ("layout", VStr "card");
                      ("mediaType", VStr "ANIME") ])
    by (vm_compute; reflexivity).
  apply (parseCodeBlockConfig_cuts_at_second_colon (VStr "alice")
           (VStr "card") (VStr "") "url" " https" "://anilist.co" _
           eq_refl eq_refl eq_refl
           (or_intror (ex_intro _ "//anilist.co" eq_refl)));
    try exact E; vm_compute; discriminate.
Defined.
